(** * numjs facade ([src/lib/index.ts]): a shallow embedding and its properties

    JavaScript numbers that are used as sizes, indices, axes and counters are
    integers ([Z]).  Array elements are kept abstract in the array engine and
    are real numbers ([R], the idealisation of IEEE doubles) where the source
    calls [Math.exp] and friends.  A JavaScript array slot that holds
    [undefined] (a hole, or a read past the end) is [None]. *)

From Stdlib Require Import ZArith Lia Bool String.
From Stdlib Require Import Reals Lra.
From stdpp Require Import base tactics option list numbers.

#[local] Open Scope Z_scope.
#[local] Set Warnings "-register-all".

(** * Part I: the embedding *)

Module nj.

(** ** [broadcast(shape1, shape2)] *)

(** [!v] of JavaScript for a slot holding a number or [undefined]. *)
Definition js_not (v : option Z) : bool :=
  match v with
  | None => true
  | Some d => d =? 0
  end.

(** [v === 1]. *)
Definition is_one (v : option Z) : bool :=
  match v with
  | Some d => d =? 1
  | None => false
  end.

(** [a === b] on slots. *)
Definition strict_eq (a b : option Z) : bool :=
  match a, b with
  | Some x, Some y => x =? y
  | None, None => true
  | _, _ => false
  end.

(** The body of the [for] loop for one index: [Some v] is the value stored in
    [outShape[i]], [None] is the early [return;]. *)
Definition pair_dim (r1 r2 : option Z) : option (option Z) :=
  if js_not r1 || is_one r1 then Some r2
  else if js_not r2 || is_one r2 then Some r1
  else if strict_eq r1 r2 then Some r1
  else None.

(** [for (let i = 0; i < maxLength; i++) ...] with [n = maxLength - i]
    iterations left. *)
Fixpoint broadcast_loop (n i : nat) (reversed1 reversed2 : list Z)
    (outShape : list (option Z)) : option (list (option Z)) :=
  match n with
  | O => Some outShape
  | S n' =>
      match pair_dim (reversed1 !! i) (reversed2 !! i) with
      | Some v => broadcast_loop n' (S i) reversed1 reversed2 (<[i := v]> outShape)
      | None => None
      end
  end.

Definition broadcast (shape1 shape2 : list Z) : option (list (option Z)) :=
  if (length shape1 =? 0)%nat || (length shape2 =? 0)%nat then None
  else
    let reversed1 := reverse shape1 in
    let reversed2 := reverse shape2 in
    let maxLength := Nat.max (length shape1) (length shape2) in
    let outShape := replicate maxLength None in
    reverse <$> broadcast_loop maxLength 0 reversed1 reversed2 outShape.

(** The rule of the specification, in its own words: aligned from the
    trailing dimension, [d2] if [d1] is missing or 1, else [d1] if [d2] is
    missing or 1, else [d1] if they are equal, otherwise incompatible; a
    missing leading dimension is copied from the longer shape. *)
Definition spec_pair (d1 d2 : option Z) : option Z :=
  match d1, d2 with
  | None, d => d
  | d, None => d
  | Some a, Some b =>
      if a =? 1 then Some b
      else if b =? 1 then Some a
      else if a =? b then Some a
      else None
  end.

Fixpoint spec_aligned (r1 r2 : list Z) : option (list Z) :=
  match r1, r2 with
  | [], r => Some r
  | r, [] => Some r
  | a :: r1', b :: r2' =>
      d ← spec_pair (Some a) (Some b);
      r ← spec_aligned r1' r2';
      Some (d :: r)
  end.

Definition broadcastShape_spec (shape1 shape2 : list Z) : option (list Z) :=
  reverse <$> spec_aligned (reverse shape1) (reverse shape2).

(** An aligned pair that the specification calls incompatible: both present,
    neither is 1, and they differ. *)
Definition spec_incompatible (shape1 shape2 : list Z) : Prop :=
  ∃ (j : nat) (d1 d2 : Z),
    reverse shape1 !! j = Some d1 ∧ reverse shape2 !! j = Some d2 ∧
    d1 ≠ 1 ∧ d2 ≠ 1 ∧ d1 ≠ d2.

(** What the sentence on zero dimensions promises at aligned position [j]:
    the call succeeds and the slot holds the dimension of the operand
    opposite to the zero. *)
Definition zero_gives_other_dim (shape1 shape2 : list Z) (j : nat) : Prop :=
  ∃ out, broadcast shape1 shape2 = Some out ∧
    (reverse shape1 !! j = Some 0 → reverse out !! j = Some (reverse shape2 !! j)) ∧
    (reverse shape2 !! j = Some 0 → reverse out !! j = Some (reverse shape1 !! j)).

(** A dimension that the loop treats as broadcastable: the slot is missing,
    or holds 0 or 1 ([!d || d === 1]). *)
Definition absent_or_small (d : option Z) : Prop :=
  d = None ∨ d = Some 0 ∨ d = Some 1.

(** ** Results of calls

    A call returns, throws, or never returns (a [while] loop whose condition
    stays true). *)

Inductive error := ValueError | TypeError.

Inductive outcome (A : Type) :=
| Ok (a : A)
| Throw (e : error)
| Diverge.
Arguments Ok {A} a.
Arguments Throw {A} e.
Arguments Diverge {A}.

(** ** [arange] *)

(** [dtype: string | Function]. *)
Inductive dtype_arg :=
| DtypeString (name : string)
| DtypeFunction (name : string).

(** The six overloads of [arange]. *)
Inductive arange_args :=
| ArangeStop (stop : Z)
| ArangeStartStop (start stop : Z)
| ArangeStopDtype (stop : Z) (dtype : dtype_arg)
| ArangeStartStopStep (start stop step : Z)
| ArangeStartStopDtype (start stop : Z) (dtype : dtype_arg)
| ArangeStartStopStepDtype (start stop step : Z) (dtype : dtype_arg).

(** The dispatch on [arguments.length] and [_.isNumber]: every short form
    calls [arange] again with four arguments. *)
Definition arange_dispatch (args : arange_args) : Z * Z * Z * option dtype_arg :=
  match args with
  | ArangeStop stop => (0, stop, 1, None)
  | ArangeStartStop start stop => (start, stop, 1, None)
  | ArangeStopDtype stop dtype => (0, stop, 1, Some dtype)
  | ArangeStartStopStep start stop step => (start, stop, step, None)
  | ArangeStartStopDtype start stop dtype => (start, stop, 1, Some dtype)
  | ArangeStartStopStepDtype start stop step dtype => (start, stop, step, Some dtype)
  end.

(** The numbers of [arange] are IEEE doubles.  A double holds every integer
    of magnitude up to [2^53]; beyond, it holds the multiples of a power of
    two, 53 binary digits long.  An integer [a >= 0] is rounded to the
    nearest such multiple, ties to the even one. *)
Definition ulp (a : Z) : Z := 2 ^ Z.max 0 (Z.log2 a - 52).

Definition round_even (a u : Z) : Z :=
  let q := a / u in
  let r := a mod u in
  if 2 * r <? u then q * u
  else if u <? 2 * r then (q + 1) * u
  else if Z.even q then q * u else (q + 1) * u.

Definition to_double (z : Z) : Z :=
  Z.sgn z * round_even (Z.abs z) (ulp (Z.abs z)).

(** [x + y] on doubles that hold integers: the sum, rounded.  (A sum beyond
    the largest double is [Infinity] in JavaScript; here it stays a number
    larger than every double, which [<] treats alike.) *)
Definition double_add (x y : Z) : Z := to_double (x + y).

(** The largest magnitude up to which every integer is a double. *)
Definition max_exact : Z := 2 ^ 53.

(** [while (start < stop) { result[i++] = start; start += step; }]: [i] is
    always [result.length], so the write appends.  [None] when the fuel runs
    out before the condition turns false. *)
Fixpoint arange_loop (fuel : nat) (start stop step : Z) (result : list Z)
    : option (list Z) :=
  match fuel with
  | O => None
  | S fuel' =>
      if start <? stop
      then arange_loop fuel' (double_add start step) stop step (result ++ [start])
      else Some result
  end.

(** Number of values [start + k * step], [k >= 0], below [stop], for a
    positive [step]. *)
Definition arange_len (start stop step : Z) : Z :=
  Z.max 0 ((stop - start + step - 1) / step).

(** The loop run to completion.  With [step >= 1] every iteration that
    changes [start] raises it by at least 1, so the loop makes at most
    [stop - start] iterations unless an addition leaves [start] as it is,
    and then it never ends; when that many iterations do not suffice no
    number does (lemma [arange_loop_diverges_iff] below), and the call never
    returns. *)
Definition arange_run (start stop step : Z) : outcome (list Z) :=
  match arange_loop (S (Z.to_nat (stop - start))) start stop step [] with
  | Some result => Ok result
  | None => Diverge
  end.

(** [arange(...)]: the list [result] that is handed to [NdArray.new], and the
    [dtype] that is handed over with it.  Without a [dtype] the array holds
    the list as it is.  With a [dtype], [NdArray.new] stores the list in a
    buffer of that type; that conversion is not under [src/] and is not part
    of this definition, which says nothing of the elements of an array made
    with a [dtype]. *)
Definition arange (args : arange_args) : outcome (list Z * option dtype_arg) :=
  let '(start, stop, step, dtype) := arange_dispatch args in
  match arange_run start stop step with
  | Ok result => Ok (result, dtype)
  | Throw e => Throw e
  | Diverge => Diverge
  end.

(** ** JavaScript idioms *)

(** [v || d] for an optional number [v]: [undefined] and 0 give [d]. *)
Definition js_or (v : option Z) (d : Z) : Z :=
  match v with
  | Some x => if x =? 0 then d else x
  | None => d
  end.

(** [while (k < 0) { k += inc; }], [None] when the fuel runs out. *)
Fixpoint add_while_negative (fuel : nat) (k inc : Z) : option Z :=
  match fuel with
  | O => None
  | S fuel' => if k <? 0 then add_while_negative fuel' (k + inc) inc else Some k
  end.

(** The loop run to completion.  With [inc >= 1] it makes at most [-k]
    iterations; when that many do not suffice ([inc <= 0]) it never ends
    (lemma [add_while_negative_diverges] below). *)
Definition add_while_negative_run (k inc : Z) : outcome Z :=
  match add_while_negative (S (Z.to_nat (- k))) k inc with
  | Some k' => Ok k'
  | None => Diverge
  end.

(** [l[i] = v] on a JavaScript array with holes: a write past the end
    extends the array, a write at a negative index sets a property and leaves
    the elements alone. *)
Definition js_write {A} (l : list (option A)) (i : Z) (v : option A)
    : list (option A) :=
  if i <? 0 then l
  else if i <? Z.of_nat (length l) then <[Z.to_nat i := v]> l
  else l ++ replicate (Z.to_nat i - length l) None ++ [v].

(** [l[i]] on a JavaScript array with holes. *)
Definition js_read {A} (l : list (option A)) (i : Z) : option A :=
  if i <? 0 then None else mjoin (l !! Z.to_nat i).

(** [ones(n).tolist()]: [n] times the number 1.  The array exists only to be
    read back as a list of [step] arguments; its buffer is not part of the
    modelled heap. *)
Definition ones_tolist (n : nat) : list (option Z) := replicate n (Some 1).

(** [arange(n).tolist()], likewise. *)
Definition arange_tolist (n : nat) : outcome (list (option Z)) :=
  match arange (ArangeStop (Z.of_nat n)) with
  | Ok (result, _) => Ok (Some <$> result)
  | Throw e => Throw e
  | Diverge => Diverge
  end.

(** ** Buffers and computations on them *)

(** Buffers, by location.  Allocation appends. *)
Abbreviation heap_of elt := (list (list elt)) (only parsing).

Section Heap.

Context {elt : Type}.

#[local] Abbreviation heap := (heap_of elt) (only parsing).

(** Computations that read and write buffers. *)
Definition M (A : Type) : Type := heap → outcome A * heap.

Definition ret {A} (a : A) : M A := λ h, (Ok a, h).

Definition throw {A} (e : error) : M A := λ h, (Throw e, h).

Definition bind {A B} (c : M A) (k : A → M B) : M B :=
  λ h, match c h with
       | (Ok a, h') => k a h'
       | (Throw e, h') => (Throw e, h')
       | (Diverge, h') => (Diverge, h')
       end.

(** A call that touches no buffer. *)
Definition lift {A} (o : outcome A) : M A := λ h, (o, h).

Definition obind {A B} (o : outcome A) (k : A → outcome B) : outcome B :=
  match o with
  | Ok a => k a
  | Throw e => Throw e
  | Diverge => Diverge
  end.

Fixpoint mapM {A B} (f : A → M B) (l : list A) : M (list B) :=
  match l with
  | [] => ret []
  | a :: l' => bind (f a) (λ b, bind (mapM f l') (λ bs, ret (b :: bs)))
  end.

End Heap.

Notation "'let*' x := c 'in' k" := (bind c (λ x, k))
  (at level 10, x pattern, c at level 100, k at level 200, only parsing).
Notation "'let+' x := c 'in' k" := (obind c (λ x, k))
  (at level 10, x pattern, c at level 100, k at level 200, only parsing).

(** ** The array engine

    [index.ts] calls into [NdArray] ([./ndarray]), [_] ([./utils]) and the
    [ndarray] packages, which are not part of the sources at hand.  Their
    operations are modelled from the specification (sections 3, 4.2 and 6). *)

Section Engine.

Context {elt : Type}.

#[local] Abbreviation heap := (heap_of elt) (only parsing).

(** What a read outside a buffer yields ([undefined]); no view that stays
    inside its buffer reads it. *)
Variable undef : elt.

(** The number 0 as an element. *)
Variable zero : elt.

(** Values that reach the facade as array literals ([ArbDimNumArray | number]),
    and [undefined] for what indexing them can produce. *)
Inductive jsval :=
| JNum (x : elt)
| JArr (l : list jsval)
| JUndef.

(** Modelled from the spec: the View of section 3, a [(buffer, shape,
    strides, offset)] tuple; the buffer is named by its location in the heap. *)
Record NdArray := mkNdArray {
  data : nat;
  shape : list nat;
  stride : list Z;
  offset : Z
}.

(** [ArbDimNumArray | NdArray | number], given by value: an [NdArray]; a
    number; or a plain array that is written at the call, or is nested, so
    that the call reads it and builds storage of its own from it. *)
Inductive array_like :=
| ALit (v : jsval)
| ANd (a : NdArray).

(** What a function of the facade is called with: one of the above, or a
    flat plain array of numbers that the caller holds.  Such an array is
    storage that exists before the call: it is in the heap, at the place
    [l], like the buffer of an [NdArray]. *)
Inductive argument :=
| Arg (x : array_like)
| Held (l : nat).

Coercion Arg : array_like >-> argument.

Definition ndim (a : NdArray) : nat := length (shape a).

(** Modelled from the spec: [shapeSize], the product of all dimensions, 1 for
    the empty shape. *)
Fixpoint shapeSize (s : list nat) : nat :=
  match s with
  | [] => 1
  | n :: s' => n * shapeSize s'
  end.

(** Modelled from the spec: row-major strides of a contiguous layout. *)
Fixpoint row_major (s : list nat) : list Z :=
  match s with
  | [] => []
  | _ :: s' => Z.of_nat (shapeSize s') :: row_major s'
  end.

(** All multi-indices of a shape, in row-major traversal order. *)
Fixpoint indices (s : list nat) : list (list nat) :=
  match s with
  | [] => [[]]
  | n :: s' => flat_map (λ i, cons i <$> indices s') (seq 0 n)
  end.

Fixpoint dot_index (idx : list nat) (strides : list Z) : Z :=
  match idx, strides with
  | i :: idx', st :: strides' => Z.of_nat i * st + dot_index idx' strides'
  | _, _ => 0
  end.

(** Modelled from the spec: the linear buffer position of a multi-index,
    [offset + sum idx[i] * strides[i]]. *)
Definition position (a : NdArray) (idx : list nat) : Z :=
  offset a + dot_index idx (stride a).

Definition read (h : heap) (l : nat) (p : Z) : elt :=
  if p <? 0 then undef
  else default undef (h !! l ≫= λ buf, buf !! Z.to_nat p).

(** A write outside the buffer is dropped (as a typed array does). *)
Definition write (h : heap) (l : nat) (p : Z) (x : elt) : heap :=
  if p <? 0 then h else alter (λ buf, <[Z.to_nat p := x]> buf) l h.

Definition get (h : heap) (a : NdArray) (idx : list nat) : elt :=
  read h (data a) (position a idx).

Definition set (h : heap) (a : NdArray) (idx : list nat) (x : elt) : heap :=
  write h (data a) (position a idx) x.

Definition alloc (buf : list elt) (s : list nat) : M NdArray :=
  λ h, (Ok (mkNdArray (length h) s (row_major s) 0), h ++ [buf]).

(** Modelled from the spec: [clone()] always allocates a new buffer with
    identical shape and values, contiguous row-major layout, offset 0. *)
Definition clone (a : NdArray) : M NdArray :=
  λ h, alloc (get h a <$> indices (shape a)) (shape a) h.

(** Modelled from the spec (section 6, element-wise operator compiler): the
    callable that [cwise] returns for a body [a = f(a)] applies [f] to every
    element of the view, in place. *)
Definition cwise (f : elt → elt) (a : NdArray) : M unit :=
  λ h, (Ok tt, foldl (λ h' idx, set h' a idx (f (get h' a idx))) h
                 (indices (shape a))).

(** Modelled from the spec: element-wise assignment of [src] into the view
    [dst], over the shape of [dst]. *)
Definition assign_view (dst src : NdArray) : M unit :=
  λ h, (Ok tt, foldl (λ h' idx, set h' dst idx (get h' src idx)) h
                 (indices (shape dst))).

(** Modelled from the spec: [pick(...)] fixes the axes given an index and
    drops them from the shape; the other axes ([null], [undefined], or no
    argument) keep their extent and stride; the buffer is shared. *)
Fixpoint pick_axes (shp : list nat) (strides : list Z) (args : list (option Z))
    (off : Z) : list nat * list Z * Z :=
  match shp, strides with
  | n :: shp', st :: strides' =>
      match hd None args with
      | Some i =>
          if 0 <=? i then pick_axes shp' strides' (tl args) (off + st * i)
          else
            let '(s, t, o) := pick_axes shp' strides' (tl args) off in
            (n :: s, st :: t, o)
      | None =>
          let '(s, t, o) := pick_axes shp' strides' (tl args) off in
          (n :: s, st :: t, o)
      end
  | _, _ => ([], [], off)
  end.

Definition pick (a : NdArray) (args : list (option Z)) : NdArray :=
  let '(s, t, o) := pick_axes (shape a) (stride a) args (offset a) in
  mkNdArray (data a) s t o.

(** Modelled from the spec: [step(...)] multiplies the stride of each axis by
    the given factor; a negative factor moves the offset to the last element
    of that axis; the extent becomes [ceil(shape[i] / abs(step[i]))]; a zero
    step is invalid ([ValueError]). *)
Fixpoint step_axes (shp : list nat) (strides : list Z) (args : list (option Z))
    (off : Z) : outcome (list nat * list Z * Z) :=
  match shp, strides with
  | n :: shp', st :: strides' =>
      match hd None args with
      | Some d =>
          if d =? 0 then Throw ValueError
          else
            let off' := if d <? 0 then off + st * (Z.of_nat n - 1) else off in
            let n' := Z.to_nat ((Z.of_nat n + Z.abs d - 1) / Z.abs d) in
            let+ (s, t, o) := step_axes shp' strides' (tl args) off' in
            Ok (n' :: s, st * d :: t, o)
      | None =>
          let+ (s, t, o) := step_axes shp' strides' (tl args) off in
          Ok (n :: s, st :: t, o)
      end
  | _, _ => Ok ([], [], off)
  end.

Definition step (a : NdArray) (args : list (option Z)) : outcome NdArray :=
  let+ (s, t, o) := step_axes (shape a) (stride a) args (offset a) in
  Ok (mkNdArray (data a) s t o).

(** [axes] is a permutation of [0 .. rank-1]: it has [rank] entries and each
    axis occurs among them. *)
Definition is_permutation (rank : nat) (axes : list (option Z)) : bool :=
  (length axes =? rank)%nat &&
  forallb (λ i, existsb (λ a, match a with
                              | Some x => x =? Z.of_nat i
                              | None => false
                              end) axes) (seq 0 rank).

Definition permute {A} (l : list A) (axes : list (option Z)) : list A :=
  omap (λ a, a ≫= λ x, l !! Z.to_nat x) axes.

(** Modelled from the spec: [transpose(axes?)] permutes shape and strides
    according to [axes] (default: full reversal); [axes] must be a
    permutation of [0 .. rank-1], else [ValueError]; always a view on the
    same buffer. *)
Definition transpose_view (a : NdArray) (axes : option (list (option Z)))
    : outcome NdArray :=
  match axes with
  | None => Ok (mkNdArray (data a) (reverse (shape a)) (reverse (stride a)) (offset a))
  | Some axes =>
      if is_permutation (ndim a) axes
      then Ok (mkNdArray (data a) (permute (shape a) axes)
                 (permute (stride a) axes) (offset a))
      else Throw ValueError
  end.

(** Modelled from the spec: [_.getShape] infers the shape by walking the
    nesting depth and the lengths of the first elements. *)
Fixpoint getShape (v : jsval) : list nat :=
  match v with
  | JArr l =>
      length l :: match l with
                  | x :: _ => getShape x
                  | [] => []
                  end
  | _ => []
  end.

(** The numbers of a nested array in row-major order. *)
Fixpoint flatten (v : jsval) : list elt :=
  match v with
  | JNum x => [x]
  | JArr l => flat_map flatten l
  | JUndef => []
  end.

(** [v] is a regular nested array of numbers of shape [s]. *)
Fixpoint has_shape (s : list nat) (v : jsval) : bool :=
  match s, v with
  | [], JNum _ => true
  | n :: s', JArr l => (length l =? n)%nat && forallb (has_shape s') l
  | _, _ => false
  end.

Definition regular (v : jsval) : bool := has_shape (getShape v) v.

Definition isNumber (x : array_like) : bool :=
  match x with
  | ALit (JNum _) => true
  | _ => false
  end.

(** Modelled from the spec: the factory [NdArray.new] creates a view from a
    nested sequence, whose shape it infers, from a flat buffer, or from a
    scalar (section 3); irregular nesting is rejected with [ValueError].  An
    [NdArray] is returned as it is.  A flat plain array is taken as the
    buffer itself, it is not copied: the view of an array that the caller
    holds is a view on the caller's array.  A nested array is flattened into
    a new buffer, and an array or a number given by value has no storage
    before the call, so its buffer is new in the heap too.  The spec gives no
    shape for a scalar: as in [concatenate], which turns a number into [[a]],
    it becomes a one-element array (no statement below depends on this
    choice beyond the shape that is reported for a scalar argument). *)
Definition NdArray_new (x : argument) : M NdArray :=
  match x with
  | Arg (ANd a) => ret a
  | Arg (ALit (JNum n)) => alloc [n] [1%nat]
  | Arg (ALit v) =>
      if regular v then alloc (flatten v) (getShape v) else throw ValueError
  | Held l =>
      λ h, match h !! l with
           | Some buf =>
               (Ok (mkNdArray l [length buf] (row_major [length buf]) 0), h)
           | None => (Throw TypeError, h)
           end
  end.

Fixpoint tolist_from (h : heap) (a : NdArray) (s : list nat) (prefix : list nat)
    : jsval :=
  match s with
  | [] => JNum (get h a prefix)
  | n :: s' => JArr ((λ i, tolist_from h a s' (prefix ++ [i])) <$> seq 0 n)
  end.

(** Modelled from the spec: [tolist()], the nested-array representation of a
    view. *)
Definition tolist (h : heap) (a : NdArray) : jsval :=
  tolist_from h a (shape a) [].

(** ** [zeros] *)

(** [shape: number | number[]]. *)
Inductive shape_arg :=
| ShapeNumber (n : nat)
| ShapeArray (s : list nat).

(** [zeros(shape, dtype)]: a number becomes a one-axis shape; the buffer of
    [shapeSize] elements is filled with 0 (typed arrays start out so). *)
Definition zeros (shp : shape_arg) : M NdArray :=
  let shp' := match shp with
              | ShapeNumber n => [n]
              | ShapeArray s => s
              end in
  let s := shapeSize shp' in
  alloc (replicate s zero) shp'.

(** ** [transpose], [flip], [rot90] *)

(** [transpose(x, axes)]: [NdArray.new(x).transpose(axes)]. *)
Definition transpose (x : argument) (axes : option (list (option Z)))
    : M NdArray :=
  let* a := NdArray_new x in
  lift (transpose_view a axes).

(** [flip(m, axis)]. *)
Definition flip (m : argument) (axis : Z) : M NdArray :=
  let* m := NdArray_new m in
  let indexer := ones_tolist (ndim m) in
  let* cleanaxis := lift (add_while_negative_run axis (Z.of_nat (ndim m))) in
  match js_read indexer cleanaxis with
  | None => throw ValueError
  | Some _ =>
      let indexer := js_write indexer cleanaxis (Some (-1)) in
      lift (step m indexer)
  end.

(** The rank of the array that [NdArray.new] makes of a number, one axis as
    in [NdArray_new] above (here the number [abs] is called on in [rot90];
    that array is not part of the modelled heap). *)
Definition scalar_ndim : nat := 1.

(** [rot90(m, k, axes)].  [axes] is a plain array of numbers; [axes || [0, 1]]
    keeps an empty array, which is truthy. *)
Definition rot90 (m : argument) (k : option Z) (axes : option (list Z))
    : M NdArray :=
  let k := js_or k 1 in
  let* k := lift (add_while_negative_run k 4) in
  let k := Z.rem k 4 in
  let* m := NdArray_new m in
  let axes2 := default [0; 1] axes in
  if negb (length axes2 =? 2)%nat then throw ValueError
  else
    let a0 := default 0 (axes2 !! 0%nat) in
    let a1 := default 0 (axes2 !! 1%nat) in
    if (a0 =? a1) || (scalar_ndim =? ndim m)%nat then throw ValueError
    else if k =? 0 then ret m
    else if k =? 2 then
      let* f := flip (ANd m) a0 in
      flip (ANd f) a1
    else
      let* axesList := lift (arange_tolist (ndim m)) in
      let keep := js_read axesList a0 in
      let axesList := js_write axesList a0 (js_read axesList a1) in
      let axesList := js_write axesList a1 keep in
      if k =? 1 then
        let* f := flip (ANd m) a1 in
        transpose (ANd f) (Some axesList)
      else
        let* t := transpose (ANd m) (Some axesList) in
        flip (ANd t) a1.

(** ** [concatenate] *)

(** [v[i]]: [undefined] past the end and on a number, [TypeError] on
    [undefined]. *)
Definition js_index (v : jsval) (i : nat) : outcome jsval :=
  match v with
  | JArr l => Ok (default JUndef (l !! i))
  | JNum _ => Ok JUndef
  | JUndef => Throw TypeError
  end.

(** [x.concat(y)]: [TypeError] when [x] is no array; an array argument is
    spliced in, any other value is appended. *)
Definition js_concat (x y : jsval) : outcome jsval :=
  match x with
  | JArr lx =>
      Ok (JArr (lx ++ match y with
                      | JArr ly => ly
                      | _ => [y]
                      end))
  | _ => Throw TypeError
  end.

(** [v[i] = x] for [i] inside the array. *)
Definition js_store (v : jsval) (i : nat) (x : jsval) : jsval :=
  match v with
  | JArr l => JArr (<[i := x]> l)
  | _ => v
  end.

(** [for (row ...) m[row] = m[row].concat(a[row])]. *)
Fixpoint concat_rows (rows : list nat) (m a : jsval) : outcome jsval :=
  match rows with
  | [] => Ok m
  | row :: rows' =>
      let+ mrow := js_index m row in
      let+ arow := js_index a row in
      let+ r := js_concat mrow arow in
      concat_rows rows' (js_store m row r) a
  end.

(** [for (colI ...) rowV[colI] = m[rowI][colI].concat(a[rowI][colI])]. *)
Fixpoint concat_cols (cols : list nat) (mrow arow : jsval) (rowV : list jsval)
    : outcome (list jsval) :=
  match cols with
  | [] => Ok rowV
  | colI :: cols' =>
      let+ mc := js_index mrow colI in
      let+ ac := js_index arow colI in
      let+ r := js_concat mc ac in
      concat_cols cols' mrow arow (<[colI := r]> rowV)
  end.

(** [for (rowI ...) { rowV = new Array(mShape[1]); ...; m[rowI] = rowV }]. *)
Fixpoint concat_planes (rows : list nat) (ncols : nat) (m a : jsval)
    : outcome jsval :=
  match rows with
  | [] => Ok m
  | rowI :: rows' =>
      let+ mrow := js_index m rowI in
      let+ arow := js_index a rowI in
      let+ rowV := concat_cols (seq 0 ncols) mrow arow (replicate ncols JUndef) in
      concat_planes rows' ncols (js_store m rowI (JArr rowV)) a
  end.

(** The body of the second loop of [concatenate] for one further input [a]. *)
Definition concat_step (m a : jsval) : outcome jsval :=
  let mShape := getShape m in
  let aShape := getShape a in
  let mlen := length mShape in
  let alen := length aShape in
  let same0 := bool_decide (mShape !! 0%nat = aShape !! 0%nat) in
  let same1 := bool_decide (mShape !! 1%nat = aShape !! 1%nat) in
  if negb (mlen =? alen)%nat then Throw ValueError
  else if (mlen =? 1)%nat && (alen =? 1)%nat then js_concat m a
  else if ((mlen =? 2)%nat && (alen =? 2)%nat && same0)
          || ((mlen =? 1)%nat && (alen =? 2)%nat && same0)
          || ((mlen =? 2)%nat && (alen =? 1)%nat && same0)
  then concat_rows (seq 0 (default 0%nat (mShape !! 0%nat))) m a
  else if ((mlen =? 3)%nat && (alen =? 3)%nat && same0 && same1)
          || ((mlen =? 2)%nat && (alen =? 3)%nat && same0 && same1)
          || ((mlen =? 3)%nat && (alen =? 2)%nat && same0 && same1)
  then concat_planes (seq 0 (default 0%nat (mShape !! 0%nat)))
         (default 0%nat (mShape !! 1%nat)) m a
  else Throw ValueError.

Fixpoint concat_all (m : jsval) (rest : list jsval) : outcome jsval :=
  match rest with
  | [] => Ok m
  | a :: rest' =>
      let+ m' := concat_step m a in
      concat_all m' rest'
  end.

(** The first loop: [a instanceof NdArray ? a.tolist() : _.isNumber(a) ? [a] : a]. *)
Definition to_nested (h : heap) (a : array_like) : jsval :=
  match a with
  | ANd v => tolist h v
  | ALit (JNum x) => JArr [JNum x]
  | ALit v => v
  end.

(** *** The loops on objects

    The loops above are written on the values of [m] and [a].  In the code
    [m] is [arrays[0]], an object: [m[row] = ...] writes into it, and when
    the caller holds that array the write is to the caller's array; an [a]
    that is the same object is then read as it has become.  The loops below
    keep track of this.  They agree with the loops above when [a] is another
    object than [m] (lemmas [concat_rows_at_spec], [concat_planes_at_spec],
    [concat_step_at_spec]). *)

(** An input of [concatenate]: an argument as for the other functions, or a
    nested plain array (an array of arrays) that the caller holds, the
    [p]-th of the caller's nested arrays.  The same [p] twice is the same
    object twice.  The caller's nested arrays are the second store of
    [concatenate]: [held !! p] lists the elements of the [p]-th array. *)
Inductive concat_arg :=
| CArg (x : argument)
| CHeld (p : nat).

(** What [arrays[i]] holds after the first loop
    ([a instanceof NdArray ? a.tolist() : _.isNumber(a) ? [a] : a]): an
    object of its own (the list made of an [NdArray], [[a]] for a number, an
    array given by value), the caller's flat array [l], or the caller's
    nested array [p]. *)
Inductive centry :=
| EOwn (v : jsval)
| EBuf (l : nat)
| EHeld (p : nat).

Definition to_entry (h : heap) (a : concat_arg) : centry :=
  match a with
  | CArg (Arg x) => EOwn (to_nested h x)
  | CArg (Held l) => EBuf l
  | CHeld p => EHeld p
  end.

(** The array that an entry is, at present. *)
Definition entry_val (h : heap) (held : heap_of jsval) (e : centry) : jsval :=
  match e with
  | EOwn v => v
  | EBuf l =>
      match h !! l with
      | Some buf => JArr (JNum <$> buf)
      | None => JUndef
      end
  | EHeld p =>
      match held !! p with
      | Some rows => JArr rows
      | None => JUndef
      end
  end.

(** [m[row] = r].  On the caller's nested array the write goes to that
    array.  (On a flat array of numbers the loops never come to this write:
    its element [m[row]] is a number, and [m[row].concat] has thrown.) *)
Definition entry_store (m : centry) (row : nat) (r : jsval) : @M jsval centry :=
  λ held,
    match m with
    | EOwn v => (Ok (EOwn (js_store v row r)), held)
    | EBuf l => (Ok m, held)
    | EHeld p => (Ok m, alter (λ rows, <[row := r]> rows) p held)
    end.

(** [for (row ...) m[row] = m[row].concat(a[row])]. *)
Fixpoint concat_rows_at (h : heap) (rows : list nat) (m a : centry)
    : @M jsval centry :=
  match rows with
  | [] => ret m
  | row :: rows' =>
      λ held,
        (let* r := lift (let+ mrow := js_index (entry_val h held m) row in
                         let+ arow := js_index (entry_val h held a) row in
                         js_concat mrow arow) in
         let* m' := entry_store m row r in
         concat_rows_at h rows' m' a) held
  end.

(** [for (rowI ...) { rowV = new Array(mShape[1]); ...; m[rowI] = rowV }];
    the inner loop writes to [rowV] only. *)
Fixpoint concat_planes_at (h : heap) (rows : list nat) (ncols : nat)
    (m a : centry) : @M jsval centry :=
  match rows with
  | [] => ret m
  | rowI :: rows' =>
      λ held,
        (let* rowV :=
           lift (let+ mrow := js_index (entry_val h held m) rowI in
                 let+ arow := js_index (entry_val h held a) rowI in
                 concat_cols (seq 0 ncols) mrow arow (replicate ncols JUndef)) in
         let* m' := entry_store m rowI (JArr rowV) in
         concat_planes_at h rows' ncols m' a) held
  end.

(** The body of the second loop for one further input [a]; [m.concat(a)]
    makes a new array, which [m] then is. *)
Definition concat_step_at (h : heap) (m a : centry) : @M jsval centry :=
  λ held,
    let mv := entry_val h held m in
    let av := entry_val h held a in
    let mShape := getShape mv in
    let aShape := getShape av in
    let mlen := length mShape in
    let alen := length aShape in
    let same0 := bool_decide (mShape !! 0%nat = aShape !! 0%nat) in
    let same1 := bool_decide (mShape !! 1%nat = aShape !! 1%nat) in
    if negb (mlen =? alen)%nat then (Throw ValueError, held)
    else if (mlen =? 1)%nat && (alen =? 1)%nat
    then (let+ r := js_concat mv av in Ok (EOwn r), held)
    else if ((mlen =? 2)%nat && (alen =? 2)%nat && same0)
            || ((mlen =? 1)%nat && (alen =? 2)%nat && same0)
            || ((mlen =? 2)%nat && (alen =? 1)%nat && same0)
    then concat_rows_at h (seq 0 (default 0%nat (mShape !! 0%nat))) m a held
    else if ((mlen =? 3)%nat && (alen =? 3)%nat && same0 && same1)
            || ((mlen =? 2)%nat && (alen =? 3)%nat && same0 && same1)
            || ((mlen =? 3)%nat && (alen =? 2)%nat && same0 && same1)
    then concat_planes_at h (seq 0 (default 0%nat (mShape !! 0%nat)))
           (default 0%nat (mShape !! 1%nat)) m a held
    else (Throw ValueError, held).

Fixpoint concat_all_at (h : heap) (m : centry) (rest : list centry)
    : @M jsval centry :=
  match rest with
  | [] => ret m
  | a :: rest' =>
      let* m' := concat_step_at h m a in
      concat_all_at h m' rest'
  end.

(** What [NdArray.new(m)] is called with at the end. *)
Definition entry_arg (h : heap) (held : heap_of jsval) (m : centry) : argument :=
  match m with
  | EBuf l => Held l
  | _ => Arg (ALit (entry_val h held m))
  end.

(** [concatenate(arrays)], the form with one argument, the list of inputs
    (the variadic form collects its arguments into the same list), run on
    the heap [h] and on the caller's nested arrays [held].  The list itself
    is left holding the entries of the first loop; it is not read again.
    With no input, [arrays[0].dtype] is a [TypeError]. *)
Definition concatenate_held (arrays : list concat_arg)
    : heap → heap_of jsval → outcome NdArray * heap * heap_of jsval :=
  λ h held,
    match to_entry h <$> arrays with
    | [] => (Throw TypeError, h, held)
    | m :: rest =>
        match concat_all_at h m rest held with
        | (Ok m', held') => (NdArray_new (entry_arg h held' m') h, held')
        | (Throw e, held') => (Throw e, h, held')
        | (Diverge, held') => (Diverge, h, held')
        end
    end.

(** [concatenate] on inputs given by value: the caller holds none of the
    arrays. *)
Definition concatenate (arrays : list array_like) : M NdArray :=
  λ h, (concatenate_held ((λ x, CArg (Arg x)) <$> arrays) h []).1.

(** ** [stack] *)

(** [(a as NdArray).shape || []]: a number has no [shape]. *)
Definition shape_or_empty (a : array_like) : list nat :=
  match a with
  | ANd v => shape v
  | ALit _ => []
  end.

(** The two nested loops that compare a shape with the expected one. *)
Definition shapes_differ (expectedShape shp : list nat) : bool :=
  existsb (λ j, negb (bool_decide (expectedShape !! j = shp !! j)))
    (seq 0 (Nat.max (length expectedShape) (length shp))).

(** Modelled from the spec: the method [assign(x, false)] copies the
    elements of [x] into the view, in place. *)
Definition NdArray_assign (dst : NdArray) (x : array_like) : M unit :=
  let* src := NdArray_new x in
  assign_view dst src.

(** [for (i ...) stacked.pick(i).assign(arrays2[i], false)]. *)
Fixpoint stack_fill (stacked : NdArray) (i : nat) (arrays2 : list array_like)
    : M unit :=
  match arrays2 with
  | [] => ret tt
  | a :: rest =>
      let* _ := NdArray_assign (pick stacked [Some (Z.of_nat i)]) a in
      stack_fill stacked (S i) rest
  end.

(** The first part of [stack]: the inputs are turned into arrays (numbers are
    kept), their shapes are compared with that of the first, and the stacked
    array is built, with the inputs along a new leading axis. *)
Definition stack_build (arrays : list array_like) : M NdArray :=
  let* arrays2 :=
    mapM (λ a, if isNumber a then ret a
               else let* v := NdArray_new a in ret (ANd v)) arrays in
  let expectedShape := default [] (shape_or_empty <$> arrays2 !! 0%nat) in
  if existsb (λ a, shapes_differ expectedShape (shape_or_empty a)) (tl arrays2)
  then throw ValueError
  else if (length expectedShape =? 0)%nat then concatenate arrays2
  else
    let* stacked := zeros (ShapeArray (length arrays2 :: expectedShape)) in
    let* _ := stack_fill stacked 0 arrays2 in
    ret stacked.

(** [axes[i] = i < axis ? i + 1 : i === axis ? 0 : i] for [i < d]. *)
Definition stack_axes (axis : Z) (d : nat) : list (option Z) :=
  (λ i, Some (if i <? axis then i + 1 else if i =? axis then 0 else i))
  <$> seqZ 0 (Z.of_nat d).

(** The last part of [stack]: [if (axis) { ... return stacked.transpose(axes) }
    return stacked]. *)
Definition stack_move_axis (axis : Z) (stacked : NdArray) : @M elt NdArray :=
  if axis =? 0 then ret stacked
  else
    let axis := if axis <? 0 then Z.of_nat (ndim stacked) + axis else axis in
    let d := ndim stacked in
    lift (transpose_view stacked (Some (stack_axes axis d))).

(** [stack(arrays, axis)]. *)
Definition stack (arrays : option (list array_like)) (axis : option Z)
    : M NdArray :=
  let axis := js_or axis 0 in
  match arrays with
  | None | Some [] => throw ValueError
  | Some arrays =>
      let* stacked := stack_build arrays in
      stack_move_axis axis stacked
  end.

(** ** [fft], [ifft] *)

(** The transform itself, on the elements of the real and the imaginary
    part in traversal order (the [ndarray-fft] package). *)
Variable ndFFT_kernel : Z → list elt → list elt → list elt * list elt.





(** ** Unary element-wise operations *)

(** [x instanceof NdArray ? x.clone() : NdArray.new(x)]: only an [NdArray]
    is cloned. *)
Definition clone_or_new (x : argument) : M NdArray :=
  match x with
  | Arg (ANd a) => clone a
  | _ => NdArray_new x
  end.

(** The facade functions that clone and then apply an in-place operator
    ([ops.abseq], [ops.coseq], ..., [doTanh], [doClip], [doLeakyRelu]). *)
Definition unary_in_place (f : elt → elt) (x : argument) : M NdArray :=
  let* s := clone_or_new x in
  let* _ := cwise f s in
  ret s.

(** Modelled from the spec: the methods [exp()], [log()], [sqrt()],
    [negative()], [round()] of [NdArray] apply in place on a copy of the
    array; the facade calls them on [NdArray.new(x)]. *)
Definition unary_method (f : elt → elt) (x : argument) : M NdArray :=
  let* a := NdArray_new x in
  let* s := clone a in
  let* _ := cwise f s in
  ret s.

(** ** Notions used in the statements *)

(** Every buffer of [h] is still there, unchanged, in [h']. *)
Definition preserves (h h' : heap) : Prop :=
  ∀ l : nat, (l < length h)%nat → h' !! l = h !! l.

(** A contiguous view on the buffer at location [l]. *)
Definition contiguous_at (l : nat) (s : list nat) : NdArray :=
  mkNdArray l s (row_major s) 0.

(** Joining two nested arrays of rank [rank] along the last axis: the
    innermost arrays are appended pairwise. *)
Fixpoint join_last (rank : nat) (m a : jsval) : jsval :=
  match rank with
  | O => JUndef
  | S rank' =>
      match m, a with
      | JArr lm, JArr la =>
          match rank' with
          | O => JArr (lm ++ la)
          | S _ => JArr (zip_with (join_last rank') lm la)
          end
      | _, _ => JUndef
      end
  end.

(** The inputs joined from left to right. *)
Definition join_all (rank : nat) (vs : list jsval) : jsval :=
  match vs with
  | [] => JUndef
  | m :: rest => foldl (join_last rank) m rest
  end.

(** The extent of the last axis. *)
Definition last_dim (v : jsval) : nat := default 0%nat (list.last (getShape v)).

(** Every dimension but the last is at least 1. *)
Fixpoint proper (s : list nat) : Prop :=
  match s with
  | [] => True
  | n :: s' =>
      match s' with
      | [] => True
      | _ :: _ => (0 < n)%nat ∧ proper s'
      end
  end.

(** Two inputs that [concatenate] joins: the same rank, from 1 to 3, and the
    same dimensions on every axis but the last. *)
Definition joinable (m a : jsval) : Prop :=
  ∃ (lead : list nat) (c1 c2 : nat),
    (length lead ≤ 2)%nat ∧
    getShape m = lead ++ [c1] ∧ getShape a = lead ++ [c2].

(** The shape that is read off a nested array that fits the shape [s]: the
    walk stops below a dimension of size 0. *)
Fixpoint trunc_shape (s : list nat) : list nat :=
  match s with
  | [] => []
  | n :: s' => n :: match n with
                    | O => []
                    | S _ => trunc_shape s'
                    end
  end.

(** An input of [concatenate] whose nested representation is regular: an
    [NdArray], a number, or a regular nested array. *)
Definition concat_input (x : array_like) : Prop :=
  match x with
  | ALit (JArr l) => regular (JArr l) = true
  | ALit JUndef => False
  | _ => True
  end.

(** The nested array that an input of [concatenate] is when the call
    starts. *)
Definition concat_val (h : heap) (held : heap_of jsval) (x : concat_arg) : jsval :=
  entry_val h held (to_entry h x).

(** An input of [concatenate] on objects whose nested representation is
    regular: an input by value as above, a flat array that the caller holds,
    or a regular array of arrays that the caller holds. *)
Definition concat_input_at (h : heap) (held : heap_of jsval) (x : concat_arg)
    : Prop :=
  match x with
  | CArg (Arg x) => concat_input x
  | CArg (Held l) => is_Some (h !! l)
  | CHeld p =>
      ∃ rows, held !! p = Some rows ∧ regular (JArr rows) = true ∧
              (2 ≤ length (getShape (JArr rows)))%nat
  end.

(** The invariant of a view: as many strides as dimensions. *)
Definition view_wf (a : NdArray) : Prop := length (stride a) = length (shape a).

(** An input of [stack] of shape [s]: a number ([s] empty), an [NdArray] of
    rank at least 1, or a regular nested array.  (A view of rank 0 is left
    out: its [tolist()] is not described.) *)
Definition stack_input (s : list nat) (x : array_like) : Prop :=
  match x with
  | ANd a => shape a = s ∧ s ≠ []
  | ALit (JNum _) => s = []
  | ALit v => regular v = true ∧ getShape v = s
  end.

(** The shape [stack] compares: that of the array made of the input, none
    for a number. *)
Definition stack_shape (x : array_like) : list nat :=
  match x with
  | ANd a => shape a
  | ALit (JNum _) => []
  | ALit v => getShape v
  end.

(** A multi-index within the bounds of a shape. *)
Definition in_bounds (idx s : list nat) : Prop := Forall2 lt idx s.

(** The shape of an argument seen as an array (what [NdArray.new] gives it). *)
Definition shape_as_array (x : array_like) : list nat :=
  match x with
  | ANd a => shape a
  | ALit (JNum _) => [1%nat]
  | ALit v => getShape v
  end.

(** An argument that [NdArray.new] accepts: an [NdArray] whose buffer is in
    the heap, a number, or a regular nested array. *)
Definition array_ok (h : heap) (x : array_like) : Prop :=
  match x with
  | ANd a => (data a < length h)%nat
  | ALit (JNum _) => True
  | ALit v => regular v = true
  end.

End Engine.

(** ** [ones], [identity] and further notions *)

Section Creation.

Context {elt : Type}.

#[local] Abbreviation heap := (heap_of elt) (only parsing).

(** What a read outside a buffer yields, and the numbers 0 and 1. *)
Variables (undef zero one : elt).

(** [ones(shape, dtype)]: the buffer [new T(s)] starts out blank and
    [ops.assigns(arr.selection, 1)] sets every element to 1. *)
Definition ones (shp : shape_arg) : M NdArray :=
  let shp' := match shp with
              | ShapeNumber n => [n]
              | ShapeArray s => s
              end in
  let s := shapeSize shp' in
  let* arr := alloc (replicate s undef) shp' in
  let* _ := cwise undef (λ _, one) arr in
  ret arr.

(** [idx] lies within the bounds of the shape [s]. *)
Fixpoint in_boundsb (idx s : list nat) : bool :=
  match idx, s with
  | [], [] => true
  | i :: idx', n :: s' => (i <? n)%nat && in_boundsb idx' s'
  | _, _ => false
  end.

(** Modelled from the spec: the method [set(i, j, ..., value)] takes as many
    coordinates as the view has axes, each within the bounds of its axis,
    else it is an error; it writes the element in place. *)
Definition NdArray_set (arr : NdArray) (idx : list nat) (x : elt) : M unit :=
  λ h, if in_boundsb idx (shape arr) then (Ok tt, set h arr idx x)
       else (Throw ValueError, h).

(** [for (let i = 0; i < n; i++) arr.set(i, i, 1)], with [count = n - i]
    iterations left. *)
Fixpoint identity_loop (arr : NdArray) (i count : nat) : M unit :=
  match count with
  | O => ret tt
  | S count' =>
      let* _ := NdArray_set arr [i; i] one in
      identity_loop arr (S i) count'
  end.

(** [identity(n, dtype)]. *)
Definition identity (n : nat) : M NdArray :=
  let* arr := zeros zero (ShapeArray [n; n]) in
  let* _ := identity_loop arr 0 n in
  ret arr.

(** All elements of a view, in traversal order. *)
Definition all_elements (h : heap) (a : NdArray) : list elt :=
  get undef h a <$> indices (shape a).

(** The multi-index [idx] with its coordinate on axis [i] mirrored within
    the shape [s]. *)
Fixpoint reverse_at (i : nat) (s idx : list nat) : list nat :=
  match s, idx with
  | n :: s', j :: idx' =>
      match i with
      | O => (n - 1 - j)%nat :: idx'
      | S i' => j :: reverse_at i' s' idx'
      end
  | _, _ => idx
  end.

(** The view of [a] with axis [i] reversed: that stride negated and the
    offset moved to the last element of the axis. *)
Definition flip_view (i : nat) (a : NdArray) : NdArray :=
  mkNdArray (data a) (shape a)
    (zip_with Z.mul (stride a) (<[i := -1]> (replicate (ndim a) 1)))
    (offset a
     + default 0 (stride a !! i) * (Z.of_nat (default 0%nat (shape a !! i)) - 1)).


End Creation.

(** ** Element-wise operations on numbers

    Elements are real numbers here: the arithmetic of the bodies is that of
    the reals, without the rounding, the infinities and the NaN of doubles. *)

Section RealOps.

#[local] Abbreviation heap := (heap_of R) (only parsing).

(** What a read outside a buffer yields. *)
Variable undef : R.

#[local] Open Scope R_scope.

(** [v || d] for an optional number. *)
Definition js_or_R (v : option R) (d : R) : R :=
  match v with
  | Some x => if Req_dec_T x 0 then d else x
  | None => d
  end.

(** The body of [doSigmoid]. *)
Definition sigmoidCwise (a t : R) : R :=
  if Rlt_dec a (-30) then 0
  else if Rgt_dec a 30 then 1
  else 1 / (1 + Rtrigo_def.exp (-1 * t * a)).

Definition sigmoid (x : argument) (t : option R) : M NdArray :=
  let* a := NdArray_new x in
  let* x := clone undef a in
  let t := js_or_R t 1 in
  let* _ := cwise undef (λ a, sigmoidCwise a t) x in
  ret x.

(** The formula of the specification for one element: [1/(1+exp(-t*x))],
    saturating to 0 and 1 where [|t*x| > 30]. *)
Definition sigmoid_spec (x t : R) : R :=
  if Rlt_dec (t * x) (-30) then 0
  else if Rgt_dec (t * x) 30 then 1
  else 1 / (1 + Rtrigo_def.exp (- (t * x))).

(** The body of [doClip]. *)
Definition clipCwise (a min max : R) : R := Rmin (Rmax min a) max.

(** [clip(x)], [clip(x, min)], [clip(x, min, max)]. *)
Inductive clip_args :=
| ClipNone
| ClipMin (min : R)
| ClipMinMax (min max : R).

Definition clip (x : argument) (args : clip_args) : M NdArray :=
  let '(min, max) := match args with
                     | ClipNone => (0, 1)
                     | ClipMin min => (min, 1)
                     | ClipMinMax min max => (min, max)
                     end in
  unary_in_place undef (λ a, clipCwise a min max) x.

(** The body of [doLeakyRelu]. *)
Definition leakyReluCwise (xi alpha : R) : R := Rmax (alpha * xi) xi.

Definition leakyRelu (x : argument) (alpha : option R) : M NdArray :=
  let alpha := js_or_R alpha (1 / 1000) in
  unary_in_place undef (λ xi, leakyReluCwise xi alpha) x.

(** The body of [doTanh]. *)
Definition tanhCwise (xi : R) : R :=
  (Rtrigo_def.exp (2 * xi) - 1) / (Rtrigo_def.exp (2 * xi) + 1).

Definition tanh (x : argument) : M NdArray :=
  unary_in_place undef tanhCwise x.

Definition abs (x : argument) : M NdArray :=
  unary_in_place undef Rabs x.

Definition cos (x : argument) : M NdArray :=
  unary_in_place undef Rtrigo_def.cos x.

Definition arccos (x : argument) : M NdArray :=
  unary_in_place undef Ratan.acos x.

Definition sin (x : argument) : M NdArray :=
  unary_in_place undef Rtrigo_def.sin x.

Definition arcsin (x : argument) : M NdArray :=
  unary_in_place undef Ratan.asin x.

Definition tan (x : argument) : M NdArray :=
  unary_in_place undef Rtrigo1.tan x.

Definition arctan (x : argument) : M NdArray :=
  unary_in_place undef Ratan.atan x.

Definition exp (x : argument) : M NdArray :=
  unary_method undef Rtrigo_def.exp x.

Definition log (x : argument) : M NdArray :=
  unary_method undef Rpower.ln x.

Definition sqrt (x : argument) : M NdArray :=
  unary_method undef R_sqrt.sqrt x.

Definition negative (x : argument) : M NdArray :=
  unary_method undef Ropp x.

(** [Math.round]: the integer below [x + 1/2]. *)
Definition round (x : argument) : M NdArray :=
  unary_method undef (λ a, IZR (up (a + / 2) - 1)) x.

(** The unary element-wise operations of the facade, with their extra
    arguments. *)
Inductive unary_op :=
| OpExp | OpLog | OpSqrt | OpSin | OpCos | OpTan
| OpArcsin | OpArccos | OpArctan | OpTanh
| OpNegative | OpAbs | OpRound
| OpSigmoid (t : option R)
| OpClip (args : clip_args)
| OpLeakyRelu (alpha : option R).

Definition unary_call (op : unary_op) (x : argument) : M NdArray :=
  match op with
  | OpExp => exp x
  | OpLog => log x
  | OpSqrt => sqrt x
  | OpSin => sin x
  | OpCos => cos x
  | OpTan => tan x
  | OpArcsin => arcsin x
  | OpArccos => arccos x
  | OpArctan => arctan x
  | OpTanh => tanh x
  | OpNegative => negative x
  | OpAbs => abs x
  | OpRound => round x
  | OpSigmoid t => sigmoid x t
  | OpClip args => clip x args
  | OpLeakyRelu alpha => leakyRelu x alpha
  end.

(** [op] maps [f] over arrays with elements in [dom]: on an argument that is
    an [NdArray] or given by value, and whose elements all lie in [dom], it
    returns a new array of the argument's shape whose element at each index
    is [f] of the argument's element at that index, and the buffers that
    were there are as they were. *)
Definition maps_elements (op : argument → M NdArray) (f : R → R)
    (dom : R → Prop) : Prop :=
  ∀ (x : array_like) (h : heap) (a : NdArray) (h1 : heap),
    NdArray_new x h = (Ok a, h1) →
    (∀ idx, in_bounds idx (shape a) → dom (get undef h1 a idx)) →
    ∃ r h', op x h = (Ok r, h') ∧
      shape r = shape a ∧ preserves h h' ∧
      ∀ idx, in_bounds idx (shape a) →
        get undef h' r idx = f (get undef h1 a idx).

(** Modelled from the spec: the method [sum()] accumulates all elements in
    traversal order. *)
Definition NdArray_sum (a : NdArray) : M R :=
  λ h, (Ok (foldl Rplus 0 (get undef h a <$> indices (shape a))), h).

(** [softmax(x)]: [e = NdArray.new(x).exp()], [se = e.sum()], and
    [ops.divseq(e.selection, se)] divides every element of [e] by [se], in
    place. *)
Definition softmax (x : argument) : M NdArray :=
  let* e := exp x in
  let* se := NdArray_sum e in
  let* _ := cwise undef (λ a, a / se) e in
  ret e.

End RealOps.

End nj.

(** * Part II: properties *)

Import nj.

(** ** broadcast *)

Section BroadcastFacts.

Lemma pair_dim_None r1 r2 :
  pair_dim r1 r2 = None ↔
  ∃ d1 d2, r1 = Some d1 ∧ r2 = Some d2 ∧
    d1 ≠ 0 ∧ d1 ≠ 1 ∧ d2 ≠ 0 ∧ d2 ≠ 1 ∧ d1 ≠ d2.
Proof.
  unfold pair_dim. split.
  - destruct r1 as [d1|], r2 as [d2|]; simpl;
      repeat case_match; try discriminate; intros _.
    exists d1, d2. repeat split; lia.
  - intros (d1 & d2 & -> & -> & ? & ? & ? & ? & ?). simpl.
    repeat case_match; try reflexivity; lia.
Qed.

Lemma broadcast_loop_inv n : ∀ i r1 r2 out,
  (i + n ≤ length out)%nat →
  match broadcast_loop n i r1 r2 out with
  | Some res =>
      length res = length out ∧
      (∀ j, (j < i ∨ i + n ≤ j)%nat → res !! j = out !! j) ∧
      (∀ j, (i ≤ j < i + n)%nat →
         ∃ v, pair_dim (r1 !! j) (r2 !! j) = Some v ∧ res !! j = Some v)
  | None => ∃ j, (i ≤ j < i + n)%nat ∧ pair_dim (r1 !! j) (r2 !! j) = None
  end.
Proof.
  induction n as [|n IH]; intros i r1 r2 out Hlen; simpl.
  - split; [done|]. split; intros j ?; [done|lia].
  - destruct (pair_dim (r1 !! i) (r2 !! i)) as [v|] eqn:Hv.
    + specialize (IH (S i) r1 r2 (<[i:=v]> out)).
      rewrite length_insert in IH. specialize (IH ltac:(lia)).
      destruct (broadcast_loop n (S i) r1 r2 (<[i:=v]> out)) as [res|].
      * destruct IH as (Hl & Hout & Hin). split; [done|]. split.
        -- intros j Hj. rewrite Hout by lia.
           apply list_lookup_insert_ne. lia.
        -- intros j Hj. destruct (decide (j = i)) as [->|Hne].
           ++ exists v. split; [done|]. rewrite Hout by lia.
              apply list_lookup_insert_eq. lia.
           ++ apply Hin. lia.
      * destruct IH as (j & Hj & Hnone). exists j. split; [lia|done].
    + exists i. split; [lia|done].
Qed.

Lemma broadcast_nonempty shape1 shape2 :
  shape1 ≠ [] → shape2 ≠ [] →
  broadcast shape1 shape2 =
  reverse <$> broadcast_loop (Nat.max (length shape1) (length shape2)) 0
                (reverse shape1) (reverse shape2)
                (replicate (Nat.max (length shape1) (length shape2)) None).
Proof. destruct shape1, shape2; done. Qed.

Lemma broadcast_Some shape1 shape2 out :
  broadcast shape1 shape2 = Some out →
  shape1 ≠ [] ∧ shape2 ≠ [] ∧
  length out = Nat.max (length shape1) (length shape2) ∧
  ∀ j, (j < Nat.max (length shape1) (length shape2))%nat →
    ∃ v, pair_dim (reverse shape1 !! j) (reverse shape2 !! j) = Some v ∧
         reverse out !! j = Some v.
Proof.
  intros H.
  destruct shape1 as [|a s1]; [done|]. destruct shape2 as [|b s2]; [done|].
  rewrite broadcast_nonempty in H by done.
  set (n := Nat.max (length (a :: s1)) (length (b :: s2))) in *.
  pose proof (broadcast_loop_inv n 0 (reverse (a :: s1)) (reverse (b :: s2))
                (replicate n None)) as Hinv.
  rewrite length_replicate in Hinv. specialize (Hinv ltac:(lia)).
  destruct (broadcast_loop n 0 _ _ _) as [res|]; [|done].
  simpl in H. injection H as <-.
  destruct Hinv as (Hl & _ & Hin).
  split; [done|]. split; [done|]. split.
  - rewrite length_reverse. lia.
  - intros j Hj. rewrite reverse_involutive. apply Hin. lia.
Qed.

Lemma broadcast_None shape1 shape2 :
  broadcast shape1 shape2 = None ↔
  shape1 = [] ∨ shape2 = [] ∨
  ∃ j, pair_dim (reverse shape1 !! j) (reverse shape2 !! j) = None ∧
       (j < Nat.max (length shape1) (length shape2))%nat.
Proof.
  split.
  - intros H.
    destruct shape1 as [|a s1]; [by left|].
    destruct shape2 as [|b s2]; [by right; left|].
    right; right. rewrite broadcast_nonempty in H by done.
    set (n := Nat.max (length (a :: s1)) (length (b :: s2))) in *.
    pose proof (broadcast_loop_inv n 0 (reverse (a :: s1)) (reverse (b :: s2))
                  (replicate n None)) as Hinv.
    rewrite length_replicate in Hinv. specialize (Hinv ltac:(lia)).
    destruct (broadcast_loop n 0 _ _ _) as [res|]; [done|].
    destruct Hinv as (j & Hj & Hnone). exists j. split; [done|lia].
  - intros [->|[->|(j & Hnone & Hj)]].
    + reflexivity.
    + unfold broadcast. by rewrite orb_true_r.
    + destruct (broadcast shape1 shape2) as [out|] eqn:Hb; [|done].
      apply broadcast_Some in Hb as (_ & _ & _ & Hin).
      destruct (Hin j Hj) as (v & Hv & _). congruence.
Qed.

Lemma absent_or_small_test d :
  absent_or_small d ↔ js_not d || is_one d = true.
Proof.
  unfold absent_or_small. destruct d as [d|]; simpl.
  - rewrite orb_true_iff, !Z.eqb_eq. split.
    + intros [?|[?|?]]; simplify_eq; auto.
    + intros [->| ->]; auto.
  - split; auto.
Qed.

(** C1, as stated, fails: the aligned pair (0, 5) is unequal with neither
    side missing or 1, so the rule of the specification gives no result, yet
    [broadcast([0], [5])] returns [[5]]. *)
Lemma broadcast_zero_dim_counterexample :
  spec_incompatible [0] [5] ∧
  broadcastShape_spec [0] [5] = None ∧
  broadcast [0] [5] = Some [Some 5].
Proof.
  split; [|split; reflexivity].
  exists 0%nat, 0, 5. repeat split; done.
Qed.

(** Where the first shape is longer and its leading dimension is 0 or 1, the
    loop copies the missing slot of the second shape: the result holds
    [undefined] there.  The amended statement below leaves this case out. *)
Lemma broadcast_leading_one_undefined :
  broadcast [1; 3] [3] = Some [None; Some 3] ∧
  broadcast [3] [1; 3] = Some [Some 1; Some 3].
Proof. split; reflexivity. Qed.

(** C1 (amended): [broadcast] fails exactly when a shape is empty or some
    aligned pair, counted from the trailing dimension, has both sides present,
    neither of them 0 or 1, and the two unequal.  When it succeeds the result
    has rank [max(rank1, rank2)], and an aligned position holds [d2] when [d2]
    is present and [d1] is missing, 0 or 1; it holds [d1] when [d1] is present
    and neither 0 nor 1 and [d2] is missing, 0 or 1; and it holds [d1], which
    then equals [d2], when both are present and neither is 0 or 1.  Nothing is
    stated for a position where [d1] is 0 or 1 and [d2] is missing.
    [broadcast([3,1],[1,4])] is [[3,4]] and [broadcast([2,3],[4])] fails. *)
Theorem broadcast_rule (shape1 shape2 : list Z) :
  (broadcast shape1 shape2 = None ↔
     shape1 = [] ∨ shape2 = [] ∨
     ∃ (j : nat) (d1 d2 : Z),
       reverse shape1 !! j = Some d1 ∧ reverse shape2 !! j = Some d2 ∧
       d1 ≠ 0 ∧ d1 ≠ 1 ∧ d2 ≠ 0 ∧ d2 ≠ 1 ∧ d1 ≠ d2) ∧
  (∀ out, broadcast shape1 shape2 = Some out →
     length out = Nat.max (length shape1) (length shape2) ∧
     ∀ (j : nat) (d1 d2 : option Z),
       (j < Nat.max (length shape1) (length shape2))%nat →
       reverse shape1 !! j = d1 → reverse shape2 !! j = d2 →
       (absent_or_small d1 → is_Some d2 → reverse out !! j = Some d2) ∧
       (¬ absent_or_small d1 → absent_or_small d2 → reverse out !! j = Some d1) ∧
       (¬ absent_or_small d1 → ¬ absent_or_small d2 →
          d1 = d2 ∧ reverse out !! j = Some d1)) ∧
  broadcast [3; 1] [1; 4] = Some [Some 3; Some 4] ∧
  broadcast [2; 3] [4] = None.
Proof.
  split; [|split; [|split; reflexivity]].
  - rewrite broadcast_None. split.
    + intros [?|[?|(j & Hn & _)]]; auto.
      apply pair_dim_None in Hn as (d1 & d2 & ?). right; right. by exists j, d1, d2.
    + intros [?|[?|(j & d1 & d2 & H1 & H2 & ?)]]; auto.
      right; right. exists j. split.
      * apply pair_dim_None. by exists d1, d2.
      * apply lookup_lt_Some in H1. rewrite length_reverse in H1. lia.
  - intros out Hb. apply broadcast_Some in Hb as (_ & _ & Hlen & Hin).
    split; [done|]. intros j d1 d2 Hj <- <-.
    destruct (Hin j Hj) as (v & Hv & ->). clear Hin.
    unfold pair_dim in Hv. rewrite !absent_or_small_test.
    destruct (js_not (reverse shape1 !! j) || is_one (reverse shape1 !! j)) eqn:E1.
    { injection Hv as <-. repeat split; done. }
    destruct (js_not (reverse shape2 !! j) || is_one (reverse shape2 !! j)) eqn:E2.
    { injection Hv as <-. repeat split; done. }
    destruct (strict_eq _ _) eqn:E3; [|done]. injection Hv as <-.
    split; [done|]. split; [done|]. intros _ _. split; [|done].
    destruct (reverse shape1 !! j), (reverse shape2 !! j); simpl in E3; try done.
    apply Z.eqb_eq in E3. by subst.
Qed.

Lemma broadcast_rule_witness :
  reverse <$> broadcast [7; 1; 5] [2; 5] = Some [Some 5; Some 2; Some 7].
Proof.
  destruct (broadcast_rule [7; 1; 5] [2; 5]) as (_ & Hout & _).
  destruct (broadcast [7; 1; 5] [2; 5]) as [out|] eqn:Hb; [|discriminate Hb].
  destruct (Hout out eq_refl) as (_ & _).
  vm_compute in Hb. injection Hb as <-. reflexivity.
Defined.

(** C9, as stated, fails: in [broadcast([1], [0])] the second side is 0 and
    the opposite operand's dimension is 1, but the result is [[0]]. *)
Lemma broadcast_one_zero_counterexample :
  broadcast [1] [0] = Some [Some 0] ∧ ¬ zero_gives_other_dim [1] [0] 0.
Proof.
  split; [reflexivity|].
  intros (out & Hb & _ & H2). vm_compute in Hb. injection Hb as <-.
  specialize (H2 eq_refl). vm_compute in H2. discriminate H2.
Qed.

(** C9 (amended): [broadcast] returns no result whenever either shape is
    empty.  An aligned pair with a 0 on one side never makes the call fail:
    the call succeeds as soon as every aligned pair has a 0 or a 1 on one
    side or two equal sides.  At such a pair the result holds [d2] when
    [d1 = 0]; when [d2 = 0] it holds [d1], except that for [d1 = 1] it holds
    [d2 = 0]. *)
Theorem broadcast_empty_and_zero :
  (∀ shape, broadcast [] shape = None ∧ broadcast shape [] = None) ∧
  (∀ shape1 shape2 out (j : nat) (d1 d2 : Z),
     broadcast shape1 shape2 = Some out →
     reverse shape1 !! j = Some d1 → reverse shape2 !! j = Some d2 →
     (d1 = 0 → reverse out !! j = Some (Some d2)) ∧
     (d2 = 0 → d1 ≠ 1 → reverse out !! j = Some (Some d1)) ∧
     (d2 = 0 → d1 = 1 → reverse out !! j = Some (Some 0))) ∧
  (∀ shape1 shape2,
     shape1 ≠ [] → shape2 ≠ [] →
     (∀ (j : nat) (d1 d2 : Z),
        reverse shape1 !! j = Some d1 → reverse shape2 !! j = Some d2 →
        d1 = 0 ∨ d2 = 0 ∨ d1 = 1 ∨ d2 = 1 ∨ d1 = d2) →
     is_Some (broadcast shape1 shape2)).
Proof.
  split; [|split].
  - intros shape. split; apply broadcast_None; auto.
  - intros shape1 shape2 out j d1 d2 Hb H1 H2.
    apply broadcast_Some in Hb as (_ & _ & _ & Hin).
    assert (Hj : (j < Nat.max (length shape1) (length shape2))%nat).
    { apply lookup_lt_Some in H1. rewrite length_reverse in H1. lia. }
    destruct (Hin j Hj) as (v & Hv & ->). rewrite H1, H2 in Hv.
    unfold pair_dim in Hv. simpl in Hv.
    destruct (Z.eqb_spec d1 0), (Z.eqb_spec d1 1), (Z.eqb_spec d2 0),
      (Z.eqb_spec d2 1), (Z.eqb_spec d1 d2); simpl in Hv; simplify_eq;
      repeat split; intros; subst; done.
  - intros shape1 shape2 Hn1 Hn2 Hall.
    destruct (broadcast shape1 shape2) as [out|] eqn:Hb; [by eexists|].
    apply broadcast_None in Hb as [?|[?|(j & Hnone & _)]]; try done.
    apply pair_dim_None in Hnone as (d1 & d2 & H1 & H2 & ?).
    specialize (Hall j d1 d2 H1 H2). lia.
Qed.

Lemma broadcast_empty_and_zero_witness :
  reverse <$> broadcast [0; 3] [4; 3] = Some [Some 3; Some 4] ∧
  is_Some (broadcast [0; 3] [4; 3]).
Proof.
  destruct broadcast_empty_and_zero as (_ & Hz & Hs). split.
  - destruct (broadcast [0; 3] [4; 3]) as [out|] eqn:Hb; [|discriminate Hb].
    destruct (Hz [0; 3] [4; 3] out 1%nat 0 4 Hb eq_refl eq_refl) as (H0 & _).
    vm_compute in Hb. injection Hb as <-. reflexivity.
  - apply Hs; [done|done|].
    intros [|[|j]] d1 d2 H1 H2; vm_compute in H1, H2; simplify_eq; auto.
Defined.

End BroadcastFacts.

(** ** Doubles that hold integers *)

Section DoubleFacts.

Implicit Types (a u z r : Z).

Lemma ulp_pos a : 0 < ulp a.
Proof. unfold ulp. apply Z.pow_pos_nonneg; lia. Qed.

Lemma ulp_small a : 0 ≤ a < 2 ^ 53 → ulp a = 1.
Proof.
  intros [H0 H]. unfold ulp.
  destruct (decide (a = 0)) as [->|Hne]; [done|].
  assert (Z.log2 a < 53) by (apply Z.log2_lt_pow2; lia).
  by rewrite Z.max_l by lia.
Qed.

(** In the binade of [a >= 2^53]: [2^52 * ulp a <= a < 2^53 * ulp a]. *)
Lemma ulp_large a :
  2 ^ 53 ≤ a →
  ∃ e, 1 ≤ e ∧ ulp a = 2 ^ e ∧ 2 ^ 52 * 2 ^ e ≤ a < 2 ^ 53 * 2 ^ e.
Proof.
  intros H. assert (53 ≤ Z.log2 a) by (apply Z.log2_le_pow2; lia).
  exists (Z.log2 a - 52). split; [lia|]. split.
  { unfold ulp. by rewrite Z.max_r by lia. }
  pose proof (Z.log2_spec a ltac:(lia)) as [Hlo Hhi].
  rewrite <- !Z.pow_add_r by lia.
  replace (52 + (Z.log2 a - 52)) with (Z.log2 a) by lia.
  replace (53 + (Z.log2 a - 52)) with (Z.succ (Z.log2 a)) by lia. done.
Qed.

Lemma round_even_bounds a u :
  0 < u →
  ∃ k, round_even a u = k * u ∧ (k = a / u ∨ (k = a / u + 1 ∧ 0 < a mod u)).
Proof.
  intros Hu. unfold round_even.
  pose proof (Z.mod_pos_bound a u Hu).
  destruct (Z.ltb_spec (2 * (a mod u)) u); [by eexists; split; [|left]|].
  destruct (Z.ltb_spec u (2 * (a mod u))).
  { eexists. split; [done|]. right. split; [done|lia]. }
  destruct (Z.even (a / u)); [by eexists; split; [|left]|].
  eexists. split; [done|]. right. split; [done|lia].
Qed.

Lemma round_even_exact a u : 0 < u → a mod u = 0 → round_even a u = a.
Proof.
  intros Hu Hr. unfold round_even. rewrite Hr.
  destruct (Z.ltb_spec (2 * 0) u); [|lia].
  rewrite Z.mul_comm. symmetry. by apply Z.div_exact; [lia|].
Qed.

(** A multiple of a power of two with a significand of at most 53 digits
    is a double. *)
Lemma ulp_divides (m k : Z) :
  0 ≤ m ≤ 2 ^ 53 → 0 ≤ k → (m * 2 ^ k) mod ulp (m * 2 ^ k) = 0.
Proof.
  intros Hm Hk. set (b := m * 2 ^ k).
  assert (Hpk : 0 < 2 ^ k) by (apply Z.pow_pos_nonneg; lia).
  destruct (Z.lt_ge_cases b (2 ^ 53)) as [Hsmall|Hlarge].
  { rewrite ulp_small by (unfold b; split; [nia|done]). apply Z.mod_1_r. }
  destruct (ulp_large b Hlarge) as (e & He & -> & Hlo & Hhi).
  assert (Hek : e ≤ k + 1).
  { destruct (Z.le_gt_cases e (k + 1)) as [|Hgt]; [done|].
    assert (2 ^ (k + 2) ≤ 2 ^ e) by (apply Z.pow_le_mono_r; lia).
    rewrite Z.pow_add_r in H by lia. change (2 ^ 2) with 4 in H.
    assert (b ≤ 2 ^ 53 * 2 ^ k) by (unfold b; nia).
    change (2 ^ 53) with (2 * 2 ^ 52) in H0. nia. }
  destruct (decide (e = k + 1)) as [->|Hne].
  - (* then m = 2^53 *)
    rewrite Z.pow_add_r in Hlo, Hhi |- * by lia. change (2 ^ 1) with 2 in *.
    assert (m = 2 ^ 53).
    { change (2 ^ 53) with (2 * 2 ^ 52) in *. unfold b in Hlo. nia. }
    subst m. unfold b. change (2 ^ 53) with (2 ^ 52 * 2).
    replace (2 ^ 52 * 2 * 2 ^ k) with (2 ^ 52 * (2 ^ k * 2)) by lia.
    apply Z.mod_mul. lia.
  - unfold b.
    assert (2 ^ k = 2 ^ (k - e) * 2 ^ e) as ->.
    { rewrite <- Z.pow_add_r by lia. f_equal. lia. }
    rewrite Z.mul_assoc. apply Z.mod_mul.
    assert (0 < 2 ^ e) by (apply Z.pow_pos_nonneg; lia). lia.
Qed.

(** Rounding a number that is not negative. *)
Lemma round_nonneg a : 0 ≤ a → 0 ≤ round_even a (ulp a).
Proof.
  intros Ha. pose proof (ulp_pos a) as Hu.
  destruct (round_even_bounds a (ulp a) Hu) as (k & -> & Hk).
  assert (0 ≤ a / ulp a) by (apply Z.div_pos; lia).
  nia.
Qed.

Lemma round_small a : 0 ≤ a ≤ 2 ^ 53 → round_even a (ulp a) = a.
Proof.
  intros Ha. apply round_even_exact; [apply ulp_pos|].
  replace a with (a * 2 ^ 0) by lia. apply ulp_divides; lia.
Qed.

Lemma round_form a :
  0 ≤ a → ∃ m k, round_even a (ulp a) = m * 2 ^ k ∧ 0 ≤ m ≤ 2 ^ 53 ∧ 0 ≤ k.
Proof.
  intros Ha.
  destruct (Z.lt_ge_cases a (2 ^ 53)) as [Hsmall|Hlarge].
  { exists a, 0. rewrite round_small by lia. lia. }
  destruct (ulp_large a Hlarge) as (e & He & Hu & Hlo & Hhi).
  assert (Hp : 0 < 2 ^ e) by (apply Z.pow_pos_nonneg; lia).
  destruct (round_even_bounds a (ulp a) (ulp_pos a)) as (q & -> & Hq).
  rewrite Hu in *. exists q, e. split; [done|]. split; [|lia].
  assert (2 ^ 52 ≤ a / 2 ^ e) by (apply Z.div_le_lower_bound; lia).
  assert (a / 2 ^ e < 2 ^ 53) by (apply Z.div_lt_upper_bound; lia).
  lia.
Qed.

Lemma round_idem a :
  0 ≤ a → let b := round_even a (ulp a) in round_even b (ulp b) = b.
Proof.
  intros Ha b. destruct (round_form a Ha) as (m & k & Hb & Hm & Hk).
  unfold b. rewrite Hb. apply round_even_exact; [apply ulp_pos|].
  by apply ulp_divides.
Qed.

(** A double [r] below [z] is not above the rounded [z], and a double above
    [z] is not below it. *)
Lemma round_above r z :
  0 ≤ r ≤ z → round_even r (ulp r) = r → r ≤ round_even z (ulp z).
Proof.
  intros [Hr Hrz] Hfix.
  destruct (Z.lt_ge_cases z (2 ^ 53)) as [Hsmall|Hlarge].
  { rewrite round_small by lia. done. }
  destruct (ulp_large z Hlarge) as (e & He & Hu & Hlo & Hhi).
  assert (Hp : 0 < 2 ^ e) by (apply Z.pow_pos_nonneg; lia).
  destruct (round_even_bounds z (ulp z) (ulp_pos z)) as (q & -> & Hq).
  rewrite Hu in *.
  assert (Hq52 : 2 ^ 52 ≤ z / 2 ^ e) by (apply Z.div_le_lower_bound; lia).
  destruct (Z.lt_ge_cases r (2 ^ 52 * 2 ^ e)) as [Hlow|Hsame]; [nia|].
  (* same binade *)
  assert (Hur : ulp r = 2 ^ e).
  { assert (2 ^ 53 ≤ r).
    { change (2 ^ 53) with (2 ^ 52 * 2 ^ 1).
      assert (2 ^ 1 ≤ 2 ^ e) by (apply Z.pow_le_mono_r; lia). nia. }
    destruct (ulp_large r H) as (e' & He' & Hu' & Hlo' & Hhi').
    rewrite Hu'. f_equal.
    destruct (Z.lt_trichotomy e' e) as [Hlt|[->|Hgt]]; [|done|].
    - assert (2 ^ (e' + 1) ≤ 2 ^ e) by (apply Z.pow_le_mono_r; lia).
      rewrite Z.pow_add_r in H0 by lia. change (2 ^ 1) with 2 in H0.
      change (2 ^ 53) with (2 * 2 ^ 52) in Hhi'. nia.
    - assert (2 ^ (e + 1) ≤ 2 ^ e') by (apply Z.pow_le_mono_r; lia).
      rewrite Z.pow_add_r in H0 by lia. change (2 ^ 1) with 2 in H0.
      change (2 ^ 53) with (2 * 2 ^ 52) in Hhi. nia. }
  destruct (round_even_bounds r (ulp r) (ulp_pos r)) as (k & Hk & _).
  rewrite Hfix, Hur in Hk.
  assert (k ≤ z / 2 ^ e).
  { apply Z.div_le_lower_bound; [done|]. lia. }
  nia.
Qed.

Lemma round_below r z :
  0 ≤ z ≤ r → round_even r (ulp r) = r → round_even z (ulp z) ≤ r.
Proof.
  intros [Hz Hzr] Hfix.
  destruct (Z.lt_ge_cases z (2 ^ 53)) as [Hsmall|Hlarge].
  { rewrite round_small by lia. done. }
  destruct (ulp_large z Hlarge) as (e & He & Hu & Hlo & Hhi).
  assert (Hp : 0 < 2 ^ e) by (apply Z.pow_pos_nonneg; lia).
  destruct (round_even_bounds z (ulp z) (ulp_pos z)) as (q & -> & Hq).
  rewrite Hu in *.
  assert (Hq53 : z / 2 ^ e < 2 ^ 53) by (apply Z.div_lt_upper_bound; lia).
  destruct (Z.lt_ge_cases r (2 ^ 53 * 2 ^ e)) as [Hsame|Hhigh]; [|nia].
  assert (Hur : ulp r = 2 ^ e).
  { destruct (ulp_large r ltac:(lia)) as (e' & He' & Hu' & Hlo' & Hhi').
    rewrite Hu'. f_equal.
    destruct (Z.lt_trichotomy e' e) as [Hlt|[->|Hgt]]; [|done|].
    - assert (2 ^ (e' + 1) ≤ 2 ^ e) by (apply Z.pow_le_mono_r; lia).
      rewrite Z.pow_add_r in H by lia. change (2 ^ 1) with 2 in H.
      change (2 ^ 53) with (2 * 2 ^ 52) in Hhi'. nia.
    - assert (2 ^ (e + 1) ≤ 2 ^ e') by (apply Z.pow_le_mono_r; lia).
      rewrite Z.pow_add_r in H by lia. change (2 ^ 1) with 2 in H.
      change (2 ^ 53) with (2 * 2 ^ 52) in Hsame. nia. }
  destruct (round_even_bounds r (ulp r) (ulp_pos r)) as (k & Hk & _).
  rewrite Hfix, Hur in Hk.
  pose proof (Z.div_mod z (2 ^ e) ltac:(lia)) as Hdm.
  pose proof (Z.mod_pos_bound z (2 ^ e) Hp) as Hmb.
  destruct Hq as [->|[-> Hpos]]; [nia|].
  assert (z / 2 ^ e < k); [|nia].
  apply Z.div_lt_upper_bound; [done|].
  assert (z ≠ k * 2 ^ e); [|lia].
  intros Heq. rewrite Heq, Z.mod_mul in Hpos by lia. lia.
Qed.

(** The same for integers of either sign. *)
Lemma to_double_opp z : to_double (- z) = - to_double z.
Proof. unfold to_double. rewrite Z.sgn_opp, Z.abs_opp. lia. Qed.

Lemma to_double_exact z : Z.abs z ≤ max_exact → to_double z = z.
Proof.
  intros Hz. unfold to_double, max_exact in *. rewrite round_small by lia.
  rewrite Z.mul_comm. apply Z.abs_sgn.
Qed.

Lemma to_double_nonneg z : 0 ≤ z → to_double z = round_even z (ulp z).
Proof.
  intros Hz. unfold to_double. rewrite Z.abs_eq by done.
  destruct (decide (z = 0)) as [->|Hne]; [done|].
  rewrite Z.sgn_pos by lia. lia.
Qed.

Lemma to_double_idem z : to_double (to_double z) = to_double z.
Proof.
  assert (Hnn : ∀ a, 0 ≤ a → to_double (to_double a) = to_double a).
  { intros a Ha. rewrite (to_double_nonneg a Ha).
    rewrite to_double_nonneg by (by apply round_nonneg).
    by apply round_idem. }
  destruct (Z.le_gt_cases 0 z) as [Hz|Hz]; [by apply Hnn|].
  assert (Hza : z = - (- z)) by lia. set (a := - z) in *.
  assert (Ha : 0 ≤ a) by lia. clearbody a. subst z.
  by rewrite (to_double_opp a), (to_double_opp (to_double a)), Hnn.
Qed.

Lemma to_double_above r z : to_double r = r → r ≤ z → r ≤ to_double z.
Proof.
  intros Hfix Hrz.
  destruct (Z.le_gt_cases 0 z) as [Hz|Hz].
  - rewrite (to_double_nonneg z Hz).
    destruct (Z.le_gt_cases 0 r) as [Hr|Hr].
    + apply round_above; [done|]. by rewrite <- to_double_nonneg.
    + pose proof (round_nonneg z Hz). lia.
  - assert (Hza : z = - (- z)) by lia. set (a := - z) in *.
    assert (Ha : 0 < a) by lia. clearbody a. subst z.
    rewrite (to_double_opp a), (to_double_nonneg a) by lia.
    assert (round_even a (ulp a) ≤ - r); [|lia].
    apply round_below; [lia|].
    rewrite <- to_double_nonneg by lia. rewrite (to_double_opp r). lia.
Qed.

Lemma to_double_below r z : to_double r = r → z ≤ r → to_double z ≤ r.
Proof.
  intros Hfix Hzr.
  assert (- r ≤ to_double (- z)); [|rewrite (to_double_opp z) in H; lia].
  apply to_double_above; [|lia]. rewrite (to_double_opp r). lia.
Qed.

End DoubleFacts.

(** ** [arange] *)

Section ArangeFacts.

Lemma arange_len_spec start stop step k :
  1 ≤ step → 0 ≤ k →
  start + k * step < stop ↔ k < arange_len start stop step.
Proof.
  intros Hstep Hk. unfold arange_len.
  set (q := (stop - start + step - 1) / step).
  assert (Hq : step * q ≤ stop - start + step - 1 < step * (q + 1)).
  { pose proof (Z.mul_div_le (stop - start + step - 1) step ltac:(lia)).
    pose proof (Z.mul_succ_div_gt (stop - start + step - 1) step ltac:(lia)).
    fold q in H, H0. lia. }
  split; intros H.
  - assert (k < q) by nia. lia.
  - assert (k < q) by lia. nia.
Qed.

Lemma arange_len_step start stop step :
  1 ≤ step → start < stop →
  arange_len start stop step = 1 + arange_len (start + step) stop step.
Proof.
  intros Hstep Hlt. unfold arange_len.
  replace (stop - start + step - 1) with ((stop - (start + step) + step - 1) + 1 * step) by lia.
  rewrite Z.div_add by lia.
  assert (0 ≤ (stop - (start + step) + step - 1) / step).
  { apply Z.div_pos; lia. }
  lia.
Qed.

Lemma arange_len_done start stop step :
  1 ≤ step → stop ≤ start → arange_len start stop step = 0.
Proof.
  intros Hstep Hle. unfold arange_len.
  assert ((stop - start + step - 1) / step ≤ 0); [|lia].
  assert ((stop - start + step - 1) / step < 1); [|lia].
  apply Z.div_lt_upper_bound; lia.
Qed.

(** Within the integers that a double holds exactly, the loop counts
    without rounding; the sum that ends it may be rounded, but not below
    [stop]. *)
Lemma arange_loop_terminates step stop :
  1 ≤ step → Z.abs stop ≤ max_exact →
  ∀ fuel start result,
    - max_exact ≤ start →
    (Z.to_nat (stop - start) < fuel)%nat →
    arange_loop fuel start stop step result =
    Some (result ++ ((λ k, start + k * step) <$> seqZ 0 (arange_len start stop step))).
Proof.
  intros Hstep Hstop. induction fuel as [|fuel IH]; intros start result Hlo Hfuel; [lia|].
  simpl. destruct (Z.ltb_spec start stop) as [Hlt|Hge].
  - rewrite (arange_len_step start stop step) by done.
    assert (0 ≤ arange_len (start + step) stop step) by (unfold arange_len; lia).
    rewrite (seqZ_cons 0 (1 + _)) by lia. simpl.
    replace (Z.pred (1 + arange_len (start + step) stop step))
      with (arange_len (start + step) stop step) by lia.
    replace (start + 0 * step) with start by lia.
    destruct (Z.lt_ge_cases (start + step) stop) as [Hin|Hout].
    + unfold double_add. rewrite to_double_exact by lia.
      rewrite IH by lia. f_equal. rewrite <- app_assoc. f_equal. simpl. f_equal.
      replace (Z.succ 0) with (1 + 0) by lia.
      rewrite <- (fmap_add_seqZ 1 0), <- list_fmap_compose.
      apply list_fmap_ext. intros _ k _. simpl. lia.
    + rewrite arange_len_done by done. simpl.
      assert (Hend : stop ≤ double_add start step).
      { apply to_double_above; [|done]. by apply to_double_exact. }
      destruct fuel as [|fuel]; [lia|]. simpl.
      destruct (Z.ltb_spec (double_add start step) stop); [lia|done].
  - rewrite arange_len_done by done. simpl. by rewrite app_nil_r.
Qed.

(** A step that is not positive never brings a double [start] up to
    [stop]. *)
Lemma arange_loop_diverges step stop :
  step ≤ 0 →
  ∀ fuel start result, to_double start = start → start < stop →
    arange_loop fuel start stop step result = None.
Proof.
  intros Hstep. induction fuel as [|fuel IH]; intros start result Hd Hlt; [done|].
  simpl. destruct (Z.ltb_spec start stop); [|lia]. apply IH.
  - apply to_double_idem.
  - assert (double_add start step ≤ start); [|lia].
    apply to_double_below; [done|lia].
Qed.

(** An addition that leaves [start] as it is repeats for ever. *)
Lemma arange_loop_stalls start stop step :
  start < stop → double_add start step = start →
  ∀ fuel result, arange_loop fuel start stop step result = None.
Proof.
  intros Hlt Hsame. induction fuel as [|fuel IH]; intros result; [done|].
  simpl. destruct (Z.ltb_spec start stop); [|lia]. rewrite Hsame. apply IH.
Qed.

Lemma arange_loop_fuel step stop :
  1 ≤ step →
  ∀ fuel start result, to_double start = start →
    (Z.to_nat (stop - start) < fuel)%nat →
    arange_loop fuel start stop step result = None →
    ∀ fuel' result', arange_loop fuel' start stop step result' = None.
Proof.
  intros Hstep. induction fuel as [|fuel IH]; intros start result Hd Hfuel Hnone; [lia|].
  simpl in Hnone. destruct (Z.ltb_spec start stop) as [Hlt|Hge]; [|done].
  assert (Hup : start ≤ double_add start step).
  { apply to_double_above; [done|lia]. }
  destruct (decide (double_add start step = start)) as [Hsame|Hmove].
  { by apply arange_loop_stalls. }
  intros [|fuel'] result'; [done|]. simpl.
  destruct (Z.ltb_spec start stop); [|lia].
  apply (IH _ (result ++ [start])); [apply to_double_idem|lia|done].
Qed.

(** The fuel given by [arange_run] runs out only when the loop never ends. *)
Lemma arange_loop_diverges_iff start stop step :
  to_double start = start →
  arange_run start stop step = Diverge ↔
  ∀ fuel, arange_loop fuel start stop step [] = None.
Proof.
  intros Hd. unfold arange_run. split.
  - intros H fuel.
    destruct (arange_loop (S (Z.to_nat (stop - start))) start stop step [])
      as [res|] eqn:Hrun; [done|].
    destruct (Z.le_gt_cases 1 step) as [Hpos|Hneg].
    { eapply (arange_loop_fuel step stop Hpos _ start [] Hd); [|exact Hrun]. lia. }
    destruct (Z.lt_ge_cases start stop) as [Hlt|Hge].
    { apply arange_loop_diverges; [lia|done|done]. }
    simpl in Hrun. destruct (Z.ltb_spec start stop); [lia|done].
  - intros H. by rewrite H.
Qed.

(** C10 (amended): for integers [start] and [stop] of magnitude at most
    [2^53] and every integer [step >= 1] the loop of [arange] terminates and
    yields exactly the values [start + k * step], [k = 0, 1, ...], that are
    below [stop], in increasing order; the result is empty when
    [start >= stop]; [arange(n)] is [arange(0, n, 1)]; with [step <= 0],
    [start < stop] and [start] of magnitude at most [2^53] the loop never
    ends.  No [dtype] is given. *)
Theorem arange_positive_step (start stop step : Z) :
  1 ≤ step → Z.abs start ≤ max_exact → Z.abs stop ≤ max_exact →
  ∃ len : Z,
    0 ≤ len ∧
    (∀ k, 0 ≤ k → start + k * step < stop ↔ k < len) ∧
    (∀ fuel, (Z.to_nat (stop - start) < fuel)%nat →
       arange_loop fuel start stop step [] =
       Some ((λ k, start + k * step) <$> seqZ 0 len)) ∧
    arange (ArangeStartStopStep start stop step) =
      Ok ((λ k, start + k * step) <$> seqZ 0 len, None) ∧
    (stop ≤ start → arange (ArangeStartStopStep start stop step) = Ok ([], None)) ∧
    (∀ n, arange (ArangeStop n) = arange (ArangeStartStopStep 0 n 1)) ∧
    (∀ start' stop' step', step' ≤ 0 → start' < stop' →
       Z.abs start' ≤ max_exact →
       (∀ fuel, arange_loop fuel start' stop' step' [] = None) ∧
       arange (ArangeStartStopStep start' stop' step') = Diverge).
Proof.
  intros Hstep Hstart Hstop. exists (arange_len start stop step).
  assert (Hrun : arange (ArangeStartStopStep start stop step) =
    Ok ((λ k, start + k * step) <$> seqZ 0 (arange_len start stop step), None)).
  { unfold arange, arange_run. simpl arange_dispatch. cbv iota beta.
    rewrite arange_loop_terminates by (done || lia). done. }
  split; [unfold arange_len; lia|].
  split; [intros k Hk; by apply arange_len_spec|].
  split; [intros fuel Hfuel; by rewrite arange_loop_terminates by (done || lia)|].
  split; [done|].
  split; [intros Hle; rewrite Hrun, arange_len_done by done; done|].
  split; [done|].
  intros start' stop' step' Hs Hlt Hstart'.
  assert (Hd : to_double start' = start') by (by apply to_double_exact).
  assert (Hdiv : ∀ fuel, arange_loop fuel start' stop' step' [] = None).
  { intros fuel. by apply arange_loop_diverges. }
  split; [done|].
  unfold arange. simpl arange_dispatch. cbv iota beta.
  apply arange_loop_diverges_iff in Hdiv; [|done]. by rewrite Hdiv.
Qed.

Lemma arange_positive_step_witness :
  ∃ len : Z, 0 ≤ len ∧
    (∀ k, 0 ≤ k → 2 + k * 3 < 11 ↔ k < len) ∧
    arange (ArangeStartStopStep 2 11 3) = Ok ((λ k, 2 + k * 3) <$> seqZ 0 len, None).
Proof.
  destruct (arange_positive_step 2 11 3)
    as (len & H0 & Hk & _ & Hrun & _).
  - lia.
  - by vm_compute.
  - by vm_compute.
  - exists len. repeat split; try done; by apply Hk.
Defined.

(** C10, as stated, fails: [2^53] and [2^53 + 2] are integers and the step
    is 1, yet [arange(2^53, 2^53 + 2)] never returns: the sum
    [2^53 + 1] is rounded to the double [2^53], so [start] stays where it
    is, below [stop]. *)
Lemma arange_beyond_exact_counterexample :
  max_exact = 9007199254740992 ∧
  max_exact < max_exact + 2 ∧
  double_add max_exact 1 = max_exact ∧
  (∀ fuel, arange_loop fuel max_exact (max_exact + 2) 1 [] = None) ∧
  arange (ArangeStartStopStep max_exact (max_exact + 2) 1) = Diverge.
Proof.
  assert (H : double_add max_exact 1 = max_exact) by (by vm_compute).
  split; [done|]. split; [lia|]. split; [done|]. split.
  - intros fuel. apply arange_loop_stalls; [lia|done].
  - by vm_compute.
Qed.

End ArangeFacts.

(** ** The array engine *)

Section EngineFacts.

Context {elt : Type} (undef zero : elt).

#[local] Abbreviation heap := (heap_of elt) (only parsing).

Implicit Types (h : heap) (a : NdArray) (s : list nat) (idx : list nat).

Lemma preserves_refl h : preserves h h.
Proof. by intros l _. Qed.

Lemma preserves_trans h1 h2 h3 :
  (length h1 ≤ length h2)%nat →
  preserves h1 h2 → preserves h2 h3 → preserves h1 h3.
Proof. intros Hl H12 H23 l Hlt. rewrite H23 by lia. by apply H12. Qed.

Lemma preserves_alloc h (buf : list elt) : preserves h (h ++ [buf]).
Proof. intros l Hl. by apply lookup_app_l. Qed.

Lemma length_write h l p (x : elt) : length (write h l p x) = length h.
Proof. unfold write. case_match; [done|]. apply length_alter. Qed.

Lemma lookup_write_ne h l l' p (x : elt) :
  l ≠ l' → write h l p x !! l' = h !! l'.
Proof. intros Hne. unfold write. case_match; [done|]. by apply list_lookup_alter_ne. Qed.

Lemma length_foldl_set {B} h a (g : heap → B → elt) (pos : B → list nat) (l : list B) :
  length (foldl (λ h' b, set h' a (pos b) (g h' b)) h l) = length h.
Proof.
  revert h. induction l as [|b l IH]; intros h; simpl; [done|].
  rewrite IH. apply length_write.
Qed.

Lemma lookup_foldl_set_ne {B} h a (g : heap → B → elt) (pos : B → list nat)
    (l : list B) (l' : nat) :
  data a ≠ l' →
  foldl (λ h' b, set h' a (pos b) (g h' b)) h l !! l' = h !! l'.
Proof.
  intros Hne. revert h. induction l as [|b l IH]; intros h; simpl; [done|].
  rewrite IH. by apply lookup_write_ne.
Qed.

(** Writing through a view whose buffer is not among those of [h0] keeps
    [h0]. *)
Lemma preserves_foldl_set {B} h0 h a (g : heap → B → elt) (pos : B → list nat)
    (l : list B) :
  (length h0 ≤ data a)%nat → preserves h0 h →
  preserves h0 (foldl (λ h' b, set h' a (pos b) (g h' b)) h l).
Proof.
  intros Hfresh Hp l' Hl'. rewrite lookup_foldl_set_ne by lia. by apply Hp.
Qed.

(** *** Row-major traversal *)

Lemma lookup_flat_map_uniform {A B} (f : A → list B) (m : nat) (l : list A) :
  (∀ x, length (f x) = m) →
  ∀ (p : nat) (y : B), flat_map f l !! p = Some y →
  ∃ (i q : nat) (x : A),
    p = (i * m + q)%nat ∧ (q < m)%nat ∧ l !! i = Some x ∧ f x !! q = Some y.
Proof.
  intros Hm. induction l as [|x l IH]; intros p y Hp; simpl in Hp; [done|].
  destruct (decide (p < m)%nat) as [Hlt|Hge].
  - rewrite lookup_app_l in Hp by (by rewrite Hm).
    exists 0%nat, p, x. repeat split; done || lia.
  - rewrite lookup_app_r in Hp by (rewrite Hm; lia). rewrite Hm in Hp.
    destruct (IH _ _ Hp) as (i & q & x' & Hpq & Hq & Hi & Hy).
    exists (S i), q, x'. repeat split; try done. simpl. lia.
Qed.

Lemma length_flat_map_uniform {A B} (f : A → list B) (m : nat) (l : list A) :
  (∀ x, length (f x) = m) → length (flat_map f l) = (length l * m)%nat.
Proof.
  intros Hm. induction l as [|x l IH]; simpl; [done|].
  rewrite length_app, Hm, IH. lia.
Qed.

Lemma length_indices s : length (indices s) = shapeSize s.
Proof.
  induction s as [|n s IH]; simpl; [done|].
  rewrite (length_flat_map_uniform _ (shapeSize s)).
  - by rewrite length_seq.
  - intros i. by rewrite length_fmap.
Qed.

(** The position of a multi-index in the traversal is its offset in a
    contiguous row-major buffer. *)
Lemma indices_ravel s : ∀ (p : nat) idx,
  indices s !! p = Some idx →
  dot_index idx (row_major s) = Z.of_nat p.
Proof.
  induction s as [|n s IH]; intros p idx Hp; simpl in Hp.
  - destruct p; simplify_eq/=. done.
  - apply (lookup_flat_map_uniform _ (shapeSize s)) in Hp
      as (i & q & x & -> & Hq & Hi & Hx).
    2:{ intros i. by rewrite length_fmap, length_indices. }
    apply lookup_seq in Hi as [-> _]. simpl in *.
    rewrite list_lookup_fmap in Hx.
    destruct (indices s !! q) as [r|] eqn:Hr; simplify_eq/=.
    rewrite (IH _ _ Hr). lia.
Qed.

Lemma indices_in_bounds s : ∀ idx, idx ∈ indices s ↔ in_bounds idx s.
Proof.
  unfold in_bounds.
  induction s as [|n s IH]; intros idx; simpl.
  - rewrite list_elem_of_singleton. split; [intros ->; constructor|].
    by intros ->%Forall2_nil_inv_r.
  - rewrite list_elem_of_In, in_flat_map. split.
    + intros (i & Hi & Hidx). apply in_seq in Hi.
      apply list_elem_of_In, list_elem_of_fmap in Hidx as (r & -> & Hr).
      constructor; [lia|]. by apply IH.
    + intros H. apply Forall2_cons_inv_r in H as (i & r & Hi & Hr & ->).
      exists i. split; [apply in_seq; lia|].
      apply list_elem_of_In, list_elem_of_fmap. exists r. split; [done|]. by apply IH.
Qed.

(** *** [clone] and [cwise] *)

Lemma alter_insert_same {A} (g : A → A) (l : list A) (i : nat) (y : A) :
  alter g i (<[i := y]> l) = <[i := g y]> l.
Proof. by rewrite !list_insert_alter, list_alter_alter_eq. Qed.

Lemma clone_eq a h :
  clone undef a h =
  (Ok (mkNdArray (length h) (shape a) (row_major (shape a)) 0),
   h ++ [get undef h a <$> indices (shape a)]).
Proof. reflexivity. Qed.

Lemma cwise_contiguous (f : elt → elt) h l s (buf : list elt) :
  h !! l = Some buf → length buf = shapeSize s →
  cwise undef f (contiguous_at l s) h = (Ok tt, <[l := f <$> buf]> h).
Proof.
  intros Hl Hlen. unfold cwise. f_equal. simpl shape.
  assert (Hgen : ∀ k, (k ≤ length (indices s))%nat →
    foldl (λ h' idx, set h' (contiguous_at l s) idx
                       (f (get undef h' (contiguous_at l s) idx)))
      h (take k (indices s))
    = <[l := (f <$> take k buf) ++ drop k buf]> h).
  { induction k as [|k IH]; intros Hk.
    - simpl. rewrite drop_0. symmetry. by apply list_insert_id.
    - destruct (lookup_lt_is_Some_2 (indices s) k ltac:(lia)) as [idx Hidx].
      rewrite (take_S_r _ _ _ Hidx), foldl_app, IH by lia. simpl.
      pose proof (indices_ravel _ _ _ Hidx) as Hpos.
      assert (Hkb : (k < length buf)%nat) by (rewrite Hlen, <- length_indices; lia).
      destruct (lookup_lt_is_Some_2 buf k Hkb) as [b Hb].
      assert (Hll : (l < length h)%nat) by (by apply lookup_lt_Some in Hl).
      unfold set, get, position. simpl. rewrite Hpos, Z.add_0_l.
      unfold read, write. destruct (Z.ltb_spec (Z.of_nat k) 0); [lia|].
      rewrite Nat2Z.id, list_lookup_insert_eq by done. simpl.
      rewrite lookup_app_r by (rewrite length_fmap, length_take; lia).
      rewrite length_fmap, length_take, Nat.min_l, Nat.sub_diag by lia.
      rewrite lookup_drop, Nat.add_0_r, Hb. simpl.
      rewrite alter_insert_same. f_equal.
      rewrite (take_S_r _ _ _ Hb), fmap_app. simpl.
      rewrite insert_app_r_alt by (rewrite length_fmap, length_take; lia).
      rewrite length_fmap, length_take, Nat.min_l, Nat.sub_diag by lia.
      rewrite <- app_assoc. f_equal.
      rewrite (drop_S _ _ _ Hb). done. }
  specialize (Hgen (length (indices s)) ltac:(lia)).
  rewrite firstn_all in Hgen. rewrite Hgen.
  rewrite take_ge, drop_ge, app_nil_r by (rewrite length_indices; lia). done.
Qed.

(** An element of a contiguous view. *)
Lemma get_contiguous h l s (buf : list elt) (p : nat) idx :
  h !! l = Some buf → indices s !! p = Some idx →
  get undef h (contiguous_at l s) idx = default undef (buf !! p).
Proof.
  intros Hl Hidx. unfold get, position, read. simpl.
  rewrite (indices_ravel _ _ _ Hidx), Z.add_0_l.
  destruct (Z.ltb_spec (Z.of_nat p) 0); [lia|].
  by rewrite Hl, Nat2Z.id.
Qed.

(** Cloning and then applying [f] in place: the caller's buffers are kept,
    and the new array holds [f] of each element. *)
Lemma clone_cwise (f : elt → elt) a h :
  ∃ h', (let* c := clone undef a in let* _ := cwise undef f c in ret c) h
        = (Ok (contiguous_at (length h) (shape a)), h') ∧
    length h' = S (length h) ∧
    preserves h h' ∧
    ∀ idx, in_bounds idx (shape a) →
      get undef h' (contiguous_at (length h) (shape a)) idx = f (get undef h a idx).
Proof.
  set (buf := get undef h a <$> indices (shape a)).
  exists (<[length h := f <$> buf]> (h ++ [buf])).
  assert (Hl : (h ++ [buf]) !! length h = Some buf).
  { rewrite lookup_app_r by lia. by rewrite Nat.sub_diag. }
  split; [|split; [|split]].
  - unfold bind. rewrite clone_eq. fold buf.
    change (mkNdArray (length h) (shape a) (row_major (shape a)) 0)
      with (contiguous_at (length h) (shape a)).
    rewrite (cwise_contiguous f _ _ _ buf Hl); [done|].
    unfold buf. by rewrite length_fmap, length_indices.
  - rewrite length_insert, length_app. simpl. lia.
  - intros l Hlt. rewrite list_lookup_insert_ne by lia. by apply lookup_app_l.
  - intros idx Hidx. apply indices_in_bounds in Hidx.
    apply list_elem_of_lookup in Hidx as [p Hp].
    rewrite (get_contiguous _ (length h) _ (f <$> buf) p); [|
      apply list_lookup_insert_eq; rewrite length_app; simpl; lia | done].
    unfold buf. rewrite !list_lookup_fmap, Hp. done.
Qed.

(** *** Frame properties *)

Lemma get_preserves h h' a idx :
  preserves h h' → (data a < length h)%nat →
  get undef h' a idx = get undef h a idx.
Proof. intros Hp Hl. unfold get, read. by rewrite (Hp _ Hl). Qed.

Lemma cwise_frame (f : elt → elt) a h0 h :
  (length h0 ≤ data a)%nat → preserves h0 h →
  ∃ h', cwise undef f a h = (Ok tt, h') ∧ length h' = length h ∧ preserves h0 h'.
Proof.
  intros Hfresh Hp. eexists. split; [reflexivity|]. split.
  - apply (length_foldl_set h a (λ h' idx, f (get undef h' a idx)) (λ idx, idx)).
  - by apply (preserves_foldl_set h0 h a (λ h' idx, f (get undef h' a idx)) (λ idx, idx)).
Qed.

(** What [NdArray.new] does to the heap. *)
Lemma NdArray_new_frame (x : array_like) h :
  ∃ res h', NdArray_new x h = (res, h') ∧
    preserves h h' ∧ (length h ≤ length h')%nat ∧
    res ≠ Diverge ∧
    (∀ a, res = Ok a →
       shape a = shape_as_array x ∧
       ((∃ a0, x = ANd a0) ∨ (data a = length h ∧ length h' = S (length h)))) ∧
    (array_ok h x → ∃ a, res = Ok a ∧ (data a < length h')%nat).
Proof.
  assert (Halloc : ∀ (buf : list elt) s, s = shape_as_array x → (∀ a0, x ≠ ANd a0) →
    ∃ res h', alloc buf s h = (res, h') ∧
      preserves h h' ∧ (length h ≤ length h')%nat ∧ res ≠ Diverge ∧
      (∀ a, res = Ok a →
         shape a = shape_as_array x ∧
         ((∃ a0, x = ANd a0) ∨ (data a = length h ∧ length h' = S (length h)))) ∧
      (array_ok h x → ∃ a, res = Ok a ∧ (data a < length h')%nat)).
  { intros buf s -> Hx. eexists _, _. split; [reflexivity|].
    rewrite length_app. simpl.
    split; [apply preserves_alloc|]. split; [lia|]. split; [done|]. split.
    - intros a [= <-]. simpl. split; [done|]. right. split; lia.
    - intros _. eexists. split; [done|]. simpl. lia. }
  destruct x as [[n|l|]|a0]; unfold NdArray_new.
  - by apply Halloc.
  - destruct (regular (JArr l)) eqn:Hreg; [by apply Halloc|].
    eexists _, _. split; [reflexivity|].
    split; [apply preserves_refl|]. split; [lia|]. split; [done|].
    split; [done|]. unfold array_ok. rewrite Hreg. done.
  - change (regular (@JUndef elt)) with false. cbv iota.
    eexists _, _. split; [reflexivity|].
    split; [apply preserves_refl|]. split; [lia|]. split; [done|].
    split; done.
  - eexists _, _. split; [reflexivity|].
    split; [apply preserves_refl|]. split; [lia|]. split; [done|]. split.
    + intros a [= <-]. split; [done|]. left. by eexists.
    + intros Hok. by eexists.
Qed.

(** Both facade patterns for a unary operation keep every buffer of the
    caller and return an array of the shape of the argument. *)
Lemma unary_in_place_frame (f : elt → elt) (x : array_like) h :
  ∃ res h', unary_in_place undef f x h = (res, h') ∧
    preserves h h' ∧
    (∀ r, res = Ok r → shape r = shape_as_array x) ∧
    (array_ok h x → ∃ r, res = Ok r).
Proof.
  unfold unary_in_place. destruct x as [v|a].
  - assert (Hcn : clone_or_new undef (ALit v) = NdArray_new (ALit v))
      by (by destruct v).
    rewrite Hcn. clear Hcn.
    destruct (NdArray_new_frame (ALit v) h)
      as (res & h1 & Hnew & Hp & Hlen & Hnd & Hok & Hsucc).
    unfold bind at 1. rewrite Hnew.
    destruct res as [a|e|]; [| |done].
    + destruct (Hok a eq_refl) as (Hs & [(a0 & ?)|(Hd & Hl1)]); [done|].
      destruct (cwise_frame f a h h1 ltac:(lia) Hp) as (h' & Hc & _ & Hp').
      unfold bind. rewrite Hc. eexists _, _. split; [reflexivity|].
      split; [done|]. split; [by intros r [= <-]|]. intros _. by eexists.
    + eexists _, _. split; [reflexivity|]. split; [done|]. split; [done|].
      intros Hx. destruct (Hsucc Hx) as (a & ? & _). done.
  - unfold clone_or_new.
    destruct (clone_cwise f a h) as (h' & Hrun & _ & Hp & _).
    rewrite Hrun. eexists _, _. split; [reflexivity|]. split; [done|].
    split; [by intros r [= <-]|]. intros _. by eexists.
Qed.

(** On a flat plain array that the caller holds, the facade functions that
    clone only an [NdArray] apply their operator to the caller's array
    itself. *)
Lemma unary_in_place_held (f : elt → elt) (l : nat) (buf : list elt) h :
  h !! l = Some buf →
  unary_in_place undef f (Held l) h
  = (Ok (contiguous_at l [length buf]), <[l := f <$> buf]> h).
Proof.
  intros Hl. unfold unary_in_place. unfold bind at 1.
  cbn [clone_or_new NdArray_new]. rewrite Hl.
  change (mkNdArray l [length buf] (row_major [length buf]) 0)
    with (contiguous_at l [length buf]).
  unfold bind. rewrite (cwise_contiguous f h l [length buf] buf Hl); [done|].
  simpl. lia.
Qed.

Lemma unary_method_elements (f : elt → elt) (x : argument) h a h1 :
  NdArray_new x h = (Ok a, h1) →
  ∃ r h', unary_method undef f x h = (Ok r, h') ∧
    shape r = shape a ∧ preserves h1 h' ∧
    ∀ idx, in_bounds idx (shape a) →
      get undef h' r idx = f (get undef h1 a idx).
Proof.
  intros Hnew. unfold unary_method. unfold bind at 1. rewrite Hnew.
  destruct (clone_cwise f a h1) as (h' & Hrun & _ & Hp & Hget).
  rewrite Hrun. eexists _, _. split; [reflexivity|]. repeat split; done.
Qed.

Lemma unary_method_frame (f : elt → elt) (x : array_like) h :
  ∃ res h', unary_method undef f x h = (res, h') ∧
    preserves h h' ∧
    (∀ r, res = Ok r → shape r = shape_as_array x) ∧
    (array_ok h x → ∃ r, res = Ok r).
Proof.
  destruct (NdArray_new_frame x h)
    as (res & h1 & Hnew & Hp & Hlen & Hnd & Hok & Hsucc).
  destruct res as [a|e|]; [| |done].
  - destruct (unary_method_elements f x h a h1 Hnew) as (r & h' & Hrun & Hs & Hp' & _).
    rewrite Hrun. eexists _, _. split; [reflexivity|].
    split; [by apply (preserves_trans h h1 h')|].
    split; [|intros _; by eexists].
    intros r' [= <-]. rewrite Hs. by apply Hok.
  - unfold unary_method. unfold bind at 1. rewrite Hnew.
    eexists _, _. split; [reflexivity|]. split; [done|]. split; [done|].
    intros Hx. destruct (Hsucc Hx) as (a & ? & _). done.
Qed.

End EngineFacts.

(** ** Unary element-wise operations *)

Section RealFacts.

(** What a read outside a buffer yields. *)
Variable undef : R.

#[local] Abbreviation heap := (heap_of R) (only parsing).

#[local] Open Scope R_scope.

Lemma sigmoid_unfold (x : argument) (t : option R) :
  sigmoid undef x t =
  unary_method undef (λ a, sigmoidCwise a (js_or_R t 1)) x.
Proof. reflexivity. Qed.

Lemma unary_call_frame (op : unary_op) (x : array_like) (h : heap) :
  ∃ res h', unary_call undef op x h = (res, h') ∧
    preserves h h' ∧
    (∀ r, res = Ok r → shape r = shape_as_array x) ∧
    (array_ok h x → ∃ r, res = Ok r).
Proof.
  destruct op as [| | | | | | | | | | | | |t|[|mn|mn mx]|alpha]; simpl unary_call;
    first [ apply unary_method_frame | apply unary_in_place_frame ].
Qed.

(** On an [NdArray], and on an argument given by value, each unary
    element-wise facade operation works on a copy: every buffer that exists
    before the call is the same after it, and the result has the shape of
    the argument. *)
Lemma unary_ops_copy (op : unary_op) (x : array_like) (h : heap)
    (res : outcome NdArray) (h' : heap) :
  unary_call undef op x h = (res, h') →
  preserves h h' ∧
  (∀ a idx, (data a < length h)%nat → get undef h' a idx = get undef h a idx) ∧
  (∀ r, res = Ok r → shape r = shape_as_array x) ∧
  (array_ok h x → ∃ r, res = Ok r).
Proof.
  intros Hrun.
  destruct (unary_call_frame op x h) as (res0 & h0 & Hrun0 & Hp & Hs & Hok).
  rewrite Hrun in Hrun0. injection Hrun0 as <- <-.
  split; [done|]. split; [|split; done].
  intros a idx Ha. by apply get_preserves.
Qed.

(** The element function of [sigmoid]: saturation follows the element, not
    its product with the stiffness. *)
Lemma sigmoidCwise_cases (a t : R) :
  (a < -30 → sigmoidCwise a t = 0) ∧
  (a > 30 → sigmoidCwise a t = 1) ∧
  (-30 <= a <= 30 → sigmoidCwise a t = 1 / (1 + Rtrigo_def.exp (- (t * a)))).
Proof.
  unfold sigmoidCwise.
  destruct (Rlt_dec a (-30)), (Rgt_dec a 30); repeat split; intros; try lra.
  f_equal. f_equal. f_equal. lra.
Qed.

(** What [sigmoid] computes: 0 where the element is below -30, 1 where it
    is above 30, and [1/(1+exp(-t'*x_i))] otherwise, with [t' = t || 1]. *)
Lemma sigmoid_elements (x : array_like) (t : option R) (h : heap)
    (a : NdArray) (h1 : heap) :
  NdArray_new x h = (Ok a, h1) →
  ∃ r h', sigmoid undef x t h = (Ok r, h') ∧
    shape r = shape a ∧
    (∀ idx, in_bounds idx (shape a) →
       let xi := get undef h1 a idx in
       let t' := js_or_R t 1 in
       (xi < -30 → get undef h' r idx = 0) ∧
       (xi > 30 → get undef h' r idx = 1) ∧
       (-30 <= xi <= 30 →
          get undef h' r idx = 1 / (1 + Rtrigo_def.exp (- (t' * xi))))) ∧
    js_or_R None 1 = 1 ∧ js_or_R (Some 0) 1 = 1 ∧
    (∀ v, v ≠ 0 → js_or_R (Some v) 1 = v).
Proof.
  intros Hnew. rewrite sigmoid_unfold.
  destruct (unary_method_elements undef (λ a, sigmoidCwise a (js_or_R t 1)) x h a h1 Hnew)
    as (r & h' & Hrun & Hs & _ & Hget).
  exists r, h'. split; [done|]. split; [done|]. split.
  - intros idx Hidx. cbv zeta. rewrite (Hget idx Hidx). apply sigmoidCwise_cases.
  - unfold js_or_R. split; [done|]. split.
    + destruct (Req_dec_T 0 0); [done|lra].
    + intros v Hv. by destruct (Req_dec_T v 0).
Qed.

End RealFacts.

Lemma unary_ops_copy_witness :
  let h := [[1%R; 2%R]] in
  let x := ANd (mkNdArray 0 [2%nat] [1] 0) in
  let out := unary_call 0%R OpCos x h in
  preserves h out.2 ∧ ∀ r, out.1 = Ok r → shape r = [2%nat].
Proof.
  intros h x out.
  destruct (unary_ops_copy 0%R OpCos x h out.1 out.2) as (Hp & _ & Hs & _).
  - apply surjective_pairing.
  - split; [exact Hp|exact Hs].
Defined.

(** C2 (the code at the failing inputs): the guard of [doSigmoid] compares
    the element itself with -30 and 30, not its product with the stiffness.
    [sigmoid([100], 0.01)] is exactly 1, although [t * x_i = 1] is far from
    the bounds and [1/(1+exp(-1))] is below 1; [sigmoid([-20], 2)] is
    [1/(1+exp(40))], not 0, although [t * x_i = -40] is below -30.  And
    [t = t || 1] replaces the stiffness 0 by 1: [sigmoid([1], 0)] is
    [1/(1+exp(-1))], not [1/2]. *)
Theorem sigmoid_guard_ignores_stiffness :
  ((Rabs (/ 100 * 100) <= 30)%R ∧
   sigmoid_spec 100 (/ 100) = (1 / (1 + Rtrigo_def.exp (- 1)))%R ∧
   (sigmoid_spec 100 (/ 100) < 1)%R ∧
   ∃ r h', sigmoid 0%R (ALit (JNum 100%R)) (Some (/ 100)%R) [] = (Ok r, h') ∧
     get 0%R h' r [0%nat] = 1%R) ∧
  ((2 * -20 < -30)%R ∧ sigmoid_spec (-20) 2 = 0%R ∧
   ∃ r h', sigmoid 0%R (ALit (JNum (-20)%R)) (Some 2%R) [] = (Ok r, h') ∧
     get 0%R h' r [0%nat] = (1 / (1 + Rtrigo_def.exp 40))%R ∧
     get 0%R h' r [0%nat] ≠ 0%R) ∧
  (sigmoid_spec 1 0 = (1 / 2)%R ∧
   ∃ r h', sigmoid 0%R (ALit (JNum 1%R)) (Some 0%R) [] = (Ok r, h') ∧
     get 0%R h' r [0%nat] = (1 / (1 + Rtrigo_def.exp (- 1)))%R ∧
     get 0%R h' r [0%nat] ≠ (1 / 2)%R).
Proof.
  assert (Hb : in_bounds [0%nat] [1%nat]) by (repeat constructor).
  assert (Hrun : ∀ (x : R) (t : option R),
    ∃ r h', sigmoid 0%R (ALit (JNum x)) t [] = (Ok r, h') ∧
      get 0%R h' r [0%nat] = sigmoidCwise x (js_or_R t 1)).
  { intros x t. rewrite sigmoid_unfold.
    destruct (unary_method_elements 0%R (λ a, sigmoidCwise a (js_or_R t 1))
                (ALit (JNum x)) [] (mkNdArray 0 [1%nat] [1] 0) [[x]] eq_refl)
      as (r & h' & Hr & _ & _ & Hget).
    exists r, h'. split; [done|]. by rewrite (Hget [0%nat] Hb). }
  assert (He : (Rtrigo_def.exp (- 1) < 1)%R).
  { rewrite <- exp_0. apply exp_increasing. lra. }
  pose proof (exp_pos (- 1)) as Hpos.
  split; [|split].
  - split; [rewrite Rabs_right; lra|].
    assert (Hspec : sigmoid_spec 100 (/ 100)
                    = (1 / (1 + Rtrigo_def.exp (- 1)))%R).
    { unfold sigmoid_spec.
      destruct (Rlt_dec (/ 100 * 100) (-30)); [lra|].
      destruct (Rgt_dec (/ 100 * 100) 30); [lra|].
      do 3 f_equal. lra. }
    split; [done|]. split.
    { rewrite Hspec. apply (Rmult_lt_reg_r (1 + Rtrigo_def.exp (- 1))); [lra|].
      unfold Rdiv. rewrite Rmult_assoc, Rinv_l by lra. lra. }
    destruct (Hrun 100%R (Some (/ 100)%R)) as (r & h' & Hr & Hget).
    exists r, h'. split; [done|]. rewrite Hget. unfold sigmoidCwise.
    destruct (Rlt_dec 100 (-30)); [lra|]. destruct (Rgt_dec 100 30); [done|lra].
  - split; [lra|]. split.
    { unfold sigmoid_spec. destruct (Rlt_dec (2 * -20) (-30)); [done|lra]. }
    destruct (Hrun (-20)%R (Some 2%R)) as (r & h' & Hr & Hget).
    exists r, h'. split; [done|].
    assert (Hval : get 0%R h' r [0%nat] = (1 / (1 + Rtrigo_def.exp 40))%R).
    { rewrite Hget. unfold sigmoidCwise, js_or_R.
      destruct (Rlt_dec (-20) (-30)); [lra|].
      destruct (Rgt_dec (-20) 30); [lra|].
      destruct (Req_dec_T 2 0); [lra|].
      do 3 f_equal. lra. }
    split; [done|]. rewrite Hval.
    pose proof (exp_pos 40).
    apply Rgt_not_eq. apply Rdiv_lt_0_compat; lra.
  - split.
    { unfold sigmoid_spec.
      destruct (Rlt_dec (0 * 1) (-30)); [lra|].
      destruct (Rgt_dec (0 * 1) 30); [lra|].
      replace (- (0 * 1))%R with 0%R by lra. rewrite exp_0. lra. }
    destruct (Hrun 1%R (Some 0%R)) as (r & h' & Hr & Hget).
    exists r, h'. split; [done|].
    assert (Hval : get 0%R h' r [0%nat] = (1 / (1 + Rtrigo_def.exp (- 1)))%R).
    { rewrite Hget. unfold sigmoidCwise, js_or_R.
      destruct (Rlt_dec 1 (-30)); [lra|].
      destruct (Rgt_dec 1 30); [lra|].
      destruct (Req_dec_T 0 0); [|lra].
      do 3 f_equal. lra. }
    split; [done|]. rewrite Hval. intros Heq.
    assert (Hm : (1 = / 2 * (1 + Rtrigo_def.exp (- 1)))%R).
    { apply (Rmult_eq_compat_r (1 + Rtrigo_def.exp (- 1))) in Heq.
      unfold Rdiv in Heq. rewrite Rmult_assoc, Rinv_l in Heq by lra. lra. }
    lra.
Qed.

(** C7 (the code at the failing input): [cos(x)] on [x = [0, 1]], a flat
    plain array that the caller holds, overwrites [x]: [NdArray.new] takes
    the array as the buffer, only an [NdArray] is cloned, and [ops.coseq]
    then works in place; the caller's array, which began with 0, begins with
    [cos 0 = 1].  The operations of this pattern all do so ([abs] on
    [[-2]] is shown; lemma [unary_in_place_held] has the general fact).  The
    sibling
    [sigmoid], which clones whatever it is given, and [cos] on an [NdArray]
    over the same storage leave the caller's array as it is. *)
Theorem cos_overwrites_held_array :
  let h : heap_of R := [[0%R; 1%R]] in
  cos 0%R (Held 0) h
  = (Ok (contiguous_at 0 [2%nat]), [[Rtrigo_def.cos 0; Rtrigo_def.cos 1]]) ∧
  Rtrigo_def.cos 0 = 1%R ∧
  ¬ preserves h (cos 0%R (Held 0) h).2 ∧
  abs 0%R (Held 0) [[(-2)%R]] = (Ok (contiguous_at 0 [1%nat]), [[Rabs (-2)]]) ∧
  (∃ r h', sigmoid 0%R (Held 0) None h = (Ok r, h') ∧ preserves h h') ∧
  (∃ r h', cos 0%R (ANd (contiguous_at 0 [2%nat])) h = (Ok r, h') ∧
     preserves h h').
Proof.
  intros h.
  assert (Hrun : cos 0%R (Held 0) h
    = (Ok (contiguous_at 0 [2%nat]), [[Rtrigo_def.cos 0; Rtrigo_def.cos 1]])).
  { unfold cos. by rewrite (unary_in_place_held 0%R _ 0%nat [0%R; 1%R]). }
  split; [done|]. split; [apply cos_0|]. split; [|split; [|split]].
  - rewrite Hrun. intros Hp. specialize (Hp 0%nat ltac:(simpl; lia)).
    simpl in Hp. injection Hp as H0 _. rewrite cos_0 in H0. lra.
  - unfold abs. by rewrite (unary_in_place_held 0%R _ 0%nat [(-2)%R]).
  - rewrite sigmoid_unfold.
    destruct (unary_method_elements 0%R (λ a, sigmoidCwise a (js_or_R None 1))
                (Held 0) h (contiguous_at 0 [2%nat]) h eq_refl)
      as (r & h' & Hr & _ & Hp & _).
    by exists r, h'.
  - destruct (unary_in_place_frame 0%R Rtrigo_def.cos
                (ANd (contiguous_at 0 [2%nat])) h)
      as (res & h' & Hr & Hp & _ & Hok).
    destruct Hok as [r ->]; [simpl; lia|].
    by exists r, h'.
Qed.

(** ** [fft] and [ifft] *)

Section FftFacts.

Context {elt : Type} (undef : elt).
Variable ndFFT_kernel : Z → list elt → list elt → list elt * list elt.

#[local] Abbreviation heap := (heap_of elt) (only parsing).

Implicit Types (h : heap) (a : NdArray) (x : @array_like elt).







End FftFacts.


(** ** [flip] and [rot90] *)

Lemma add_while_negative_enough (inc : Z) :
  1 ≤ inc →
  ∀ (fuel : nat) (k : Z), (Z.to_nat (- k) < fuel)%nat →
    ∃ k', add_while_negative fuel k inc = Some k' ∧ 0 ≤ k' ∧
          ∃ n, 0 ≤ n ∧ k' = k + n * inc.
Proof.
  intros Hinc. induction fuel as [|fuel IH]; intros k Hfuel; [lia|].
  simpl. destruct (Z.ltb_spec k 0) as [Hneg|Hpos].
  - destruct (IH (k + inc) ltac:(lia)) as (k' & Hrun & Hk' & n & Hn & ->).
    exists (k + inc + n * inc). split; [done|]. split; [done|].
    exists (n + 1). split; lia.
  - exists k. split; [done|]. split; [done|]. exists 0. lia.
Qed.

(** With a positive increment the loop ends. *)
Lemma add_while_negative_terminates (k inc : Z) :
  1 ≤ inc →
  ∃ k', add_while_negative_run k inc = Ok k' ∧ 0 ≤ k'.
Proof.
  intros Hinc. unfold add_while_negative_run.
  destruct (add_while_negative_enough inc Hinc (S (Z.to_nat (- k))) k ltac:(lia))
    as (k' & -> & Hk' & _).
  by exists k'.
Qed.

(** With an increment that is not positive the loop, once entered, never
    ends: the fuel of [add_while_negative_run] runs out only then. *)
Lemma add_while_negative_diverges (k inc : Z) :
  add_while_negative_run k inc = Diverge ↔
  ∀ fuel, add_while_negative fuel k inc = None.
Proof.
  split.
  - intros Hrun.
    assert (Hinc : inc ≤ 0 ∧ k < 0).
    { destruct (Z.le_gt_cases 1 inc) as [Hpos|Hneg].
      - destruct (add_while_negative_terminates k inc Hpos) as (k' & Hk & _).
        congruence.
      - split; [lia|]. unfold add_while_negative_run in Hrun. simpl in Hrun.
        destruct (Z.ltb_spec k 0); [done|discriminate Hrun]. }
    destruct Hinc as [Hinc Hk]. clear Hrun. intros fuel. revert k Hk.
    induction fuel as [|fuel IH]; intros k Hk; [done|]. simpl.
    destruct (Z.ltb_spec k 0); [|lia]. apply IH. lia.
  - intros Hall. unfold add_while_negative_run. by rewrite Hall.
Qed.

Section Rot90Facts.

Context {elt : Type}.

#[local] Abbreviation heap := (heap_of elt) (only parsing).

Implicit Types (h : heap) (a : NdArray).

Lemma ceil_div_unit (n : nat) (d : Z) :
  Z.abs d = 1 → Z.to_nat ((Z.of_nat n + Z.abs d - 1) / Z.abs d) = n.
Proof. intros ->. rewrite Z.div_1_r. lia. Qed.

Lemma flip_2d_last (d r c : nat) (s0 s1 o : Z) h :
  flip (ANd (mkNdArray d [r; c] [s0; s1] o)) 1 h =
  (@Ok NdArray (mkNdArray d [r; c] [s0 * 1; s1 * -1] (o + s1 * (Z.of_nat c - 1))), h).
Proof.
  unfold flip, bind, NdArray_new, ret, lift.
  cbn -[Z.mul Z.add Z.sub Z.div Z.abs Z.of_nat Z.to_nat].
  change (Z.to_nat 1) with 1%nat. change (Z.of_nat 2) with 2.
  cbn -[Z.mul Z.add Z.sub Z.div Z.abs Z.of_nat Z.to_nat step].
  unfold step. cbn -[Z.mul Z.add Z.sub Z.div Z.abs Z.of_nat Z.to_nat].
  by rewrite !ceil_div_unit.
Qed.

Lemma transpose_2d_swap (d r c : nat) (s0 s1 o : Z) h :
  transpose (ANd (mkNdArray d [r; c] [s0; s1] o)) (Some [Some 1; Some 0]) h =
  (@Ok NdArray (mkNdArray d [c; r] [s1; s0] o), h).
Proof. reflexivity. Qed.

(** [rot90] sees its argument through [NdArray.new]. *)
Lemma rot90_new (x : array_like) (k : option Z) (axes : option (list Z)) a h h1 :
  NdArray_new x h = (Ok a, h1) →
  rot90 x k axes h = rot90 (ANd a) k axes h1.
Proof.
  intros Hnew. unfold rot90.
  destruct (add_while_negative_terminates (js_or k 1) 4 ltac:(lia))
    as (k' & -> & _).
  unfold bind, lift. rewrite Hnew. reflexivity.
Qed.

(** One default quarter turn of a two-dimensional view. *)
Lemma rot90_default_2d (d r c : nat) (s0 s1 o : Z) h :
  rot90 (ANd (mkNdArray d [r; c] [s0; s1] o)) None None h =
  (@Ok NdArray (mkNdArray d [c; r] [s1 * -1; s0 * 1] (o + s1 * (Z.of_nat c - 1))), h).
Proof.
  unfold rot90. cbn [js_or].
  change (add_while_negative_run 1 4) with (@Ok Z 1).
  unfold bind at 1. unfold lift at 1. cbv iota beta.
  change (Z.rem 1 4) with 1.
  unfold bind at 1. cbn [NdArray_new ret].
  cbn [default length negb Nat.eqb].
  change (default 0 ([0; 1] !! 0%nat)) with 0.
  change (default 0 ([0; 1] !! 1%nat)) with 1.
  cbn [ndim shape length scalar_ndim Nat.eqb orb].
  change (0 =? 1) with false. change (1 =? 0) with false.
  change (1 =? 2) with false. change (1 =? 1) with true. cbv iota. cbn [orb].
  change (arange_tolist 2) with (@Ok (list (option Z)) [Some 0; Some 1]).
  unfold bind at 1. unfold lift at 1. cbv iota beta.
  change (js_write (js_write [Some 0; Some 1] 0 (js_read [Some 0; Some 1] 1)) 1
            (js_read [Some 0; Some 1] 0)) with [Some 1; Some 0].
  unfold bind. rewrite flip_2d_last. apply transpose_2d_swap.
Qed.

(** C8: four default quarter turns of a two-dimensional array give back the
    array itself: the same view on the same buffers, so the same shape and
    the same element at every index. *)
Theorem rot90_four_times (undef : elt) (x : array_like) (a : NdArray) h h1 :
  NdArray_new x h = (Ok a, h1) →
  ndim a = 2%nat → view_wf a →
  ∃ r, (let* r1 := rot90 x None None in
        let* r2 := rot90 (ANd r1) None None in
        let* r3 := rot90 (ANd r2) None None in
        rot90 (ANd r3) None None) h = (Ok r, h1) ∧
    r = a ∧ shape r = shape a ∧
    ∀ idx, get undef h1 r idx = get undef h1 a idx.
Proof.
  intros Hnew Hdim Hwf. exists a.
  split; [|done].
  destruct a as [d shp str o]. unfold ndim, view_wf in *. simpl in Hdim, Hwf.
  destruct shp as [|r [|c [|? ?]]]; try done.
  destruct str as [|s0 [|s1 [|? ?]]]; try done.
  assert (Hfirst : rot90 x None None h =
    (@Ok NdArray (mkNdArray d [c; r] [s1 * -1; s0 * 1] (o + s1 * (Z.of_nat c - 1))), h1)).
  { rewrite <- (rot90_default_2d d r c s0 s1 o h1). by apply rot90_new. }
  unfold bind at 1. rewrite Hfirst.
  unfold bind at 1. rewrite rot90_default_2d.
  unfold bind at 1. rewrite rot90_default_2d.
  rewrite rot90_default_2d. repeat f_equal; lia.
Qed.

End Rot90Facts.

Lemma rot90_four_times_witness :
  let h : heap_of Z := [[1; 2; 3; 4]] in
  let a := mkNdArray 0 [2%nat; 2%nat] [2; 1] 0 in
  ∃ r, (let* r1 := rot90 (ANd a) None None in
        let* r2 := rot90 (ANd r1) None None in
        let* r3 := rot90 (ANd r2) None None in
        rot90 (ANd r3) None None) h = (Ok r, h) ∧ r = a.
Proof.
  intros h a.
  destruct (rot90_four_times 0 (ANd a) a h h eq_refl eq_refl eq_refl)
    as (r & Hrun & Hr & _).
  exists r. split; [exact Hrun|exact Hr].
Defined.

(** C3 (the code at the failing input): an explicit [k = 0] is replaced by
    the default 1 ([k = k || 1]), so [rot90(m, 0)] is [rot90(m, 1)], a
    quarter turn, and not [m]; [k = 4] and [k = -4], which also normalize to
    0, do return [m]. *)
Theorem rot90_zero_turns_once :
  (∀ (elt : Type) (m : @array_like elt) (axes : option (list Z)) (h : heap_of elt),
     rot90 m (Some 0) axes h = rot90 m (Some 1) axes h) ∧
  let h : heap_of Z := [[1; 2; 3; 4]] in
  let m := mkNdArray 0 [2%nat; 2%nat] [2; 1] 0 in
  tolist 0 h m = JArr [JArr [JNum 1; JNum 2]; JArr [JNum 3; JNum 4]] ∧
  (∃ r, rot90 (ANd m) (Some 0) None h = (Ok r, h) ∧ r ≠ m ∧
     tolist 0 h r = JArr [JArr [JNum 2; JNum 4]; JArr [JNum 1; JNum 3]]) ∧
  rot90 (ANd m) (Some 4) None h = (Ok m, h) ∧
  rot90 (ANd m) (Some (-4)) None h = (Ok m, h).
Proof.
  split; [reflexivity|]. intros h m.
  split; [reflexivity|]. split; [|split; reflexivity].
  exists (mkNdArray 0 [2%nat; 2%nat] [-1; 2] 1).
  split; [reflexivity|]. split; [discriminate|reflexivity].
Qed.

(** ** [concatenate]: the loops on objects *)

Section ConcatObjects.

Context {elt : Type} (undef : elt).

#[local] Abbreviation heap := (heap_of elt) (only parsing).

Lemma flat_getShape (xs : list elt) : getShape (JArr (JNum <$> xs)) = [length xs].
Proof. destruct xs; simpl; by rewrite ?length_fmap. Qed.

Lemma flat_regular (xs : list elt) : regular (JArr (JNum <$> xs)) = true.
Proof.
  unfold regular. rewrite flat_getShape. cbn [has_shape].
  rewrite length_fmap, Nat.eqb_refl. simpl.
  apply forallb_forall. intros v Hv.
  apply list_elem_of_In, list_elem_of_fmap in Hv as (n' & -> & _). done.
Qed.

(** [m[row] = r] on an object that is no flat array of numbers. *)
Lemma entry_store_val (h : heap) (held : heap_of (@jsval elt)) (m : @centry elt)
    (row : nat) (r : @jsval elt) :
  (∀ l, m ≠ EBuf l) →
  ∃ m' held', entry_store m row r held = (Ok m', held') ∧
    entry_val h held' m' = js_store (entry_val h held m) row r ∧
    (∀ q, m ≠ EHeld q → held' !! q = held !! q) ∧
    (∀ l, m' ≠ EBuf l) ∧ (∀ q, m' = EHeld q → m = EHeld q).
Proof.
  intros Hm. destruct m as [v|l|p]; [|by destruct (Hm l)|].
  - exists (EOwn (js_store v row r)), held. done.
  - exists (EHeld p), (alter (λ rows, <[row := r]> rows) p held).
    split; [done|]. split; [|split; [|done]].
    + cbn [entry_val]. rewrite list_lookup_alter, decide_True by done.
      by destruct (held !! p).
    + intros q Hq. apply list_lookup_alter_ne. congruence.
Qed.

(** An object other than the one written to reads as before. *)
Lemma entry_val_frame (h : heap) (held held' : heap_of (@jsval elt))
    (m a : @centry elt) :
  (∀ q, m ≠ EHeld q → held' !! q = held !! q) →
  (∀ p, m = EHeld p → a ≠ EHeld p) →
  entry_val h held' a = entry_val h held a.
Proof.
  intros Hframe Hna. destruct a as [v|l|q]; [done|done|].
  cbn [entry_val]. rewrite Hframe; [done|].
  intros ->. by apply (Hna q).
Qed.

(** The row loop on objects computes what the row loop on values computes
    when [a] is another object than [m]; the write is to [m] only. *)
Lemma concat_rows_at_spec (h : heap) (a : @centry elt) :
  ∀ (rows : list nat) (m : @centry elt) (held : heap_of (@jsval elt)),
  (∀ l, m ≠ EBuf l) → (∀ p, m = EHeld p → a ≠ EHeld p) →
  ∃ o held', concat_rows_at h rows m a held = (o, held') ∧
    (let+ m' := o in Ok (entry_val h held' m'))
      = concat_rows rows (entry_val h held m) (entry_val h held a) ∧
    (∀ q, m ≠ EHeld q → held' !! q = held !! q) ∧
    (∀ m', o = Ok m' → (∀ l, m' ≠ EBuf l) ∧ ∀ q, m' = EHeld q → m = EHeld q).
Proof.
  induction rows as [|row rows IH]; intros m held Hm Hna.
  - exists (Ok m), held. split; [done|]. split; [done|]. split; [done|].
    by intros m' [= <-].
  - cbn [concat_rows_at concat_rows]. unfold bind at 1, lift.
    destruct (js_index (entry_val h held m) row) as [mrow|e|];
      [|by exists (Throw e), held|by exists Diverge, held].
    destruct (js_index (entry_val h held a) row) as [arow|e|];
      [|by exists (Throw e), held|by exists Diverge, held].
    cbn [obind].
    destruct (js_concat mrow arow) as [r|e|];
      [|by exists (Throw e), held|by exists Diverge, held].
    cbn [obind]. unfold bind at 1.
    destruct (entry_store_val h held m row r Hm)
      as (m1 & held1 & -> & Hval & Hframe & Hm1 & Hsame).
    destruct (IH m1 held1 Hm1) as (o & held' & Hrun & Hres & Hframe' & Hout).
    { intros p Hp. apply Hna. by apply Hsame. }
    exists o, held'. split; [done|].
    rewrite Hres, Hval, (entry_val_frame h held held1 m a Hframe Hna).
    split; [done|]. split.
    + intros q Hq. rewrite Hframe'; [by apply Hframe|].
      intros Hq'. by apply Hq, Hsame.
    + intros m' Hm'. destruct (Hout m' Hm') as [Hb Hh]. split; [done|].
      intros q Hq. by apply Hsame, Hh.
Qed.

Lemma concat_planes_at_spec (h : heap) (a : @centry elt) (ncols : nat) :
  ∀ (rows : list nat) (m : @centry elt) (held : heap_of (@jsval elt)),
  (∀ l, m ≠ EBuf l) → (∀ p, m = EHeld p → a ≠ EHeld p) →
  ∃ o held', concat_planes_at h rows ncols m a held = (o, held') ∧
    (let+ m' := o in Ok (entry_val h held' m'))
      = concat_planes rows ncols (entry_val h held m) (entry_val h held a) ∧
    (∀ q, m ≠ EHeld q → held' !! q = held !! q) ∧
    (∀ m', o = Ok m' → (∀ l, m' ≠ EBuf l) ∧ ∀ q, m' = EHeld q → m = EHeld q).
Proof.
  induction rows as [|row rows IH]; intros m held Hm Hna.
  - exists (Ok m), held. split; [done|]. split; [done|]. split; [done|].
    by intros m' [= <-].
  - cbn [concat_planes_at concat_planes]. unfold bind at 1, lift.
    destruct (js_index (entry_val h held m) row) as [mrow|e|];
      [|by exists (Throw e), held|by exists Diverge, held].
    destruct (js_index (entry_val h held a) row) as [arow|e|];
      [|by exists (Throw e), held|by exists Diverge, held].
    cbn [obind].
    destruct (concat_cols (seq 0 ncols) mrow arow (replicate ncols JUndef))
      as [rowV|e|];
      [|by exists (Throw e), held|by exists Diverge, held].
    cbn [obind]. unfold bind at 1.
    destruct (entry_store_val h held m row (JArr rowV) Hm)
      as (m1 & held1 & -> & Hval & Hframe & Hm1 & Hsame).
    destruct (IH m1 held1 Hm1) as (o & held' & Hrun & Hres & Hframe' & Hout).
    { intros p Hp. apply Hna. by apply Hsame. }
    exists o, held'. split; [done|].
    rewrite Hres, Hval, (entry_val_frame h held held1 m a Hframe Hna).
    split; [done|]. split.
    + intros q Hq. rewrite Hframe'; [by apply Hframe|].
      intros Hq'. by apply Hq, Hsame.
    + intros m' Hm'. destruct (Hout m' Hm') as [Hb Hh]. split; [done|].
      intros q Hq. by apply Hsame, Hh.
Qed.

(** One step of the second loop.  A flat array of numbers is of rank 1 and
    only ever meets [m.concat(a)], which makes a new array. *)
Lemma concat_step_at_spec (h : heap) (m a : @centry elt)
    (held : heap_of (@jsval elt)) :
  (∀ p, m = EHeld p → a ≠ EHeld p) →
  ∃ o held', concat_step_at h m a held = (o, held') ∧
    (let+ m' := o in Ok (entry_val h held' m'))
      = concat_step (entry_val h held m) (entry_val h held a) ∧
    (∀ q, m ≠ EHeld q → held' !! q = held !! q) ∧
    (∀ m', o = Ok m' → (∀ l, m' ≠ EBuf l) ∧ ∀ q, m' = EHeld q → m = EHeld q).
Proof.
  intros Hna. unfold concat_step_at, concat_step.
  set (mv := entry_val h held m). set (av := entry_val h held a).
  destruct (negb (length (getShape mv) =? length (getShape av))%nat) eqn:Hlen.
  { by exists (Throw ValueError), held. }
  destruct ((length (getShape mv) =? 1)%nat && (length (getShape av) =? 1)%nat)
    eqn:Hone.
  { destruct (js_concat mv av) as [r|e|];
      [|by exists (Throw e), held|by exists Diverge, held].
    exists (Ok (EOwn r)), held. split; [done|]. split; [done|]. split; [done|].
    by intros m' [= <-]. }
  destruct m as [v|l|p].
  1,3: destruct (_ || _ || _); [by apply concat_rows_at_spec|];
       (destruct (_ || _ || _); [by apply concat_planes_at_spec|]);
       by exists (Throw ValueError), held.
  assert (Hrank : (length (getShape mv) ≤ 1)%nat).
  { unfold mv. cbn [entry_val]. destruct (h !! l) as [buf|]; [|simpl; lia].
    rewrite flat_getShape. simpl. lia. }
  apply negb_false_iff, Nat.eqb_eq in Hlen.
  assert (Hz : length (getShape mv) = 0%nat).
  { destruct (length (getShape mv)) as [|[|n]] eqn:E; [done| |lia].
    by rewrite <- Hlen in Hone. }
  rewrite <- Hlen, Hz. cbn [Nat.eqb andb orb].
  by exists (Throw ValueError), held.
Qed.

(** The second loop, when the first input is not given again. *)
Lemma concat_all_at_spec (h : heap) :
  ∀ (rest : list (@centry elt)) (m : @centry elt) (held : heap_of (@jsval elt)),
  (∀ p, m = EHeld p → EHeld p ∉ rest) →
  ∃ o held', concat_all_at h m rest held = (o, held') ∧
    (let+ m' := o in Ok (entry_val h held' m'))
      = concat_all (entry_val h held m) (entry_val h held <$> rest) ∧
    (∀ q, m ≠ EHeld q → held' !! q = held !! q) ∧
    (∀ m', o = Ok m' →
       (rest ≠ [] → ∀ l, m' ≠ EBuf l) ∧ (rest = [] → m' = m) ∧
       ∀ q, m' = EHeld q → m = EHeld q).
Proof.
  induction rest as [|a rest IH]; intros m held Hna.
  - exists (Ok m), held. split; [done|]. split; [done|]. split; [done|].
    by intros m' [= <-].
  - cbn [concat_all_at concat_all fmap list_fmap]. unfold bind at 1.
    destruct (concat_step_at_spec h m a held)
      as (o1 & held1 & -> & Hres1 & Hframe1 & Hout1).
    { intros p Hp Ha. apply (Hna p Hp). rewrite Ha. apply list_elem_of_here. }
    rewrite <- Hres1.
    destruct o1 as [m1|e|];
      [|by exists (Throw e), held1|by exists Diverge, held1].
    destruct (Hout1 m1 eq_refl) as [Hb1 Hsame1].
    destruct (IH m1 held1) as (o & held' & Hrun & Hres & Hframe & Hout).
    { intros p Hp Hin. apply (Hna p); [by apply Hsame1|].
      by apply list_elem_of_further. }
    exists o, held'. split; [done|]. cbn [obind]. rewrite Hres.
    split; [|split].
    + f_equal. apply list_fmap_ext. intros i b Hb.
      apply (entry_val_frame h held held1 m b Hframe1).
      intros p Hp ->. apply (Hna p Hp). apply list_elem_of_further.
      by eapply list_elem_of_lookup_2.
    + intros q Hq. rewrite Hframe; [by apply Hframe1|].
      intros Hq'. by apply Hq, Hsame1.
    + intros m' Hm'. destruct (Hout m' Hm') as (Hb & He & Hh).
      split; [|split; [done|]].
      * intros _. destruct rest as [|b rest]; [|by apply Hb].
        by rewrite (He eq_refl).
      * intros q Hq. by apply Hsame1, Hh.
Qed.

(** On inputs given by value, [concatenate] is the second loop on values
    followed by [NdArray.new]. *)
Lemma concatenate_values (arrays : list (@array_like elt)) (h : heap) :
  concatenate undef arrays h
  = match to_nested undef h <$> arrays with
    | [] => (Throw TypeError, h)
    | m :: rest =>
        match concat_all m rest with
        | Ok m' => NdArray_new (ALit m') h
        | Throw e => (Throw e, h)
        | Diverge => (Diverge, h)
        end
    end.
Proof.
  unfold concatenate, concatenate_held. rewrite <- list_fmap_compose.
  destruct arrays as [|x arrays]; [done|]. cbn [fmap list_fmap compose to_entry].
  destruct (concat_all_at_spec h
              ((to_entry undef h ∘ (λ x, CArg (Arg x))) <$> arrays)
              (EOwn (to_nested undef h x)) [])
    as (o & held' & Hrun & Hres & _ & Hout); [done|].
  change (list_fmap _ _ ?f arrays) with (f <$> arrays).
  rewrite Hrun. rewrite <- list_fmap_compose in Hres.
  cbn [entry_val] in Hres.
  assert (Hvals : (entry_val h [] ∘ (to_entry undef h ∘ (λ x, CArg (Arg x))))
                    <$> arrays = to_nested undef h <$> arrays).
  { by apply list_fmap_ext. }
  rewrite Hvals in Hres.
  change (list_fmap _ _ ?f arrays) with (f <$> arrays).
  rewrite <- Hres.
  destruct o as [m'|e|]; [|done|done]. cbn [obind].
  destruct (Hout m' eq_refl) as (_ & _ & Hh).
  destruct m' as [v|l|p]; [done| |by specialize (Hh p eq_refl)].
  exfalso. destruct arrays as [|y arrays].
  - destruct (Hout (EBuf l) eq_refl) as (_ & He & _). by specialize (He eq_refl).
  - destruct (Hout (EBuf l) eq_refl) as (Hb & _ & _). by apply (Hb ltac:(done) l).
Qed.

End ConcatObjects.

(** ** [stack] *)

Section StackFacts.

Context {elt : Type} (undef zero : elt).

#[local] Abbreviation heap := (heap_of elt) (only parsing).

Implicit Types (h : heap) (a : NdArray) (x : @array_like elt) (s : list nat).

Lemma shapes_differ_same s : shapes_differ s s = false.
Proof.
  unfold shapes_differ. apply not_true_iff_false. intros H.
  apply existsb_exists in H as (j & _ & Hj).
  by rewrite bool_decide_true in Hj.
Qed.

Lemma shapes_differ_ne s1 s2 : s1 ≠ s2 → shapes_differ s1 s2 = true.
Proof.
  intros Hne. unfold shapes_differ. apply existsb_exists.
  assert (Hex : ∃ j, s1 !! j ≠ s2 !! j).
  { revert s2 Hne. induction s1 as [|n1 s1 IH]; intros [|n2 s2] Hne; try done.
    - by exists 0%nat.
    - by exists 0%nat.
    - destruct (decide (n1 = n2)) as [->|Hn].
      + destruct (IH s2) as (j & Hj); [congruence|]. by exists (S j).
      + exists 0%nat. simpl. congruence. }
  destruct Hex as (j & Hj). exists j. split.
  - apply in_seq. split; [lia|]. simpl.
    destruct (decide (j < Nat.max (length s1) (length s2))%nat) as [|Hge]; [done|].
    exfalso. apply Hj. rewrite !(proj2 (lookup_ge_None _ _)) by lia. done.
  - by rewrite bool_decide_false.
Qed.

(** The conversion of the inputs keeps their shapes, or fails with a
    [ValueError]. *)
Lemma stack_convert_shapes (arrays : list array_like) : ∀ h,
  ∃ res h',
    mapM (λ u, if isNumber u then ret u
               else let* v := NdArray_new u in ret (ANd v)) arrays h = (res, h') ∧
    (res = Throw ValueError ∨
     ∃ arrays2, res = Ok arrays2 ∧
       Forall2 (λ x y, shape_or_empty y = stack_shape x ∧
                       (isNumber x = true → y = x) ∧
                       (isNumber x = false → ∃ a, y = ANd a)) arrays arrays2).
Proof.
  induction arrays as [|x arrays IH]; intros h.
  - eexists _, _. split; [reflexivity|]. right. eexists. split; [done|]. constructor.
  - cbn [mapM].
    assert (Hx : ∃ res h1,
      (if isNumber x then ret x else let* v := NdArray_new x in ret (ANd v)) h
        = (res, h1) ∧
      (res = Throw ValueError ∨
       ∃ y, res = Ok y ∧ shape_or_empty y = stack_shape x ∧
            (isNumber x = true → y = x) ∧ (isNumber x = false → ∃ a, y = ANd a))).
    { destruct (isNumber x) eqn:Hnum.
      - eexists _, _. split; [reflexivity|]. right. exists x.
        split; [done|]. split; [|done].
        destruct x as [[?|?|]|?]; done.
      - destruct (NdArray_new_frame x h)
          as (res & h1 & Hnew & _ & _ & Hnd & Hshape & _).
        unfold bind. rewrite Hnew. destruct res as [a|e|]; [| |done].
        + eexists _, _. split; [reflexivity|]. right. exists (ANd a).
          split; [done|]. destruct (Hshape a eq_refl) as (Hs & _).
          split; [|split; [done|by eexists]].
          simpl. rewrite Hs. destruct x as [[?|?|]|?]; done.
        + eexists _, _. split; [reflexivity|]. left.
          destruct x as [[?|l|]|?]; simpl in Hnew; try done.
          * destruct (regular (JArr l)); [done|]. by injection Hnew as <- _.
          * by injection Hnew as <- _. }
    destruct Hx as (res & h1 & Hrun & [->|(y & -> & Hy)]).
    + unfold bind at 1. rewrite Hrun. eexists _, _. split; [reflexivity|]. by left.
    + unfold bind at 1. rewrite Hrun.
      destruct (IH h1) as (res' & h' & Hrun' & [->|(ys & -> & Hys)]).
      * unfold bind at 1. rewrite Hrun'. eexists _, _. split; [reflexivity|]. by left.
      * unfold bind at 1. rewrite Hrun'. eexists _, _. split; [reflexivity|].
        right. eexists. split; [done|]. by constructor.
Qed.

Lemma stack_fill_ok (z : NdArray) (arrays2 : list array_like) : ∀ (i : nat) h,
  Forall (λ y, ∃ a, y = ANd a) arrays2 →
  ∃ h', stack_fill undef z i arrays2 h = (Ok tt, h').
Proof.
  induction arrays2 as [|y ys IH]; intros i h Hall.
  - by eexists.
  - apply Forall_cons_1 in Hall as [(a & ->) Hall]. cbn [stack_fill].
    unfold bind at 1. unfold NdArray_assign. unfold bind at 1.
    cbn [NdArray_new ret]. unfold assign_view. cbv iota beta. by apply IH.
Qed.

Lemma stack_input_shape s x : stack_input s x → stack_shape x = s.
Proof. destruct x as [[?|?|]|?]; simpl; intuition congruence. Qed.

Lemma stack_input_number x : stack_input [] x → ∃ n, x = ALit (JNum n).
Proof.
  destruct x as [[n|l|]|a]; simpl.
  - intros _. by exists n.
  - by intros [_ ?].
  - by intros [? _].
  - by intros [_ ?].
Qed.

Lemma stack_input_array s x : s ≠ [] → stack_input s x → isNumber x = false.
Proof. intros Hs. destruct x as [[?|?|]|?]; simpl; intuition. Qed.

(** On inputs that are numbers or arrays the conversion succeeds. *)
Lemma stack_convert_ok (arrays : list array_like) : ∀ h,
  Forall (λ x, ∃ s, stack_input s x) arrays →
  ∃ arrays2 h',
    mapM (λ u, if isNumber u then ret u
               else let* v := NdArray_new u in ret (ANd v)) arrays h
      = (Ok arrays2, h') ∧
    Forall2 (λ x y, shape_or_empty y = stack_shape x ∧
                    (isNumber x = true → y = x) ∧
                    (isNumber x = false → ∃ a, y = ANd a)) arrays arrays2.
Proof.
  intros h Hall.
  destruct (stack_convert_shapes arrays h) as (res & h' & Hrun & [->|(ys & -> & Hys)]).
  2:{ by exists ys, h'. }
  exfalso. revert h h' Hrun.
  induction Hall as [|x arrays (s & Hx) Hall IH]; intros h h' Hrun; [done|].
  cbn [mapM] in Hrun. unfold bind at 1 in Hrun.
  assert (Hfirst : ∃ y h1,
    (if isNumber x then ret x else let* v := NdArray_new x in ret (ANd v)) h
      = (Ok y, h1)).
  { destruct x as [[n|l|]|a]; simpl in Hx |- *.
    - by eexists _, _.
    - destruct Hx as [Hreg _]. unfold bind. rewrite Hreg. by eexists _, _.
    - by destruct Hx.
    - by eexists _, _. }
  destruct Hfirst as (y & h1 & Hy). rewrite Hy in Hrun.
  unfold bind at 1 in Hrun.
  destruct (mapM _ arrays h1) as [[ys|e|] h2] eqn:Hrest; try done.
  injection Hrun as -> ->. by eapply IH.
Qed.

Lemma concat_all_numbers : ∀ (xs pre : list elt),
  pre ≠ [] →
  concat_all (JArr (JNum <$> pre)) ((λ n, JArr [JNum n]) <$> xs) =
  Ok (JArr (JNum <$> (pre ++ xs))).
Proof.
  induction xs as [|n xs IH]; intros pre Hpre; simpl.
  - by rewrite app_nil_r.
  - assert (Hstep : concat_step (JArr (JNum <$> pre)) (JArr [JNum n]) =
                    Ok (JArr (JNum <$> (pre ++ [n])))).
    { destruct pre as [|p pre]; [done|]. unfold concat_step. simpl.
      by rewrite fmap_app. }
    rewrite Hstep. simpl. rewrite IH by (by destruct pre).
    by rewrite <- app_assoc.
Qed.

Lemma regular_numbers (xs : list elt) :
  xs ≠ [] →
  regular (JArr (JNum <$> xs)) = true ∧
  getShape (JArr (JNum <$> xs)) = [length xs].
Proof.
  intros Hxs. destruct xs as [|n xs]; [done|].
  assert (Hs : getShape (JArr (JNum <$> n :: xs)) = [length (n :: xs)]).
  { simpl. by rewrite length_fmap. }
  split; [|done]. unfold regular. rewrite Hs.
  cbn [has_shape]. rewrite length_fmap, Nat.eqb_refl. simpl.
  apply forallb_forall. intros v Hv.
  apply list_elem_of_In, list_elem_of_fmap in Hv as (n' & -> & _). done.
Qed.

(** Stacking numbers goes through [concatenate]. *)
Lemma concatenate_numbers (xs : list elt) h :
  xs ≠ [] →
  ∃ r h', concatenate undef ((λ n, ALit (JNum n)) <$> xs) h = (Ok r, h') ∧
    shape r = [length xs].
Proof.
  intros Hxs. destruct xs as [|n xs]; [done|].
  rewrite concatenate_values, <- list_fmap_compose.
  cbn [fmap list_fmap compose to_nested].
  pose proof (concat_all_numbers xs [n] ltac:(done)) as Hcat.
  cbn [fmap list_fmap app] in Hcat.
  change (list_fmap elt jsval JNum xs) with (JNum <$> xs) in Hcat.
  change (to_nested undef h ∘ (λ n0 : elt, ALit (JNum n0)))
    with (λ n0 : elt, JArr [JNum n0]).
  rewrite Hcat.
  destruct (regular_numbers (n :: xs) ltac:(done)) as [Hreg Hshape].
  unfold NdArray_new. cbn [fmap list_fmap] in Hreg.
  rewrite Hreg. eexists _, _. split; [reflexivity|]. simpl.
  by rewrite length_fmap.
Qed.

(** The build part of [stack] on inputs of one shape. *)
Lemma stack_build_ok (arrays : list array_like) s h :
  arrays ≠ [] → Forall (stack_input s) arrays →
  ∃ r h', stack_build undef zero arrays h = (Ok r, h') ∧
    shape r = length arrays :: s.
Proof.
  intros Hne Hall.
  destruct (stack_convert_ok arrays h) as (arrays2 & h1 & Hmap & HF2).
  { eapply list.Forall_impl; [exact Hall|]. intros x Hx. by exists s. }
  unfold stack_build. unfold bind at 1. rewrite Hmap.
  pose proof (list.Forall2_length _ _ _ HF2) as Hlen.
  assert (Hshapes : Forall (λ y, shape_or_empty y = s) arrays2).
  { apply list.Forall_forall. intros y Hy.
    apply list_elem_of_lookup in Hy as (i & Hi).
    destruct (Forall2_lookup_r _ _ _ _ _ HF2 Hi) as (x & Hx & Hs & _).
    rewrite Hs. apply stack_input_shape.
    eapply Forall_lookup_1; [exact Hall|exact Hx]. }
  assert (Hexp : default [] (shape_or_empty <$> arrays2 !! 0%nat) = s).
  { destruct arrays2 as [|y ys]; [by destruct arrays|].
    apply Forall_cons_1 in Hshapes as [Hy _]. simpl. exact Hy. }
  rewrite Hexp.
  assert (Hsame : existsb (λ y, shapes_differ s (shape_or_empty y)) (tl arrays2) = false).
  { apply not_true_iff_false. intros H.
    apply existsb_exists in H as (y & Hy & Hd).
    assert (Hin : y ∈ arrays2).
    { destruct arrays2; [done|]. apply list_elem_of_In. by right. }
    rewrite (proj1 (list.Forall_forall _ _) Hshapes y Hin), shapes_differ_same in Hd.
    done. }
  rewrite Hsame.
  destruct s as [|n s].
  - assert (Hnums : ∃ xs : list elt, arrays = (λ n, ALit (JNum n)) <$> xs).
    { clear -Hall. induction Hall as [|x arrays Hx Hall (xs & ->)].
      - by exists [].
      - apply stack_input_number in Hx as (n & ->). by exists (n :: xs). }
    assert (Hkeep : arrays2 = arrays).
    { clear -HF2 Hall.
      induction HF2 as [|x y l k (_ & Hnum & _) HF2 IH]; [done|].
      apply Forall_cons_1 in Hall as [Hx Hall].
      apply stack_input_number in Hx as (n & ->).
      rewrite (Hnum eq_refl), IH; done. }
    destruct Hnums as (xs & ->). rewrite Hkeep. cbn [length Nat.eqb].
    destruct (concatenate_numbers xs h1) as (r & h' & Hcat & Hr).
    { by destruct xs. }
    rewrite Hcat. exists r, h'. split; [done|]. by rewrite Hr, length_fmap.
  - cbn [length Nat.eqb].
    assert (Hnd : Forall (λ y, ∃ a, y = ANd a) arrays2).
    { apply list.Forall_forall. intros y Hy.
      apply list_elem_of_lookup in Hy as (i & Hi).
      destruct (Forall2_lookup_r _ _ _ _ _ HF2 Hi) as (x & Hx & _ & _ & Harr).
      apply Harr. apply (stack_input_array (n :: s)); [done|].
      eapply Forall_lookup_1; [exact Hall|exact Hx]. }
    unfold bind at 1. unfold zeros, alloc.
    match goal with
    | |- context [stack_fill _ ?z 0 arrays2] =>
        destruct (stack_fill_ok z arrays2 0%nat
                    (h1 ++ [replicate (shapeSize (length arrays2 :: n :: s)) zero]) Hnd)
          as (h3 & Hfill)
    end.
    unfold bind. rewrite Hfill. eexists _, _. split; [reflexivity|].
    simpl. by rewrite Hlen.
Qed.

(** The move part of [stack] for a negative axis. *)
Lemma stack_move_axis_negative (axis : Z) (stacked : NdArray) :
  axis < 0 →
  @stack_move_axis elt axis stacked =
  lift (transpose_view stacked
          (Some (stack_axes (Z.of_nat (ndim stacked) + axis) (ndim stacked)))).
Proof.
  intros Hneg. unfold stack_move_axis.
  destruct (Z.eqb_spec axis 0); [lia|].
  destruct (Z.ltb_spec axis 0); [done|lia].
Qed.

(** C5: for a non-empty list of [k] inputs of one shape [s], [stack] along
    axis 0 (also the default) returns an array of shape [[k] ++ s]; inputs
    of which two have different shapes make [stack] raise a [ValueError], as
    does an empty list; a negative axis is replaced by its sum with the rank
    of the result. *)
Theorem stack_shape_law (arrays : list array_like) s h :
  arrays ≠ [] → Forall (stack_input s) arrays →
  (∃ r h', stack undef zero (Some arrays) None h = (Ok r, h') ∧
     stack undef zero (Some arrays) (Some 0) h = (Ok r, h') ∧
     shape r = length arrays :: s) ∧
  (∀ axis, - Z.of_nat (S (length s)) < axis < 0 →
     stack undef zero (Some arrays) (Some axis) h =
     stack undef zero (Some arrays) (Some (Z.of_nat (S (length s)) + axis)) h) ∧
  (∀ axis stacked, axis < 0 →
     @stack_move_axis elt axis stacked =
     lift (transpose_view stacked
             (Some (stack_axes (Z.of_nat (ndim stacked) + axis) (ndim stacked))))) ∧
  (∀ (arrays' : list array_like) axis h0 (i j : nat) x y,
     arrays' !! i = Some x → arrays' !! j = Some y →
     stack_shape x ≠ stack_shape y →
     ∃ h', stack undef zero (Some arrays') axis h0 = (Throw ValueError, h')) ∧
  (∀ axis h0, stack undef zero (Some []) axis h0 = (Throw ValueError, h0) ∧
              stack undef zero None axis h0 = (Throw ValueError, h0)).
Proof.
  intros Hne Hall.
  destruct (stack_build_ok arrays s h Hne Hall) as (r & h' & Hbuild & Hr).
  assert (Hstack : ∀ axis, stack undef zero (Some arrays) axis h =
                           stack_move_axis (js_or axis 0) r h').
  { intros axis. unfold stack. destruct arrays; [done|].
    unfold bind. by rewrite Hbuild. }
  split; [|split; [|split; [|split]]].
  - exists r, h'. rewrite !Hstack. done.
  - intros axis Haxis. rewrite !Hstack. unfold js_or.
    destruct (Z.eqb_spec axis 0); [lia|].
    destruct (Z.eqb_spec (Z.of_nat (S (length s)) + axis) 0); [lia|].
    unfold stack_move_axis.
    destruct (Z.eqb_spec axis 0); [lia|].
    destruct (Z.eqb_spec (Z.of_nat (S (length s)) + axis) 0); [lia|].
    destruct (Z.ltb_spec axis 0); [|lia].
    destruct (Z.ltb_spec (Z.of_nat (S (length s)) + axis) 0); [lia|].
    unfold ndim. rewrite Hr. simpl length. done.
  - intros axis stacked. apply stack_move_axis_negative.
  - intros arrays' axis h0 i j x y Hi Hj Hxy.
    unfold stack. destruct arrays' as [|x0 arrays']; [done|].
    unfold bind at 1. unfold stack_build. unfold bind at 1.
    destruct (stack_convert_shapes (x0 :: arrays') h0)
      as (res & h1 & Hmap & [->|(arrays2 & -> & HF2)]); rewrite Hmap.
    { by eexists. }
    destruct arrays2 as [|y0 arrays2]; [by apply Forall2_cons_nil_inv in HF2|].
    apply Forall2_cons_1 in HF2 as [(Hy0 & _) HF2].
    change (default [] (shape_or_empty <$> (y0 :: arrays2) !! 0%nat))
      with (shape_or_empty y0).
    change (tl (y0 :: arrays2)) with arrays2. rewrite Hy0.
    assert (Hex : existsb (λ u, shapes_differ (stack_shape x0) (shape_or_empty u))
                    arrays2 = true).
    { assert (Hk : ∃ (k : nat) z, arrays' !! k = Some z ∧ stack_shape z ≠ stack_shape x0).
      { destruct (decide (stack_shape x = stack_shape x0)) as [Hx|Hx].
        - destruct j as [|j]; simpl in Hj; [congruence|].
          exists j, y. split; [done|congruence].
        - destruct i as [|i]; simpl in Hi; [congruence|].
          by exists i, x. }
      destruct Hk as (k & z & Hz & Hne').
      destruct (Forall2_lookup_l _ _ _ _ _ HF2 Hz) as (z' & Hz' & Hs & _).
      apply existsb_exists. exists z'. split.
      - apply list_elem_of_In. by eapply list_elem_of_lookup_2.
      - apply shapes_differ_ne. rewrite Hs. congruence. }
    rewrite Hex. by eexists.
  - intros axis h0. by split.
Qed.

End StackFacts.

(** ** [concatenate] *)

Section ConcatFacts.

Context {elt : Type} (undef : elt).

#[local] Abbreviation heap := (heap_of elt) (only parsing).

Implicit Types (h : heap) (m a v : @jsval elt) (s lead : list nat).

Lemma has_shape_nil v : has_shape [] v = true ↔ ∃ n, v = JNum n.
Proof.
  destruct v as [n|l|]; simpl; split; try done.
  - intros _. by exists n.
  - by intros (? & ?).
  - by intros (? & ?).
Qed.

Lemma has_shape_cons (n : nat) s v :
  has_shape (n :: s) v = true ↔
  ∃ l, v = JArr l ∧ length l = n ∧ Forall (λ x, has_shape s x = true) l.
Proof.
  destruct v as [x|l|]; simpl.
  - split; [done|]. by intros (? & ? & _).
  - rewrite andb_true_iff, Nat.eqb_eq, forallb_forall. split.
    + intros [Hl Hall]. exists l. split; [done|]. split; [done|].
      apply list.Forall_forall. intros x Hx. apply Hall. by apply list_elem_of_In.
    + intros (l' & [= <-] & Hl & Hall). split; [done|].
      intros x Hx. apply (proj1 (list.Forall_forall _ _) Hall).
      by apply list_elem_of_In.
  - split; [done|]. by intros (? & ? & _).
Qed.

(** A shape read off a regular array is proper, and a proper shape that
    fits is the one read off. *)
Lemma getShape_proper s : ∀ v,
  has_shape s v = true → getShape v = s → proper s.
Proof.
  induction s as [|n s IH]; intros v Hv Hs; [done|].
  apply has_shape_cons in Hv as (l & -> & Hl & Hall).
  destruct s as [|n' s']; [done|]. simpl.
  destruct l as [|x l]; [done|]. simpl in Hs, Hl.
  injection Hs as _ Hs. split; [lia|].
  apply Forall_cons_1 in Hall as [Hx _]. by apply (IH x).
Qed.

Lemma has_shape_getShape s : ∀ v,
  has_shape s v = true → proper s → getShape v = s.
Proof.
  induction s as [|n s IH]; intros v Hv Hp.
  - apply has_shape_nil in Hv as (x & ->). done.
  - apply has_shape_cons in Hv as (l & -> & Hl & Hall). simpl. f_equal; [done|].
    destruct l as [|x l].
    + destruct s as [|n' s']; [done|]. simpl in Hl, Hp. lia.
    + apply Forall_cons_1 in Hall as [Hx _]. apply IH; [done|].
      destruct s as [|n' s']; [done|]. by destruct Hp.
Qed.

Lemma regular_has_shape v :
  regular v = true → has_shape (getShape v) v = true ∧ proper (getShape v).
Proof. intros Hreg. split; [done|]. by apply (getShape_proper _ v). Qed.

Lemma has_shape_regular s v :
  has_shape s v = true → proper s → regular v = true.
Proof.
  intros Hv Hp. unfold regular. by rewrite (has_shape_getShape s v).
Qed.

Lemma proper_app_last lead (c c' : nat) :
  proper (lead ++ [c]) → proper (lead ++ [c']).
Proof.
  induction lead as [|n lead IH]; [done|]. simpl.
  destruct lead as [|n' lead']; simpl; [done|]. intros [? ?]. split; [done|].
  by apply IH.
Qed.

(** The join of two arrays that agree on the leading dimensions. *)
Lemma has_shape_join_last lead : ∀ (c1 c2 : nat) m a,
  has_shape (lead ++ [c1]) m = true → has_shape (lead ++ [c2]) a = true →
  has_shape (lead ++ [c1 + c2]%nat) (join_last (S (length lead)) m a) = true.
Proof.
  induction lead as [|n lead IH]; intros c1 c2 m a Hm Ha.
  - cbn [app length] in *. apply has_shape_cons in Hm as (lm & -> & Hlm & Hm).
    apply has_shape_cons in Ha as (la & -> & Hla & Ha).
    change (join_last 1 (JArr lm) (JArr la)) with (JArr (lm ++ la)).
    apply has_shape_cons. exists (lm ++ la). split; [done|].
    split; [rewrite length_app; lia|]. by apply Forall_app.
  - change ((n :: lead) ++ [c1]) with (n :: (lead ++ [c1])) in Hm.
    change ((n :: lead) ++ [c2]) with (n :: (lead ++ [c2])) in Ha.
    apply has_shape_cons in Hm as (lm & -> & Hlm & Hm).
    apply has_shape_cons in Ha as (la & -> & Hla & Ha).
    change (join_last (S (length (n :: lead))) (JArr lm) (JArr la))
      with (JArr (zip_with (join_last (S (length lead))) lm la)).
    change ((n :: lead) ++ [(c1 + c2)%nat]) with (n :: (lead ++ [(c1 + c2)%nat])).
    apply has_shape_cons. eexists. split; [done|].
    split; [rewrite length_zip_with; lia|].
    clear Hlm Hla. revert la Ha.
    induction Hm as [|x lm Hx Hm IHm]; intros la Ha; [constructor|].
    destruct Ha as [|y la Hy Ha]; [constructor|]. simpl.
    constructor; [by apply IH|by apply IHm].
Qed.

(** *** The loops of [concatenate] *)

Lemma js_index_middle (pre post : list (@jsval elt)) v :
  js_index (JArr (pre ++ v :: post)) (length pre) = Ok v.
Proof. simpl. by rewrite list_lookup_middle. Qed.

Lemma js_store_middle (pre post : list (@jsval elt)) v (r : @jsval elt) :
  js_store (JArr (pre ++ v :: post)) (length pre) r = JArr ((pre ++ [r]) ++ post).
Proof.
  simpl. f_equal. rewrite insert_app_r_alt by lia.
  rewrite Nat.sub_diag. simpl. by rewrite <- app_assoc.
Qed.

Lemma js_concat_rows (c1 c2 : nat) (x y : @jsval elt) :
  has_shape [c1] x = true → has_shape [c2] y = true →
  js_concat x y = Ok (join_last 1 x y).
Proof.
  intros (lx & -> & _)%has_shape_cons (ly & -> & _)%has_shape_cons. done.
Qed.

Lemma concat_rows_zip (c1 c2 : nat) : ∀ (lm la pre pre_a : list (@jsval elt)),
  length pre = length pre_a →
  Forall (λ x, has_shape [c1] x = true) lm →
  Forall (λ y, has_shape [c2] y = true) la →
  length lm = length la →
  concat_rows (seq (length pre) (length lm)) (JArr (pre ++ lm)) (JArr (pre_a ++ la))
  = Ok (JArr (pre ++ zip_with (join_last 1) lm la)).
Proof.
  induction lm as [|x lm IH]; intros la pre pre_a Hpre Hm Ha Hlen.
  - destruct la; [|done]. done.
  - destruct la as [|y la]; [done|].
    apply Forall_cons_1 in Hm as [Hx Hm]. apply Forall_cons_1 in Ha as [Hy Ha].
    cbn [length seq concat_rows].
    rewrite js_index_middle. cbn [obind].
    rewrite Hpre, js_index_middle. cbn [obind].
    rewrite (js_concat_rows c1 c2) by done. cbn [obind].
    rewrite <- Hpre, js_store_middle.
    replace (pre_a ++ y :: la) with ((pre_a ++ [y]) ++ la)
      by (by rewrite <- app_assoc).
    replace (S (length pre)) with (length (pre ++ [join_last 1 x y]))
      by (rewrite length_app; simpl; lia).
    rewrite IH; try done.
    + by rewrite <- app_assoc.
    + rewrite !length_app. simpl. lia.
    + simpl in Hlen. lia.
Qed.

Lemma concat_cols_zip (c1 c2 : nat) : ∀ (lm la pre pre_m pre_a : list (@jsval elt)),
  length pre = length pre_m → length pre = length pre_a →
  Forall (λ x, has_shape [c1] x = true) lm →
  Forall (λ y, has_shape [c2] y = true) la →
  length lm = length la →
  concat_cols (seq (length pre) (length lm)) (JArr (pre_m ++ lm)) (JArr (pre_a ++ la))
    (pre ++ replicate (length lm) JUndef)
  = Ok (pre ++ zip_with (join_last 1) lm la).
Proof.
  induction lm as [|x lm IH]; intros la pre pre_m pre_a Hpm Hpa Hm Ha Hlen.
  - destruct la; [|done]. done.
  - destruct la as [|y la]; [done|].
    apply Forall_cons_1 in Hm as [Hx Hm]. apply Forall_cons_1 in Ha as [Hy Ha].
    cbn [length seq concat_cols replicate].
    rewrite Hpm, js_index_middle. cbn [obind].
    rewrite <- Hpm, Hpa, js_index_middle. cbn [obind].
    rewrite (js_concat_rows c1 c2) by done. cbn [obind].
    rewrite <- Hpa, insert_app_r_alt by lia. rewrite Nat.sub_diag.
    cbn [insert list_insert].
    replace (pre ++ join_last 1 x y :: replicate (length lm) JUndef)
      with ((pre ++ [join_last 1 x y]) ++ replicate (length lm) JUndef)
      by (by rewrite <- app_assoc).
    replace (pre_m ++ x :: lm) with ((pre_m ++ [x]) ++ lm)
      by (by rewrite <- app_assoc).
    replace (pre_a ++ y :: la) with ((pre_a ++ [y]) ++ la)
      by (by rewrite <- app_assoc).
    replace (S (length pre)) with (length (pre ++ [join_last 1 x y]))
      by (rewrite length_app; simpl; lia).
    rewrite IH; try done.
    + by rewrite <- app_assoc.
    + rewrite !length_app. simpl. lia.
    + rewrite !length_app. simpl. lia.
    + simpl in Hlen. lia.
Qed.

Lemma concat_planes_zip (c d1 d2 : nat) : ∀ (lm la pre pre_a : list (@jsval elt)),
  length pre = length pre_a →
  Forall (λ x, has_shape [c; d1] x = true) lm →
  Forall (λ y, has_shape [c; d2] y = true) la →
  length lm = length la →
  concat_planes (seq (length pre) (length lm)) c (JArr (pre ++ lm)) (JArr (pre_a ++ la))
  = Ok (JArr (pre ++ zip_with (join_last 2) lm la)).
Proof.
  induction lm as [|x lm IH]; intros la pre pre_a Hpre Hm Ha Hlen.
  - destruct la; [|done]. done.
  - destruct la as [|y la]; [done|].
    apply Forall_cons_1 in Hm as [Hx Hm]. apply Forall_cons_1 in Ha as [Hy Ha].
    cbn [length seq concat_planes].
    rewrite js_index_middle. cbn [obind].
    rewrite Hpre, js_index_middle. cbn [obind].
    apply has_shape_cons in Hx as (lx & -> & Hlx & Hx).
    apply has_shape_cons in Hy as (ly & -> & Hly & Hy).
    pose proof (concat_cols_zip d1 d2 lx ly [] [] [] eq_refl eq_refl Hx Hy
                  ltac:(lia)) as Hcols.
    cbn [app length] in Hcols. rewrite Hlx in Hcols. rewrite Hcols. cbn [obind].
    rewrite <- Hpre, js_store_middle.
    replace (pre_a ++ JArr ly :: la) with ((pre_a ++ [JArr ly]) ++ la)
      by (by rewrite <- app_assoc).
    replace (S (length pre))
      with (length (pre ++ [JArr (zip_with (join_last 1) lx ly)]))
      by (rewrite length_app; simpl; lia).
    rewrite IH; try done.
    + by rewrite <- app_assoc.
    + rewrite !length_app. simpl. lia.
    + simpl in Hlen. lia.
Qed.

(** *** One step and the whole loop *)

Lemma concat_step_ok lead (c1 c2 : nat) m a :
  (length lead ≤ 2)%nat →
  regular m = true → regular a = true →
  getShape m = lead ++ [c1] → getShape a = lead ++ [c2] →
  concat_step m a = Ok (join_last (S (length lead)) m a) ∧
  regular (join_last (S (length lead)) m a) = true ∧
  getShape (join_last (S (length lead)) m a) = lead ++ [(c1 + c2)%nat].
Proof.
  intros Hlead Hrm Hra Hsm Hsa.
  destruct (regular_has_shape m Hrm) as [Hm Hpm].
  destruct (regular_has_shape a Hra) as [Ha Hpa].
  rewrite Hsm in Hm, Hpm. rewrite Hsa in Ha, Hpa.
  pose proof (has_shape_join_last lead c1 c2 m a Hm Ha) as Hj.
  pose proof (proper_app_last lead c1 (c1 + c2) Hpm) as Hpj.
  split; [|split;
    [by apply (has_shape_regular (lead ++ [(c1 + c2)%nat]))
    |by apply has_shape_getShape]].
  unfold concat_step. rewrite Hsm, Hsa.
  destruct lead as [|r [|c [|? ?]]]; [| | |simpl in Hlead; lia].
  - cbn [app length Nat.eqb negb andb]. by apply (js_concat_rows c1 c2).
  - cbn [app length Nat.eqb negb andb orb lookup list_lookup default].
    rewrite bool_decide_true by done. cbn [andb orb].
    cbn [app] in Hm, Ha.
    apply has_shape_cons in Hm as (lm & -> & Hlm & Hm).
    apply has_shape_cons in Ha as (la & -> & Hla & Ha).
    rewrite <- Hlm.
    exact (concat_rows_zip c1 c2 lm la [] [] eq_refl Hm Ha ltac:(lia)).
  - cbn [app length Nat.eqb negb andb orb lookup list_lookup default].
    rewrite !bool_decide_true by done. cbn [andb orb].
    cbn [app] in Hm, Ha.
    apply has_shape_cons in Hm as (lm & -> & Hlm & Hm).
    apply has_shape_cons in Ha as (la & -> & Hla & Ha).
    rewrite <- Hlm.
    exact (concat_planes_zip c c1 c2 lm la [] [] eq_refl Hm Ha ltac:(lia)).
Qed.

Lemma concat_step_spec m a :
  regular m = true → regular a = true →
  joinable m a ∨ concat_step m a = Throw ValueError.
Proof.
  intros _ _. unfold concat_step, joinable.
  destruct (getShape m) as [|m0 [|m1 [|m2 [|m3 sm]]]] eqn:Hsm;
    destruct (getShape a) as [|a0 [|a1 [|a2 [|a3 sa]]]] eqn:Hsa;
    cbn [length Nat.eqb negb andb orb lookup list_lookup];
    try (by right).
  - left. exists [], m0, a0. repeat split; simpl; lia || done.
  - destruct (decide (m0 = a0)) as [->|Hne].
    + left. exists [a0], m1, a1. repeat split; simpl; lia || done.
    + right. rewrite bool_decide_false by congruence. done.
  - destruct (decide (m0 = a0)) as [->|Hne].
    + destruct (decide (m1 = a1)) as [->|Hne].
      * left. exists [a0; a1], m2, a2. repeat split; simpl; lia || done.
      * right. rewrite (bool_decide_false (Some m1 = Some a1)) by congruence.
        by rewrite !andb_false_r.
    + right. rewrite bool_decide_false by congruence. done.
  - right. by destruct (negb _).
Qed.

Lemma joinable_step lead (c : nat) m m' b :
  getShape m = lead ++ [c] → (∃ c', getShape m' = lead ++ [c']) →
  joinable m' b → joinable m b.
Proof.
  intros Hm (c' & Hm') (lead' & d1 & d2 & Hl & H1 & H2).
  rewrite Hm' in H1. apply app_inj_tail in H1 as [-> ->].
  by exists lead', c, d2.
Qed.

(** The second loop of [concatenate] on regular inputs: either every
    further input is joinable with the first and the join is returned, or a
    [ValueError] is raised. *)
Lemma concat_all_spec : ∀ (rest : list (@jsval elt)) m,
  regular m = true → Forall (λ v, regular v = true) rest →
  (Forall (joinable m) rest ∧
   concat_all m rest = Ok (foldl (join_last (length (getShape m))) m rest) ∧
   regular (foldl (join_last (length (getShape m))) m rest) = true ∧
   ∀ lead (c : nat), getShape m = lead ++ [c] →
     getShape (foldl (join_last (length (getShape m))) m rest)
     = lead ++ [(c + sum_list (last_dim <$> rest))%nat]) ∨
  (¬ Forall (joinable m) rest ∧ concat_all m rest = Throw ValueError).
Proof.
  induction rest as [|a rest IH]; intros m Hrm Hall.
  - left. split; [constructor|]. split; [done|]. split; [done|].
    intros lead c Hc. simpl. by rewrite Nat.add_0_r.
  - apply Forall_cons_1 in Hall as [Hra Hall]. cbn [concat_all].
    destruct (concat_step_spec m a Hrm Hra) as [Hj|Hthrow].
    2:{ right. rewrite Hthrow. split; [|done].
        intros [(lead & c1 & c2 & Hlead & Hsm & Hsa) _]%Forall_cons_1.
        destruct (concat_step_ok lead c1 c2 m a Hlead Hrm Hra Hsm Hsa) as (Hok & _).
        congruence. }
    pose proof Hj as (lead & c1 & c2 & Hlead & Hsm & Hsa).
    destruct (concat_step_ok lead c1 c2 m a Hlead Hrm Hra Hsm Hsa)
      as (Hstep & Hrj & Hsj).
    rewrite Hstep. cbn [obind].
    assert (Hrank : length (getShape m) = S (length lead)).
    { rewrite Hsm, length_app. simpl. lia. }
    assert (Hrank' : length (getShape (join_last (S (length lead)) m a))
                     = S (length lead)).
    { rewrite Hsj, length_app. simpl. lia. }
    destruct (IH (join_last (S (length lead)) m a) Hrj Hall)
      as [(Hjs & Hrun & Hreg & Hshape)|[Hnj Hthrow]].
    2:{ right. split; [|done]. intros [_ Hrest]%Forall_cons_1. apply Hnj.
        eapply list.Forall_impl; [exact Hrest|]. intros b Hb.
        apply (joinable_step lead (c1 + c2)%nat (join_last (S (length lead)) m a) m b Hsj);
          [by eexists|done]. }
    left. rewrite Hrank' in Hrun, Hreg, Hshape. rewrite Hrank. cbn [foldl].
    split; [|split; [done|split; [done|]]].
    + constructor; [done|]. eapply list.Forall_impl; [exact Hjs|].
      intros b Hb.
      apply (joinable_step lead c1 m (join_last (S (length lead)) m a) b Hsm);
        [by eexists|done].
    + intros lead' c Hc. rewrite Hsm in Hc. apply app_inj_tail in Hc as [<- <-].
      rewrite (Hshape lead (c1 + c2)%nat Hsj). f_equal. f_equal.
      cbn [fmap list_fmap sum_list]. unfold last_dim at 2. rewrite Hsa, last_snoc.
      simpl. lia.
Qed.

(** *** The nested representation of a view is regular *)

Lemma has_shape_trunc s : ∀ v,
  has_shape s v = true →
  getShape v = trunc_shape s ∧ has_shape (trunc_shape s) v = true.
Proof.
  induction s as [|n s IH]; intros v Hv.
  - apply has_shape_nil in Hv as (x & ->). done.
  - apply has_shape_cons in Hv as (l & -> & Hl & Hall).
    destruct l as [|x l].
    + simpl in Hl. subst n. done.
    + simpl in Hl. subst n. cbn [trunc_shape getShape].
      pose proof Hall as [Hx _]%Forall_cons_1.
      destruct (IH x Hx) as [-> _]. split; [done|].
      apply has_shape_cons. eexists. split; [done|]. split; [done|].
      eapply list.Forall_impl; [exact Hall|]. intros y Hy. by apply IH.
Qed.

Lemma tolist_from_has_shape h (a0 : NdArray) s : ∀ prefix,
  has_shape s (tolist_from undef h a0 s prefix) = true.
Proof.
  induction s as [|n s IH]; intros prefix; [done|].
  cbn [tolist_from]. apply has_shape_cons. eexists. split; [done|].
  split; [by rewrite length_fmap, length_seq|].
  apply list.Forall_forall. intros v (i & -> & _)%list_elem_of_fmap. apply IH.
Qed.

Lemma to_nested_regular h (x : array_like) :
  concat_input x → regular (to_nested undef h x) = true.
Proof.
  destruct x as [[n|l|]|a0]; simpl; try done.
  intros _. unfold regular, tolist.
  destruct (has_shape_trunc (shape a0) _ (tolist_from_has_shape h a0 (shape a0) []))
    as [-> H]. done.
Qed.

(** Inputs that are all joinable with the first share its rank and its
    leading dimensions. *)
Lemma joinable_common m (rest : list (@jsval elt)) :
  rest ≠ [] → Forall (joinable m) rest →
  ∃ lead, (length lead ≤ 2)%nat ∧
    ∀ v, v ∈ m :: rest → ∃ c, getShape v = lead ++ [c].
Proof.
  intros Hne Hall. destruct rest as [|b rest]; [done|].
  pose proof Hall as [(lead & c1 & c2 & Hlead & Hm & Hb) _]%Forall_cons_1.
  exists lead. split; [done|]. intros v Hv.
  apply elem_of_cons in Hv as [->|Hv]; [by eexists|].
  destruct (proj1 (list.Forall_forall _ _) Hall v Hv)
    as (lead' & d1 & d2 & _ & Hm' & Hv').
  rewrite Hm in Hm'. apply app_inj_tail in Hm' as [<- _]. by eexists.
Qed.

Lemma concat_val_regular h (held : heap_of (@jsval elt)) (x : @concat_arg elt) :
  concat_input_at h held x → regular (concat_val undef h held x) = true.
Proof.
  destruct x as [[x|l]|p]; unfold concat_val; cbn [to_entry entry_val concat_input_at].
  - apply to_nested_regular.
  - intros [buf ->]. apply flat_regular.
  - by intros (rows & -> & Hreg & _).
Qed.

Lemma to_entry_held h (x : @concat_arg elt) (p : nat) :
  to_entry undef h x = EHeld p → x = CHeld p.
Proof. destruct x as [[x|l]|q]; simpl; congruence. Qed.

Lemma to_entry_buf h (x : @concat_arg elt) (l : nat) :
  to_entry undef h x = EBuf l → x = CArg (Held l).
Proof. destruct x as [[x|l']|q]; simpl; congruence. Qed.

(** The second loop of [concatenate] on the objects of a call in which the
    first input is not given again. *)
Lemma concat_all_at_inputs h (held : heap_of (@jsval elt))
    (x : @concat_arg elt) (xs : list (@concat_arg elt)) :
  (∀ p, x = CHeld p → CHeld p ∉ xs) →
  ∃ o held',
    concat_all_at h (to_entry undef h x) (to_entry undef h <$> xs) held = (o, held') ∧
    (let+ e' := o in Ok (entry_val h held' e'))
      = concat_all (concat_val undef h held x) (concat_val undef h held <$> xs) ∧
    (∀ q, x ≠ CHeld q → held' !! q = held !! q) ∧
    (∀ e' l, o = Ok e' → e' = EBuf l → x = CArg (Held l) ∧ xs = []).
Proof.
  intros Hna.
  destruct (concat_all_at_spec h (to_entry undef h <$> xs) (to_entry undef h x) held)
    as (o & held' & Hrun & Hres & Hframe & Hout).
  { intros p Hp (y & Hy & Hin)%list_elem_of_fmap.
    apply to_entry_held in Hp. symmetry in Hy. apply to_entry_held in Hy.
    subst. by apply (Hna p). }
  exists o, held'. split; [done|]. split; [|split].
  - rewrite Hres, <- list_fmap_compose. done.
  - intros q Hq. apply Hframe. intros Hq'. by apply Hq, (to_entry_held h).
  - intros m' l Ho ->. destruct (Hout (EBuf l) Ho) as (Hb & He & _).
    destruct xs as [|y xs].
    + split; [|done]. apply (to_entry_buf h). symmetry. by apply He.
    + by destruct (Hb ltac:(done) l).
Qed.

(** C6 (amended): on inputs that are [NdArray]s, numbers or regular nested
    arrays, the first of which, when it is an array of arrays that the
    caller holds, is not given again as a later input, [concatenate] joins
    the inputs along the last axis when every further input has the rank of
    the first, between 1 and 3, and its dimensions on every other axis
    (apart from a single flat array that the caller holds, the result is a
    new buffer); with at least two inputs it raises a [ValueError] when two
    inputs differ in rank or in a dimension other than the last, and when
    the inputs have rank 4 or higher; a single input is handed to
    [NdArray.new] as it is, whatever its rank.  Ranks and dimensions are
    those of the nested representation, which is what the code compares.
    The caller's arrays other than the first input are left as they
    were. *)
Theorem concatenate_last_axis (arrays : list (@concat_arg elt)) h
    (held : heap_of (@jsval elt)) :
  Forall (concat_input_at h held) arrays →
  (∀ p, head arrays = Some (CHeld p) → CHeld p ∉ tail arrays) →
  (∀ m rest, concat_val undef h held <$> arrays = m :: rest →
     Forall (joinable m) rest →
     (∀ l, arrays ≠ [CArg (Held l)]) →
     ∃ r held', concatenate_held undef arrays h held
          = (Ok r, h ++ [flatten (join_all (length (getShape m)) (m :: rest))],
             held') ∧
       (∀ lead (c : nat), getShape m = lead ++ [c] →
          shape r = lead ++ [(c + sum_list (last_dim <$> rest))%nat]) ∧
       (∀ q, head arrays ≠ Some (CHeld q) → held' !! q = held !! q)) ∧
  (∀ (i j : nat) u v,
     i ≠ j →
     (concat_val undef h held <$> arrays) !! i = Some u →
     (concat_val undef h held <$> arrays) !! j = Some v →
     length (getShape u) ≠ length (getShape v) ∨
     removelast (getShape u) ≠ removelast (getShape v) ∨
     (4 ≤ length (getShape u))%nat →
     ∃ held', concatenate_held undef arrays h held = (Throw ValueError, h, held')) ∧
  (∀ x, arrays = [x] →
     concatenate_held undef arrays h held
     = (NdArray_new (entry_arg h held (to_entry undef h x)) h, held)).
Proof.
  intros Hreg Hna.
  assert (Hregs : Forall (λ v, regular v = true)
                    (concat_val undef h held <$> arrays)).
  { apply Forall_fmap. eapply list.Forall_impl; [exact Hreg|].
    intros x Hx. by apply concat_val_regular. }
  split; [|split].
  - intros m rest Hvs Hj Hflat. rewrite Hvs in Hregs.
    apply Forall_cons_1 in Hregs as [Hrm Hrest].
    destruct arrays as [|x xs]; [done|]. cbn [fmap list_fmap] in Hvs.
    injection Hvs as <- <-.
    destruct (concat_all_at_inputs h held x xs) as (o & held' & Hrun & Hres & Hframe & Hbuf).
    { intros p ->. by apply Hna. }
    destruct (concat_all_spec _ _ Hrm Hrest)
      as [(_ & Hval & Hr & Hshape)|[Hnj _]]; [|done].
    rewrite Hval in Hres. destruct o as [m'|e|]; [|done|done].
    cbn [obind] in Hres. injection Hres as Hres.
    unfold concatenate_held. cbn [fmap list_fmap].
    change (list_fmap _ _ ?f xs) with (f <$> xs). rewrite Hrun.
    assert (Harg : entry_arg h held' m' = Arg (ALit (entry_val h held' m'))).
    { destruct m' as [v|l|p]; [done| |done].
      destruct (Hbuf (EBuf l) l eq_refl eq_refl) as [-> ->]. by destruct (Hflat l). }
    rewrite Harg, Hres. cbn [join_all].
    set (v := foldl _ _ _) in *.
    assert (Hnew : NdArray_new (ALit v) h
                   = (Ok (mkNdArray (length h) (shape_as_array (ALit v))
                            (row_major (shape_as_array (ALit v))) 0),
                      h ++ [flatten v])).
    { unfold NdArray_new. destruct v as [n|l|] eqn:Hv; [done| |done].
      by rewrite Hr. }
    rewrite Hnew. eexists _, held'. split; [reflexivity|]. split.
    + intros lead c Hc. cbn [shape]. specialize (Hshape lead c Hc).
      unfold shape_as_array. destruct v as [n|l|]; [|done|done].
      by destruct lead.
    + intros q Hq. apply Hframe. intros ->. by apply Hq.
  - intros i j u v Hij Hu Hv Hbad.
    destruct arrays as [|x xs]; [done|]. cbn [fmap list_fmap] in Hregs, Hu, Hv.
    change (list_fmap _ _ ?f xs) with (f <$> xs) in Hregs, Hu, Hv.
    apply Forall_cons_1 in Hregs as [Hrm Hrest].
    destruct (concat_all_at_inputs h held x xs) as (o & held' & Hrun & Hres & _).
    { intros p ->. by apply Hna. }
    unfold concatenate_held. cbn [fmap list_fmap].
    change (list_fmap _ _ ?f xs) with (f <$> xs). rewrite Hrun.
    destruct (concat_all_spec _ _ Hrm Hrest)
      as [(Hj & _)|[_ Hthrow]].
    2:{ rewrite Hthrow in Hres. destruct o as [m'|e|]; [done| |done].
        injection Hres as ->. by exists held'. }
    exfalso.
    set (m := concat_val undef h held x) in *.
    set (rest := concat_val undef h held <$> xs) in *.
    assert (Hne : rest ≠ []).
    { destruct rest; [|done]. destruct i as [|i], j as [|j]; done. }
    destruct (joinable_common m rest Hne Hj) as (lead & Hlead & Hcommon).
    destruct (Hcommon u) as (cu & Hsu); [by eapply list_elem_of_lookup_2|].
    destruct (Hcommon v) as (cv & Hsv); [by eapply list_elem_of_lookup_2|].
    rewrite Hsu, Hsv, !removelast_last, !length_app in Hbad. simpl in Hbad.
    destruct Hbad as [?|[?|?]]; [done|done|lia].
  - intros x ->. reflexivity.
Qed.

End ConcatFacts.

Lemma concatenate_last_axis_witness :
  let a : list (@jsval Z) := [JArr [JNum 1; JNum 2]; JArr [JNum 3; JNum 4]] in
  let b : list (@jsval Z) := [JArr [JNum 5]; JArr [JNum 6]] in
  ∃ r held', concatenate_held 0 [CHeld 0; CHeld 1; CHeld 1] [] [a; b]
             = (Ok r, [[1; 2; 5; 5; 3; 4; 6; 6]], held') ∧
       shape r = [2%nat; 4%nat] ∧ held' !! 1%nat = Some b.
Proof.
  intros a b.
  destruct (concatenate_last_axis 0 [CHeld 0; CHeld 1; CHeld 1] [] [a; b])
    as (Hjoin & _ & _).
  - apply List.Forall_cons; [|apply List.Forall_cons;
      [|apply List.Forall_cons; [|apply List.Forall_nil]]].
    + exists a. split; [reflexivity|]. split; [reflexivity|simpl; lia].
    + exists b. split; [reflexivity|]. split; [reflexivity|simpl; lia].
    + exists b. split; [reflexivity|]. split; [reflexivity|simpl; lia].
  - intros p Hp Hin. injection Hp as <-.
    apply elem_of_cons in Hin as [Hin|Hin]; [discriminate Hin|].
    apply elem_of_cons in Hin as [Hin|Hin]; [discriminate Hin|].
    by apply elem_of_nil in Hin.
  - destruct (Hjoin (JArr a) [JArr b; JArr b] eq_refl)
      as (r & held' & Hrun & Hshape & Hframe).
    + apply List.Forall_cons; [|apply List.Forall_cons; [|apply List.Forall_nil]].
      all: exists [2%nat], 2%nat, 1%nat; split; [simpl; lia|]; split; reflexivity.
    + intros l Hl. discriminate Hl.
    + exists r, held'. split; [exact Hrun|].
      split; [exact (Hshape [2%nat] 2%nat eq_refl)|].
      apply (Hframe 1%nat). discriminate.
Defined.

(** C6, as stated, fails: one input of rank 4 is not rejected;
    [concatenate([x])] returns a copy of [x]. *)
Lemma concatenate_single_rank4_counterexample :
  let x : @jsval Z := JArr [JArr [JArr [JArr [JNum 1; JNum 2]]]] in
  length (getShape x) = 4%nat ∧
  ∃ r, concatenate 0 [ALit x] [] = (Ok r, [[1; 2]]) ∧
       shape r = [1%nat; 1%nat; 1%nat; 2%nat].
Proof.
  intros x. split; [reflexivity|]. eexists. split; reflexivity.
Qed.

(** The writes of the second loop go to the first input: with one array
    [x = [[1, 2], [3, 4]]] that the caller holds, [concatenate([x, x, x])]
    reads [x] as the second input after the rows of [x] have been doubled,
    and again as the third; the result is 2 by 8, and [x] is left holding
    its rows. *)
Lemma concatenate_same_object_thrice :
  let x : list (@jsval Z) := [JArr [JNum 1; JNum 2]; JArr [JNum 3; JNum 4]] in
  ∃ r, concatenate_held 0 [CHeld 0; CHeld 0; CHeld 0] [] [x]
       = (Ok r, [[1; 2; 1; 2; 1; 2; 1; 2; 3; 4; 3; 4; 3; 4; 3; 4]],
          [[JArr (JNum <$> [1; 2; 1; 2; 1; 2; 1; 2]);
            JArr (JNum <$> [3; 4; 3; 4; 3; 4; 3; 4])]]) ∧
       shape r = [2%nat; 8%nat].
Proof.
  intros x. eexists. split; reflexivity.
Qed.

Lemma stack_shape_law_witness :
  let a : @jsval Z := JArr [JArr [JNum 1; JNum 2]; JArr [JNum 3; JNum 4]] in
  ∃ r h', stack 0 0 (Some [ALit a; ALit a; ALit a]) None [] = (Ok r, h') ∧
          shape r = [3%nat; 2%nat; 2%nat].
Proof.
  intros a.
  destruct (stack_shape_law 0 0 [ALit a; ALit a; ALit a] [2%nat; 2%nat] [])
    as ((r & h' & Hrun & _ & Hshape) & _).
  - done.
  - repeat constructor.
  - exists r, h'. split; [exact Hrun|exact Hshape].
Defined.

(** * Part III: further properties of the facade *)

(** ** broadcast *)

Section BroadcastMore.

Lemma pair_dim_same (d : Z) : pair_dim (Some d) (Some d) = Some (Some d).
Proof.
  unfold pair_dim. simpl.
  destruct (Z.eqb_spec d 0), (Z.eqb_spec d 1); simpl; try done.
  by rewrite Z.eqb_refl.
Qed.

Lemma pair_dim_comm (d1 d2 : Z) :
  d1 ≠ 0 → d2 ≠ 0 →
  pair_dim (Some d1) (Some d2) = pair_dim (Some d2) (Some d1).
Proof.
  intros H1 H2. unfold pair_dim. simpl.
  destruct (Z.eqb_spec d1 0), (Z.eqb_spec d2 0); try done.
  destruct (Z.eqb_spec d1 1), (Z.eqb_spec d2 1), (Z.eqb_spec d1 d2),
    (Z.eqb_spec d2 d1); simpl; congruence.
Qed.

(** The loop depends on the two shapes only through the aligned pairs. *)
Lemma broadcast_loop_ext (r1 r2 r1' r2' : list Z) : ∀ (n i : nat) out,
  (∀ j, (i ≤ j < i + n)%nat →
     pair_dim (r1 !! j) (r2 !! j) = pair_dim (r1' !! j) (r2' !! j)) →
  broadcast_loop n i r1 r2 out = broadcast_loop n i r1' r2' out.
Proof.
  induction n as [|n IH]; intros i out Hext; [done|]. simpl.
  rewrite <- (Hext i) by lia.
  destruct (pair_dim (r1 !! i) (r2 !! i)); [|done].
  apply IH. intros j Hj. apply Hext. lia.
Qed.

(** X1: broadcasting a non-empty shape with itself gives that shape back,
    zero dimensions included. *)
Theorem broadcast_self (shape : list Z) :
  shape ≠ [] → broadcast shape shape = Some (Some <$> shape).
Proof.
  intros Hne.
  destruct (broadcast shape shape) as [out|] eqn:Hb.
  - apply broadcast_Some in Hb as (_ & _ & Hlen & Hin).
    rewrite Nat.max_id in Hlen, Hin. f_equal.
    rewrite <- (reverse_involutive out), <- (reverse_involutive (Some <$> shape)).
    f_equal. apply list_eq. intros j.
    destruct (decide (j < length shape)%nat) as [Hj|Hj].
    + destruct (Hin j Hj) as (v & Hv & ->).
      destruct (lookup_lt_is_Some_2 (reverse shape) j) as [d Hd];
        [by rewrite length_reverse|].
      rewrite Hd, pair_dim_same in Hv. injection Hv as <-.
      by rewrite <- fmap_reverse, list_lookup_fmap, Hd.
    + rewrite !(proj2 (lookup_ge_None _ _)); [done| |];
        rewrite length_reverse, ?length_fmap; lia.
  - apply broadcast_None in Hb as [?|[?|(j & Hnone & _)]]; try done.
    apply pair_dim_None in Hnone as (d1 & d2 & H1 & H2 & ? & ? & ? & ? & Hd).
    congruence.
Qed.

Lemma broadcast_self_witness :
  broadcast [2; 0; 1; 7] [2; 0; 1; 7] = Some [Some 2; Some 0; Some 1; Some 7].
Proof. apply (broadcast_self [2; 0; 1; 7]). discriminate. Defined.

(** X2: for two shapes of the same rank without a dimension 0 the order of
    the arguments does not matter. *)
Theorem broadcast_comm (shape1 shape2 : list Z) :
  length shape1 = length shape2 →
  Forall (λ d, d ≠ 0) shape1 → Forall (λ d, d ≠ 0) shape2 →
  broadcast shape1 shape2 = broadcast shape2 shape1.
Proof.
  intros Hlen H1 H2.
  destruct shape1 as [|a s1], shape2 as [|b s2]; try done.
  rewrite !broadcast_nonempty by done. rewrite <- Hlen, Nat.max_id.
  f_equal. apply broadcast_loop_ext. intros j Hj.
  destruct (lookup_lt_is_Some_2 (reverse (a :: s1)) j) as [d1 Hd1];
    [rewrite length_reverse; lia|].
  destruct (lookup_lt_is_Some_2 (reverse (b :: s2)) j) as [d2 Hd2];
    [rewrite length_reverse; lia|].
  rewrite Hd1, Hd2. apply pair_dim_comm.
  - apply (proj1 (list.Forall_forall _ _) H1).
    apply elem_of_reverse. by eapply list_elem_of_lookup_2.
  - apply (proj1 (list.Forall_forall _ _) H2).
    apply elem_of_reverse. by eapply list_elem_of_lookup_2.
Qed.

Lemma broadcast_comm_witness :
  broadcast [3; 1; 5] [1; 4; 5] = broadcast [1; 4; 5] [3; 1; 5].
Proof.
  apply (broadcast_comm [3; 1; 5] [1; 4; 5]); [reflexivity| |];
    repeat (apply List.Forall_cons; [discriminate|]); apply List.Forall_nil.
Defined.

(** X3: the result of [broadcast] holds [undefined] in a slot exactly when
    the first shape is longer than the second and has a 0 or a 1 in a
    leading position that the second shape lacks; so with a first shape that
    is not longer every slot of the result is a number. *)
Theorem broadcast_undefined_slots (shape1 shape2 : list Z) (out : list (option Z)) :
  broadcast shape1 shape2 = Some out →
  (None ∈ out ↔
     ∃ j : nat, (length shape2 ≤ j)%nat ∧
       (reverse shape1 !! j = Some 0 ∨ reverse shape1 !! j = Some 1)) ∧
  ((length shape1 ≤ length shape2)%nat → ∃ dims : list Z, out = Some <$> dims).
Proof.
  intros Hb. apply broadcast_Some in Hb as (_ & _ & Hlen & Hin).
  assert (Hslot : ∀ j, reverse out !! j = Some None ↔
    (length shape2 ≤ j)%nat ∧
    (reverse shape1 !! j = Some 0 ∨ reverse shape1 !! j = Some 1)).
  { intros j. split.
    - intros Hj.
      assert (Hjlt : (j < Nat.max (length shape1) (length shape2))%nat).
      { apply lookup_lt_Some in Hj. rewrite length_reverse in Hj. lia. }
      destruct (Hin j Hjlt) as (v & Hv & Hout). rewrite Hj in Hout.
      injection Hout as <-. unfold pair_dim in Hv.
      destruct (reverse shape1 !! j) as [d1|] eqn:H1;
        destruct (reverse shape2 !! j) as [d2|] eqn:H2; simpl in Hv.
      + repeat case_match; simplify_eq.
      + apply lookup_ge_None in H2. rewrite length_reverse in H2.
        split; [done|].
        destruct (Z.eqb_spec d1 0), (Z.eqb_spec d1 1); simpl in Hv;
          simplify_eq; auto.
      + simplify_eq.
      + apply lookup_ge_None in H1, H2. rewrite length_reverse in H1, H2. lia.
    - intros (Hj & Hd).
      assert (Hjlt : (j < Nat.max (length shape1) (length shape2))%nat).
      { destruct Hd as [Hd|Hd]; apply lookup_lt_Some in Hd;
          rewrite length_reverse in Hd; lia. }
      destruct (Hin j Hjlt) as (v & Hv & ->). f_equal.
      assert (H2 : reverse shape2 !! j = None).
      { apply lookup_ge_None. by rewrite length_reverse. }
      rewrite H2 in Hv. destruct Hd as [Hd|Hd]; rewrite Hd in Hv;
        unfold pair_dim in Hv; simpl in Hv; by injection Hv as <-. }
  assert (Hmem : None ∈ out ↔ ∃ j, reverse out !! j = Some None).
  { etrans; [symmetry; apply elem_of_reverse|apply list_elem_of_lookup]. }
  split.
  - rewrite Hmem. split; intros (j & Hj); exists j; by apply Hslot.
  - intros Hle. exists (omap (λ v, v) out).
    apply list_eq. intros i. rewrite list_lookup_fmap.
    assert (Hno : None ∉ out).
    { rewrite Hmem. intros (j & Hj). apply Hslot in Hj as (Hj & Hd).
      destruct Hd as [Hd|Hd]; apply lookup_lt_Some in Hd;
        rewrite length_reverse in Hd; lia. }
    clear -Hno. revert i. induction out as [|[d|] out IH]; intros i.
    + done.
    + destruct i as [|i]; [done|]. simpl. apply IH.
      intros H. apply Hno. by right.
    + exfalso. apply Hno. by left.
Qed.

Lemma broadcast_undefined_slots_witness :
  ∃ dims : list Z, [Some 3; Some 4; Some 5] = Some <$> dims.
Proof.
  destruct (broadcast_undefined_slots [4; 1] [3; 1; 5] [Some 3; Some 4; Some 5] eq_refl)
    as [_ Hdef].
  apply Hdef. simpl. lia.
Defined.

End BroadcastMore.

(** ** arange *)

Section ArangeMore.

Lemma arange_len_unit (start stop : Z) :
  arange_len start stop 1 = Z.max 0 (stop - start).
Proof.
  unfold arange_len. rewrite Z.div_1_r. f_equal. lia.
Qed.

Lemma arange_run_unit (start stop : Z) :
  - max_exact ≤ start → Z.abs stop ≤ max_exact →
  arange_run start stop 1 = Ok (seqZ start (stop - start)).
Proof.
  intros Hstart Hstop.
  unfold arange_run. rewrite arange_loop_terminates by (done || lia).
  f_equal. simpl.
  rewrite arange_len_unit.
  destruct (Z.le_gt_cases (stop - start) 0) as [Hle|Hgt].
  - rewrite Z.max_l by lia. rewrite !seqZ_nil by lia. done.
  - rewrite Z.max_r by lia.
    rewrite <- (Z.add_0_r start) at 2. rewrite <- fmap_add_seqZ.
    apply list_fmap_ext. intros _ k _. lia.
Qed.

(** X4: for integers of magnitude at most [2^53], and no [dtype] given,
    the short forms of [arange] count by one: [arange(n)] is [0, ..., n-1]
    and [arange(start, stop)] is [start, ..., stop-1]; the result has
    [stop - start] numbers, none when [stop] is not above [start]. *)
Theorem arange_counts (start stop : Z) :
  Z.abs start ≤ max_exact → Z.abs stop ≤ max_exact →
  arange (ArangeStop stop) = Ok (seqZ 0 stop, None) ∧
  arange (ArangeStartStop start stop) = Ok (seqZ start (stop - start), None) ∧
  length (seqZ start (stop - start)) = Z.to_nat (stop - start).
Proof.
  intros Hstart Hstop.
  unfold arange. simpl arange_dispatch. cbv iota beta.
  rewrite !arange_run_unit, Z.sub_0_r by (done || lia || by vm_compute).
  repeat split; try done. apply length_seqZ.
Qed.

Lemma arange_counts_witness :
  arange (ArangeStop 5) = Ok (seqZ 0 5, None) ∧
  arange (ArangeStartStop 2 5) = Ok (seqZ 2 (5 - 2), None) ∧
  length (seqZ 2 (5 - 2)) = Z.to_nat (5 - 2).
Proof.
  apply (arange_counts 2 5).
  - by vm_compute.
  - by vm_compute.
Defined.

End ArangeMore.

(** ** [zeros], [ones], [identity] *)

Section CreationFacts.

Context {elt : Type} (undef zero one : elt).

#[local] Abbreviation heap := (heap_of elt) (only parsing).

Implicit Types (h : heap) (s : list nat) (idx : list nat).

(** A multi-index within bounds has a place in the traversal, which is its
    offset in a contiguous buffer. *)
Lemma in_bounds_ravel s idx :
  in_bounds idx s →
  ∃ p : nat, indices s !! p = Some idx ∧
    dot_index idx (row_major s) = Z.of_nat p ∧ (p < shapeSize s)%nat.
Proof.
  intros Hidx. apply indices_in_bounds in Hidx.
  apply list_elem_of_lookup in Hidx as [p Hp]. exists p.
  split; [done|]. split; [by apply indices_ravel|].
  rewrite <- length_indices. by eapply lookup_lt_Some.
Qed.

Lemma ravel_inj s idx idx' :
  in_bounds idx s → in_bounds idx' s →
  dot_index idx (row_major s) = dot_index idx' (row_major s) → idx = idx'.
Proof.
  intros (p & Hp & Hr & _)%in_bounds_ravel (p' & Hp' & Hr' & _)%in_bounds_ravel Heq.
  rewrite Hr, Hr' in Heq. apply Nat2Z.inj in Heq. subst p'. congruence.
Qed.

(** Reading a contiguous view after a write through it. *)
Lemma get_set_contiguous h (l : nat) s (buf : list elt) idx idx' (x : elt) :
  h !! l = Some buf → length buf = shapeSize s →
  in_bounds idx s → in_bounds idx' s →
  get undef (set h (contiguous_at l s) idx x) (contiguous_at l s) idx'
  = if decide (idx = idx') then x else get undef h (contiguous_at l s) idx'.
Proof.
  intros Hl Hlen Hidx Hidx'.
  destruct (in_bounds_ravel s idx Hidx) as (p & Hp & Hr & Hlt).
  destruct (in_bounds_ravel s idx' Hidx') as (p' & Hp' & Hr' & Hlt').
  unfold get, set, position, read, write. simpl. rewrite Hr, Hr', !Z.add_0_l.
  destruct (Z.ltb_spec (Z.of_nat p) 0); [lia|].
  destruct (Z.ltb_spec (Z.of_nat p') 0); [lia|].
  rewrite !Nat2Z.id, list_lookup_alter_eq, Hl. simpl.
  destruct (decide (idx = idx')) as [->|Hne].
  - assert (p = p') as -> by lia.
    by rewrite list_lookup_insert_eq by lia.
  - rewrite list_lookup_insert_ne; [done|]. intros ->. congruence.
Qed.

Lemma lookup_set_contiguous h (l : nat) s (buf : list elt) idx (x : elt) :
  h !! l = Some buf →
  ∃ buf', set h (contiguous_at l s) idx x !! l = Some buf' ∧
          length buf' = length buf.
Proof.
  intros Hl. unfold set, write. simpl. case_match.
  - by exists buf.
  - rewrite list_lookup_alter_eq, Hl. simpl. eexists. split; [done|].
    apply length_insert.
Qed.

(** X5: [zeros(shape)] returns a new array of the given shape whose every
    element is 0; the buffers that exist are left as they are. *)
Theorem zeros_elements (shp : shape_arg) h :
  ∃ r h', zeros zero shp h = (Ok r, h') ∧
    shape r = match shp with
              | ShapeNumber n => [n]
              | ShapeArray s => s
              end ∧
    data r = length h ∧ preserves h h' ∧
    ∀ idx, in_bounds idx (shape r) → get undef h' r idx = zero.
Proof.
  set (s := match shp with ShapeNumber n => [n] | ShapeArray s => s end).
  exists (contiguous_at (length h) s), (h ++ [replicate (shapeSize s) zero]).
  split; [by destruct shp|]. split; [done|]. split; [done|].
  split; [apply preserves_alloc|].
  intros idx Hidx. simpl in Hidx.
  destruct (in_bounds_ravel s idx Hidx) as (p & Hp & _ & Hlt).
  rewrite (get_contiguous undef _ (length h) s (replicate (shapeSize s) zero) p);
    [|by rewrite lookup_app_r, Nat.sub_diag by lia|done].
  by rewrite lookup_replicate_2.
Qed.

(** X6: [ones(shape)] returns a new array of the given shape whose every
    element is 1; the buffers that exist are left as they are. *)
Theorem ones_elements (shp : shape_arg) h :
  ∃ r h', ones undef one shp h = (Ok r, h') ∧
    shape r = match shp with
              | ShapeNumber n => [n]
              | ShapeArray s => s
              end ∧
    data r = length h ∧ preserves h h' ∧
    ∀ idx, in_bounds idx (shape r) → get undef h' r idx = one.
Proof.
  set (s := match shp with ShapeNumber n => [n] | ShapeArray s => s end).
  set (buf := replicate (shapeSize s) undef).
  assert (Hl : (h ++ [buf]) !! length h = Some buf).
  { by rewrite lookup_app_r, Nat.sub_diag by lia. }
  assert (Hrun : ones undef one shp h
    = (Ok (contiguous_at (length h) s), <[length h := (λ _, one) <$> buf]> (h ++ [buf]))).
  { unfold ones. fold s. fold buf. unfold bind at 1. unfold alloc.
    change (mkNdArray (length h) s (row_major s) 0)
      with (contiguous_at (length h) s).
    unfold bind.
    rewrite (cwise_contiguous undef (λ _, one) _ _ _ buf Hl); [done|].
    apply length_replicate. }
  eexists _, _. split; [exact Hrun|]. split; [by destruct shp|].
  split; [done|]. split.
  - intros l Hlt. rewrite list_lookup_insert_ne by lia. by apply lookup_app_l.
  - intros idx Hidx. simpl in Hidx.
    destruct (in_bounds_ravel s idx Hidx) as (p & Hp & _ & Hlt).
    rewrite (get_contiguous undef _ (length h) s ((λ _, one) <$> buf) p);
      [|apply list_lookup_insert_eq; rewrite length_app; simpl; lia|done].
    unfold buf. by rewrite list_lookup_fmap, lookup_replicate_2.
Qed.

(** The loop of [identity] on a contiguous [n] by [n] view. *)
Lemma identity_loop_spec (n l : nat) : ∀ (count i : nat) h (buf : list elt),
  (i + count = n)%nat →
  h !! l = Some buf → length buf = shapeSize [n; n] →
  ∃ h', identity_loop one (contiguous_at l [n; n]) i count h = (Ok tt, h') ∧
    length h' = length h ∧
    (∀ l', l' ≠ l → h' !! l' = h !! l') ∧
    ∀ a b : nat, (a < n)%nat → (b < n)%nat →
      get undef h' (contiguous_at l [n; n]) [a; b]
      = if decide (a = b ∧ (i ≤ a)%nat) then one
        else get undef h (contiguous_at l [n; n]) [a; b].
Proof.
  induction count as [|count IH]; intros i h buf Hi Hl Hlen.
  - exists h. split; [done|]. split; [done|]. split; [done|].
    intros a b Ha Hb. rewrite decide_False; [done|lia].
  - cbn [identity_loop]. unfold bind at 1. unfold NdArray_set.
    assert (Hin : in_bounds [i; i] [n; n]).
    { repeat constructor; lia. }
    assert (Hb : in_boundsb [i; i] (shape (contiguous_at l [n; n])) = true).
    { simpl. destruct (Nat.ltb_spec i n); [done|lia]. }
    rewrite Hb.
    set (h1 := set h (contiguous_at l [n; n]) [i; i] one).
    destruct (lookup_set_contiguous h l [n; n] buf [i; i] one Hl)
      as (buf1 & Hl1 & Hlen1).
    destruct (IH (S i) h1 buf1 ltac:(lia) Hl1 ltac:(lia))
      as (h' & Hrun & Hlh & Hother & Hget).
    exists h'. split; [exact Hrun|]. split.
    { rewrite Hlh. apply length_write. }
    split.
    { intros l' Hne. rewrite Hother by done. by apply lookup_write_ne. }
    intros a b Ha Hb'. rewrite Hget by done.
    unfold h1.
    rewrite (get_set_contiguous h l [n; n] buf [i; i] [a; b] one Hl Hlen Hin);
      [|repeat constructor; lia].
    destruct (decide (a = b ∧ (S i ≤ a)%nat)) as [[-> ?]|Hn1].
    + rewrite decide_True; [done|lia].
    + destruct (decide ([i; i] = [a; b])) as [Heq|Hne].
      * injection Heq as -> ->. rewrite decide_True; [done|lia].
      * rewrite decide_False; [done|].
        intros [-> ?]. assert (i = b) by lia. subst. done.
Qed.

(** X7: [identity(n)] returns a new [n] by [n] array with 1 on the main
    diagonal and 0 elsewhere; the buffers that exist are left as they are. *)
Theorem identity_elements (n : nat) h :
  ∃ r h', identity zero one n h = (Ok r, h') ∧
    shape r = [n; n] ∧ preserves h h' ∧
    ∀ a b : nat, (a < n)%nat → (b < n)%nat →
      get undef h' r [a; b] = if decide (a = b) then one else zero.
Proof.
  set (h1 := h ++ [replicate (shapeSize [n; n]) zero]).
  assert (Hz : zeros zero (ShapeArray [n; n]) h
               = (Ok (contiguous_at (length h) [n; n]), h1)) by done.
  assert (Hh1 : h1 = h ++ [replicate (shapeSize [n; n]) zero]) by done.
  assert (Hp : preserves h h1) by apply preserves_alloc.
  assert (Hget : ∀ idx, in_bounds idx [n; n] →
            get undef h1 (contiguous_at (length h) [n; n]) idx = zero).
  { intros idx Hidx.
    destruct (in_bounds_ravel [n; n] idx Hidx) as (p & Hp' & _ & Hlt).
    rewrite (get_contiguous undef _ (length h) [n; n]
               (replicate (shapeSize [n; n]) zero) p);
      [|by unfold h1; rewrite lookup_app_r, Nat.sub_diag by lia|done].
    by rewrite lookup_replicate_2. }
  destruct (identity_loop_spec n (length h) n 0 h1
              (replicate (shapeSize [n; n]) zero))
    as (h' & Hloop & Hlen & Hother & Hdiag).
  { lia. }
  { rewrite Hh1. by rewrite lookup_app_r, Nat.sub_diag by lia. }
  { apply length_replicate. }
  exists (contiguous_at (length h) [n; n]), h'.
  split.
  { unfold identity. unfold bind at 1. rewrite Hz.
    unfold bind. by rewrite Hloop. }
  split; [done|]. split.
  { intros l Hl. rewrite Hother by lia. by apply Hp. }
  intros a b Ha Hb. rewrite (Hdiag a b Ha Hb).
  destruct (decide (a = b)) as [->|Hne].
  - rewrite decide_True; [done|lia].
  - rewrite decide_False by tauto. apply Hget. repeat constructor; lia.
Qed.

End CreationFacts.

(** ** [flip] *)

Section FlipFacts.

Context {elt : Type} (undef : elt).

#[local] Abbreviation heap := (heap_of elt) (only parsing).

Implicit Types (h : heap) (a : NdArray).



Lemma zip_with_mul_ones (strd : list Z) :
  zip_with Z.mul strd (replicate (length strd) 1) = strd.
Proof.
  induction strd as [|st strd IH]; [done|]. simpl. rewrite IH. f_equal. lia.
Qed.

Lemma step_axes_ones (shp : list nat) : ∀ (strd : list Z) (off : Z),
  length strd = length shp →
  step_axes shp strd (replicate (length shp) (Some 1)) off
  = Ok (shp, strd, off).
Proof.
  induction shp as [|n shp IH]; intros [|st strd] off Hlen; try done.
  cbn -[Z.mul Z.add Z.sub Z.div Z.abs Z.of_nat Z.to_nat].
  rewrite IH by (simpl in Hlen; lia).
  cbn -[Z.mul Z.add Z.sub Z.div Z.abs Z.of_nat Z.to_nat].
  rewrite ceil_div_unit by done. repeat f_equal. lia.
Qed.

Lemma step_axes_flip (shp : list nat) : ∀ (strd : list Z) (i : nat) (off : Z),
  length strd = length shp → (i < length shp)%nat →
  step_axes shp strd (<[i := Some (-1)]> (replicate (length shp) (Some 1))) off
  = Ok (shp, zip_with Z.mul strd (<[i := -1]> (replicate (length shp) 1)),
        off + default 0 (strd !! i)
              * (Z.of_nat (default 0%nat (shp !! i)) - 1)).
Proof.
  induction shp as [|n shp IH]; intros [|st strd] i off Hlen Hi;
    try (simpl in *; lia).
  simpl in Hlen, Hi. destruct i as [|i].
  - cbn -[Z.mul Z.add Z.sub Z.div Z.abs Z.of_nat Z.to_nat].
    rewrite step_axes_ones by lia.
    cbn -[Z.mul Z.add Z.sub Z.div Z.abs Z.of_nat Z.to_nat].
    rewrite ceil_div_unit by done.
    replace (length shp) with (length strd) by lia.
    by rewrite zip_with_mul_ones.
  - cbn -[Z.mul Z.add Z.sub Z.div Z.abs Z.of_nat Z.to_nat].
    rewrite IH by lia.
    cbn -[Z.mul Z.add Z.sub Z.div Z.abs Z.of_nat Z.to_nat].
    by rewrite ceil_div_unit by done.
Qed.

(** [flip] of a view along one of its axes. *)
Lemma flip_in_range a (axis : Z) h :
  view_wf a → 0 ≤ axis < Z.of_nat (ndim a) →
  flip (ANd a) axis h = (Ok (flip_view (Z.to_nat axis) a), h).
Proof.
  intros Hwf Haxis. unfold flip. unfold bind at 1. cbn [NdArray_new ret].
  unfold bind, lift. unfold add_while_negative_run. cbn [add_while_negative].
  destruct (Z.ltb_spec axis 0) as [?|_]; [lia|].
  unfold js_read, js_write, ones_tolist.
  destruct (Z.ltb_spec axis 0) as [?|_]; [lia|].
  rewrite lookup_replicate_2 by lia. cbn [mjoin option_join mbind option_bind].
  rewrite length_replicate.
  destruct (Z.ltb_spec axis (Z.of_nat (ndim a))) as [_|?]; [|lia].
  unfold step, ndim. unfold view_wf, ndim in *.
  rewrite step_axes_flip by lia.
  reflexivity.
Qed.

Lemma flip_new (x : array_like) (axis : Z) a h h1 :
  NdArray_new x h = (Ok a, h1) → flip x axis h = flip (ANd a) axis h1.
Proof. intros Hnew. unfold flip. unfold bind at 1 3. by rewrite Hnew. Qed.

Lemma dot_index_flip (shp : list nat) : ∀ (strd : list Z) (i : nat) (idx : list nat),
  length strd = length shp → in_bounds idx shp → (i < length shp)%nat →
  dot_index idx (zip_with Z.mul strd (<[i := -1]> (replicate (length shp) 1)))
  + default 0 (strd !! i) * (Z.of_nat (default 0%nat (shp !! i)) - 1)
  = dot_index (reverse_at i shp idx) strd.
Proof.
  induction shp as [|n shp IH]; intros [|st strd] i idx Hlen Hidx Hi;
    try (simpl in *; lia).
  simpl in Hlen, Hi. inversion Hidx as [|j ? idx' ? Hj Hidx']; subst.
  destruct i as [|i].
  - cbn -[Z.mul Z.add Z.sub Z.of_nat].
    replace (length shp) with (length strd) by lia.
    rewrite zip_with_mul_ones.
    replace (Z.of_nat (n - 1 - j)) with (Z.of_nat n - 1 - Z.of_nat j) by lia.
    ring.
  - cbn -[Z.mul Z.add Z.sub Z.of_nat].
    rewrite <- (IH strd i idx') by (done || lia).
    by rewrite Z.mul_1_r, Z.add_assoc.
Qed.

Lemma in_bounds_reverse_at (shp : list nat) : ∀ (i : nat) (idx : list nat),
  in_bounds idx shp → in_bounds (reverse_at i shp idx) shp.
Proof.
  induction shp as [|n shp IH]; intros i idx Hidx.
  - inversion Hidx; subst. destruct i; constructor.
  - inversion Hidx as [|j ? idx' ? Hj Hidx']; subst. destruct i as [|i]; simpl.
    + constructor; [lia|done].
    + constructor; [done|]. by apply IH.
Qed.

Lemma reverse_at_involutive (shp : list nat) : ∀ (i : nat) (idx : list nat),
  in_bounds idx shp → reverse_at i shp (reverse_at i shp idx) = idx.
Proof.
  induction shp as [|n shp IH]; intros i idx Hidx.
  - inversion Hidx; subst. by destruct i.
  - inversion Hidx as [|j ? idx' ? Hj Hidx']; subst. destruct i as [|i]; simpl.
    + f_equal. lia.
    + f_equal. by apply IH.
Qed.

Lemma zip_with_mul_flip_twice (shp : list nat) : ∀ (strd : list Z) (i : nat),
  length strd = length shp → (i < length shp)%nat →
  zip_with Z.mul
    (zip_with Z.mul strd (<[i := -1]> (replicate (length shp) 1)))
    (<[i := -1]> (replicate (length shp) 1)) = strd.
Proof.
  induction shp as [|n shp IH]; intros [|st strd] i Hlen Hi;
    try (simpl in *; lia).
  simpl in Hlen, Hi. destruct i as [|i]; simpl.
  - replace (length shp) with (length strd) by lia.
    rewrite !zip_with_mul_ones. f_equal. lia.
  - rewrite IH by lia. f_equal. lia.
Qed.

Lemma flip_view_involutive (i : nat) a :
  view_wf a → (i < ndim a)%nat → flip_view i (flip_view i a) = a.
Proof.
  destruct a as [d shp strd off]. unfold view_wf, flip_view, ndim. simpl.
  intros Hlen Hi. unfold ndim. simpl.
  rewrite zip_with_mul_flip_twice by done.
  destruct (lookup_lt_is_Some_2 strd i ltac:(lia)) as [st Hst].
  rewrite lookup_zip_with, Hst. simpl.
  rewrite list_lookup_insert_eq by (rewrite length_replicate; lia). simpl.
  f_equal. lia.
Qed.

(** X8: [flip(m, axis)] with [0 <= axis < ndim] returns a view on the same
    buffer, of the same shape, that reads the array with the coordinate on
    that axis mirrored; no buffer changes. *)
Theorem flip_mirrors (x : array_like) a (axis : Z) h h1 :
  NdArray_new x h = (Ok a, h1) →
  view_wf a → 0 ≤ axis < Z.of_nat (ndim a) →
  ∃ r, flip x axis h = (Ok r, h1) ∧
    data r = data a ∧ shape r = shape a ∧
    ∀ idx, in_bounds idx (shape a) →
      get undef h1 r idx
      = get undef h1 a (reverse_at (Z.to_nat axis) (shape a) idx).
Proof.
  intros Hnew Hwf Haxis. exists (flip_view (Z.to_nat axis) a).
  split; [rewrite (flip_new x axis a h h1 Hnew); by apply flip_in_range|].
  split; [done|]. split; [done|].
  intros idx Hidx. unfold get, position. simpl. f_equal.
  unfold ndim in *.
  rewrite <- (dot_index_flip (shape a) (stride a) (Z.to_nat axis) idx)
    by (done || lia).
  lia.
Qed.

(** X9: flipping twice along the same axis gives back the view itself. *)
Theorem flip_twice (x : array_like) a (axis : Z) h h1 :
  NdArray_new x h = (Ok a, h1) →
  view_wf a → 0 ≤ axis < Z.of_nat (ndim a) →
  (let* f := flip x axis in flip (ANd f) axis) h = (Ok a, h1).
Proof.
  intros Hnew Hwf Haxis. unfold bind.
  rewrite (flip_new x axis a h h1 Hnew), flip_in_range by done.
  rewrite flip_in_range.
  - by rewrite flip_view_involutive by (done || lia).
  - unfold view_wf, flip_view. simpl. unfold view_wf in Hwf.
    rewrite length_zip_with, length_insert, length_replicate. unfold ndim. lia.
  - done.
Qed.

(** X10: an axis beyond the last one is a [ValueError]; the buffers stay
    as [NdArray.new] left them. *)
Theorem flip_axis_too_large (x : array_like) a (axis : Z) h h1 :
  NdArray_new x h = (Ok a, h1) →
  Z.of_nat (ndim a) ≤ axis →
  flip x axis h = (Throw ValueError, h1).
Proof.
  intros Hnew Haxis. rewrite (flip_new x axis a h h1 Hnew).
  unfold flip. unfold bind at 1. cbn [NdArray_new ret].
  unfold bind, lift. unfold add_while_negative_run. cbn [add_while_negative].
  destruct (Z.ltb_spec axis 0) as [?|_]; [lia|].
  unfold js_read, ones_tolist.
  destruct (Z.ltb_spec axis 0) as [?|_]; [lia|].
  assert (Hnone : replicate (ndim a) (Some 1) !! Z.to_nat axis = None).
  { apply lookup_replicate_None. lia. }
  by rewrite Hnone.
Qed.


(** X12: on an array without axes a negative axis is never normalised:
    the loop adds 0 for ever and the call does not return. *)
Theorem flip_negative_axis_no_axes (x : array_like) a (axis : Z) h h1 :
  NdArray_new x h = (Ok a, h1) →
  axis < 0 → ndim a = 0%nat →
  flip x axis h = (Diverge, h1) ∧
  ∀ fuel, add_while_negative fuel axis (Z.of_nat (ndim a)) = None.
Proof.
  intros Hnew Haxis Hdim.
  assert (Hdiv : add_while_negative_run axis (Z.of_nat (ndim a)) = Diverge).
  { rewrite Hdim. apply add_while_negative_diverges. intros fuel.
    revert axis Haxis.
    induction fuel as [|fuel IH]; intros axis Haxis; [done|]. simpl.
    destruct (Z.ltb_spec axis 0); [|lia]. apply IH. lia. }
  split; [|by apply add_while_negative_diverges].
  rewrite (flip_new x axis a h h1 Hnew).
  unfold flip. unfold bind at 1. cbn [NdArray_new ret].
  unfold bind, lift. by rewrite Hdiv.
Qed.

End FlipFacts.

Lemma flip_mirrors_witness :
  ∃ r, flip (ALit (JArr [JNum 1%Z; JNum 2%Z; JNum 3%Z])) 0 ([] : list (list Z))
       = (Ok r, [[1; 2; 3]]) ∧
    data r = 0%nat ∧ shape r = [3%nat] ∧
    ∀ idx, in_bounds idx [3%nat] →
      get 0 [[1; 2; 3]] r idx
      = get 0 [[1; 2; 3]] (contiguous_at 0 [3%nat]) (reverse_at 0 [3%nat] idx).
Proof.
  apply (flip_mirrors 0 (ALit (JArr [JNum 1; JNum 2; JNum 3]))
           (contiguous_at 0 [3%nat]) 0 [] [[1; 2; 3]]).
  - reflexivity.
  - reflexivity.
  - unfold ndim. simpl. lia.
Defined.

Lemma flip_twice_witness :
  (let* f := flip (ALit (JArr [JNum 1%Z; JNum 2%Z; JNum 3%Z])) 0 in
   flip (ANd f) 0) ([] : list (list Z))
  = (Ok (contiguous_at 0 [3%nat]), [[1; 2; 3]]).
Proof.
  apply (flip_twice (ALit (JArr [JNum 1; JNum 2; JNum 3]))
           (contiguous_at 0 [3%nat]) 0 [] [[1; 2; 3]]).
  - reflexivity.
  - reflexivity.
  - unfold ndim. simpl. lia.
Defined.

Lemma flip_axis_too_large_witness :
  flip (ALit (JArr [JNum 1%Z; JNum 2%Z])) 1 ([] : list (list Z))
  = (Throw ValueError, [[1; 2]]).
Proof.
  apply (flip_axis_too_large (ALit (JArr [JNum 1; JNum 2]))
           (contiguous_at 0 [2%nat]) 1 [] [[1; 2]]).
  - reflexivity.
  - unfold ndim. simpl. lia.
Defined.


Lemma flip_negative_axis_no_axes_witness :
  flip (ANd (mkNdArray 0 [] [] 0)) (-1) [[5]] = (Diverge, [[5]]) ∧
  ∀ fuel, add_while_negative fuel (-1) (Z.of_nat 0) = None.
Proof.
  apply (flip_negative_axis_no_axes (ANd (mkNdArray 0 [] [] 0))
           (mkNdArray 0 [] [] 0) (-1) [[5]] [[5]]).
  - reflexivity.
  - lia.
  - reflexivity.
Defined.

(** ** [rot90] *)

Section Rot90More.

Context {elt : Type} (undef : elt).

#[local] Abbreviation heap := (heap_of elt) (only parsing).

Implicit Types (h : heap) (a : NdArray).


Lemma rot90_2d_half (d r c : nat) (s0 s1 o : Z) h :
  rot90 (ANd (mkNdArray d [r; c] [s0; s1] o)) (Some 2) None h =
  (@Ok NdArray (mkNdArray d [r; c] [- s0; - s1]
                  (o + s0 * (Z.of_nat r - 1) + s1 * (Z.of_nat c - 1))), h).
Proof.
  unfold rot90. cbn [js_or]. change (2 =? 0) with false. cbv iota.
  change (add_while_negative_run 2 4) with (@Ok Z 2).
  unfold bind at 1. unfold lift at 1. cbv iota beta.
  change (Z.rem 2 4) with 2.
  unfold bind at 1. cbn [NdArray_new ret].
  cbn [default length negb Nat.eqb].
  change (default 0 ([0; 1] !! 0%nat)) with 0.
  change (default 0 ([0; 1] !! 1%nat)) with 1.
  cbn [ndim shape length scalar_ndim Nat.eqb orb].
  change (0 =? 1) with false. change (2 =? 0) with false.
  change (2 =? 2) with true. cbv iota. cbn [orb]. cbv iota.
  unfold bind.
  rewrite flip_in_range by (done || (unfold ndim; simpl; lia)).
  rewrite flip_in_range by (done || (unfold ndim; simpl; lia)).
  unfold flip_view, ndim. simpl. repeat (f_equal; try lia).
Qed.

Lemma rot90_2d_three (d r c : nat) (s0 s1 o : Z) (k : Z) h :
  k = 3 ∨ k = -1 →
  rot90 (ANd (mkNdArray d [r; c] [s0; s1] o)) (Some k) None h =
  (@Ok NdArray (mkNdArray d [c; r] [s1; - s0] (o + s0 * (Z.of_nat r - 1))), h).
Proof.
  intros Hk. unfold rot90.
  assert (Hrun : add_while_negative_run (js_or (Some k) 1) 4 = Ok 3).
  { by destruct Hk as [-> | ->]. }
  rewrite Hrun.
  unfold bind at 1. unfold lift at 1. cbv iota beta.
  change (Z.rem 3 4) with 3.
  unfold bind at 1. cbn [NdArray_new ret].
  cbn [default length negb Nat.eqb].
  change (default 0 ([0; 1] !! 0%nat)) with 0.
  change (default 0 ([0; 1] !! 1%nat)) with 1.
  cbn [ndim shape length scalar_ndim Nat.eqb orb].
  change (0 =? 1) with false. change (3 =? 0) with false.
  change (3 =? 2) with false. change (3 =? 1) with false. cbv iota. cbn [orb].
  cbv iota.
  change (arange_tolist 2) with (@Ok (list (option Z)) [Some 0; Some 1]).
  unfold bind at 1. unfold lift at 1. cbv iota beta.
  change (js_write (js_write [Some 0; Some 1] 0 (js_read [Some 0; Some 1] 1)) 1
            (js_read [Some 0; Some 1] 0)) with [Some 1; Some 0].
  unfold bind. rewrite transpose_2d_swap.
  rewrite flip_in_range by (done || (unfold ndim; simpl; lia)).
  unfold flip_view, ndim. simpl. repeat (f_equal; try lia).
Qed.

Lemma rot90_2d_quarter (d r c : nat) (s0 s1 o : Z) h :
  rot90 (ANd (mkNdArray d [r; c] [s0; s1] o)) None None h =
  (@Ok NdArray (mkNdArray d [c; r] [- s1; s0] (o + s1 * (Z.of_nat c - 1))), h).
Proof. rewrite rot90_default_2d. repeat (f_equal; try lia). Qed.

(** X13: one default quarter turn of a two-dimensional array with [r] rows
    and [c] columns is a view on the same buffer with [c] rows and [r]
    columns; its element [(i, j)] is the element [(j, c - 1 - i)] of the
    array.  No buffer changes. *)
Theorem rot90_quarter_turn_elements (x : array_like) a (r c : nat) h h1 :
  NdArray_new x h = (Ok a, h1) →
  shape a = [r; c] → view_wf a →
  ∃ q, rot90 x None None h = (Ok q, h1) ∧
    data q = data a ∧ shape q = [c; r] ∧
    ∀ i j : nat, (i < c)%nat → (j < r)%nat →
      get undef h1 q [i; j] = get undef h1 a [j; (c - 1 - i)%nat].
Proof.
  intros Hnew Hshape Hwf.
  destruct a as [d shp str o]. unfold view_wf in Hwf. simpl in Hshape, Hwf.
  subst shp. destruct str as [|s0 [|s1 [|? ?]]]; try done.
  eexists. split.
  { rewrite (rot90_new x None None _ h h1 Hnew). apply rot90_2d_quarter. }
  split; [done|]. split; [done|].
  intros i j Hi Hj. unfold get, position. simpl. f_equal.
  replace (Z.of_nat (c - 1 - i)) with (Z.of_nat c - 1 - Z.of_nat i) by lia.
  ring.
Qed.


(** X15: on a two-dimensional array [rot90(m, 2)] is two default quarter
    turns and [rot90(m, 3)] is three. *)
Theorem rot90_turns_compose (x : array_like) a h h1 :
  NdArray_new x h = (Ok a, h1) →
  ndim a = 2%nat → view_wf a →
  rot90 x (Some 2) None h
  = (let* r1 := rot90 x None None in rot90 (ANd r1) None None) h ∧
  rot90 x (Some 3) None h
  = (let* r1 := rot90 x None None in
     let* r2 := rot90 (ANd r1) None None in
     rot90 (ANd r2) None None) h.
Proof.
  intros Hnew Hdim Hwf.
  destruct a as [d shp str o]. unfold ndim, view_wf in *. simpl in Hdim, Hwf.
  destruct shp as [|r [|c [|? ?]]]; try done.
  destruct str as [|s0 [|s1 [|? ?]]]; try done.
  unfold bind. rewrite !(rot90_new x _ None _ h h1 Hnew).
  rewrite rot90_2d_half, (rot90_2d_three d r c s0 s1 o 3) by tauto.
  rewrite !rot90_2d_quarter.
  split; repeat (f_equal; try lia).
Qed.

(** X16: a quarter turn followed by [rot90(., -1)] gives back the view
    itself, and so does [rot90(., -1)] followed by a quarter turn. *)
Theorem rot90_inverse (x : array_like) a h h1 :
  NdArray_new x h = (Ok a, h1) →
  ndim a = 2%nat → view_wf a →
  (let* q := rot90 x None None in rot90 (ANd q) (Some (-1)) None) h
  = (Ok a, h1) ∧
  (let* q := rot90 x (Some (-1)) None in rot90 (ANd q) None None) h
  = (Ok a, h1).
Proof.
  intros Hnew Hdim Hwf.
  destruct a as [d shp str o]. unfold ndim, view_wf in *. simpl in Hdim, Hwf.
  destruct shp as [|r [|c [|? ?]]]; try done.
  destruct str as [|s0 [|s1 [|? ?]]]; try done.
  unfold bind. rewrite !(rot90_new x _ None _ h h1 Hnew).
  rewrite rot90_2d_quarter, (rot90_2d_three d c r _ _ _ (-1)) by tauto.
  rewrite (rot90_2d_three d r c s0 s1 o (-1)), rot90_2d_quarter by tauto.
  split; repeat (f_equal; try lia).
Qed.


End Rot90More.

Lemma rot90_quarter_turn_elements_witness :
  ∃ q, rot90 (ALit (JArr [JArr [JNum 1; JNum 2; JNum 3];
                          JArr [JNum 4; JNum 5; JNum 6]])) None None
         ([] : list (list Z)) = (Ok q, [[1; 2; 3; 4; 5; 6]]) ∧
    data q = 0%nat ∧ shape q = [3%nat; 2%nat] ∧
    ∀ i j : nat, (i < 3)%nat → (j < 2)%nat →
      get 0 [[1; 2; 3; 4; 5; 6]] q [i; j]
      = get 0 [[1; 2; 3; 4; 5; 6]] (contiguous_at 0 [2%nat; 3%nat])
          [j; (3 - 1 - i)%nat].
Proof.
  apply (rot90_quarter_turn_elements 0
           (ALit (JArr [JArr [JNum 1; JNum 2; JNum 3];
                        JArr [JNum 4; JNum 5; JNum 6]]))
           (contiguous_at 0 [2%nat; 3%nat]) 2 3 [] [[1; 2; 3; 4; 5; 6]]).
  - reflexivity.
  - reflexivity.
  - reflexivity.
Defined.


Lemma rot90_turns_compose_witness :
  rot90 (ALit (JArr [JArr [JNum 1; JNum 2]; JArr [JNum 3; JNum 4]]))
    (Some 2) None ([] : list (list Z))
  = (let* r1 := rot90 (ALit (JArr [JArr [JNum 1; JNum 2];
                                   JArr [JNum 3; JNum 4]])) None None in
     rot90 (ANd r1) None None) [] ∧
  rot90 (ALit (JArr [JArr [JNum 1; JNum 2]; JArr [JNum 3; JNum 4]]))
    (Some 3) None ([] : list (list Z))
  = (let* r1 := rot90 (ALit (JArr [JArr [JNum 1; JNum 2];
                                   JArr [JNum 3; JNum 4]])) None None in
     let* r2 := rot90 (ANd r1) None None in
     rot90 (ANd r2) None None) [].
Proof.
  apply (rot90_turns_compose
           (ALit (JArr [JArr [JNum 1; JNum 2]; JArr [JNum 3; JNum 4]]))
           (contiguous_at 0 [2%nat; 2%nat]) [] [[1; 2; 3; 4]]).
  - reflexivity.
  - reflexivity.
  - reflexivity.
Defined.

Lemma rot90_inverse_witness :
  (let* q := rot90 (ALit (JArr [JArr [JNum 1; JNum 2];
                                JArr [JNum 3; JNum 4]])) None None in
   rot90 (ANd q) (Some (-1)) None) ([] : list (list Z))
  = (Ok (contiguous_at 0 [2%nat; 2%nat]), [[1; 2; 3; 4]]) ∧
  (let* q := rot90 (ALit (JArr [JArr [JNum 1; JNum 2];
                                JArr [JNum 3; JNum 4]])) (Some (-1)) None in
   rot90 (ANd q) None None) ([] : list (list Z))
  = (Ok (contiguous_at 0 [2%nat; 2%nat]), [[1; 2; 3; 4]]).
Proof.
  apply (rot90_inverse
           (ALit (JArr [JArr [JNum 1; JNum 2]; JArr [JNum 3; JNum 4]]))
           (contiguous_at 0 [2%nat; 2%nat]) [] [[1; 2; 3; 4]]).
  - reflexivity.
  - reflexivity.
  - reflexivity.
Defined.


(** ** Element-wise operations *)

Section UnaryMore.

Context {elt : Type} (undef : elt).

#[local] Abbreviation heap := (heap_of elt) (only parsing).

Implicit Types (h : heap) (a : NdArray).

Lemma length_flatten_has_shape (s : list nat) : ∀ v : @jsval elt,
  has_shape s v = true → length (flatten v) = shapeSize s.
Proof.
  induction s as [|n s IH]; intros v Hv.
  - apply has_shape_nil in Hv as (x & ->). done.
  - apply has_shape_cons in Hv as (l & -> & <- & Hall). simpl.
    induction Hall as [|x l Hx Hall IHl]; [done|]. simpl.
    rewrite length_app, IHl, (IH x Hx). done.
Qed.

(** What [NdArray.new] makes of a literal: a contiguous view on a buffer
    of its own, which holds one element for each index. *)
Lemma NdArray_new_literal (v : jsval) a h h1 :
  NdArray_new (ALit v) h = (Ok a, h1) →
  ∃ (buf : list elt) (s : list nat),
    a = contiguous_at (length h) s ∧ h1 = h ++ [buf] ∧
    length buf = shapeSize s.
Proof.
  destruct v as [n|l|]; simpl.
  - intros [= <- <-]. by exists [n], [1%nat].
  - destruct (regular (JArr l)) eqn:Hreg; [|done]. intros [= <- <-].
    exists (flatten (JArr l)), (getShape (JArr l)).
    split; [done|]. split; [done|].
    by apply length_flatten_has_shape.
  - done.
Qed.

Lemma insert_alloc {A} (l : list A) (x y : A) :
  <[length l := y]> (l ++ [x]) = l ++ [y].
Proof.
  rewrite insert_app_r_alt by lia. by rewrite Nat.sub_diag.
Qed.

(** The elements of a contiguous view are its buffer. *)
Lemma elements_contiguous h (l : nat) (s : list nat) (buf : list elt) :
  h !! l = Some buf → length buf = shapeSize s →
  get undef h (contiguous_at l s) <$> indices s = buf.
Proof.
  intros Hl Hlen. apply list_eq. intros p. rewrite list_lookup_fmap.
  destruct (indices s !! p) as [idx|] eqn:Hp; simpl.
  - rewrite (get_contiguous undef h l s buf p idx Hl Hp).
    apply lookup_lt_Some in Hp. rewrite length_indices in Hp.
    destruct (lookup_lt_is_Some_2 buf p ltac:(lia)) as [x ->]. done.
  - apply lookup_ge_None in Hp. rewrite length_indices in Hp.
    symmetry. apply lookup_ge_None. lia.
Qed.

(** A method that works on a copy: the result is a contiguous view on a
    new buffer that holds [f] of each element. *)
Lemma unary_method_buffer (f : elt → elt) (x : array_like) h a h1 :
  NdArray_new x h = (Ok a, h1) →
  unary_method undef f x h
  = (Ok (contiguous_at (length h1) (shape a)),
     h1 ++ [f <$> (get undef h1 a <$> indices (shape a))]).
Proof.
  intros Hnew. unfold unary_method. unfold bind at 1. rewrite Hnew.
  unfold bind. rewrite clone_eq.
  change (mkNdArray (length h1) (shape a) (row_major (shape a)) 0)
    with (contiguous_at (length h1) (shape a)).
  rewrite (cwise_contiguous undef f _ _ _ (get undef h1 a <$> indices (shape a))).
  - by rewrite insert_alloc.
  - by rewrite lookup_app_r, Nat.sub_diag by lia.
  - by rewrite length_fmap, length_indices.
Qed.

(** The operations that copy (or build) the array and then apply an
    operator in place: the result holds [f] of each element. *)
Lemma unary_in_place_elements (f : elt → elt) (x : array_like) h a h1 :
  NdArray_new x h = (Ok a, h1) →
  ∃ r h', unary_in_place undef f x h = (Ok r, h') ∧
    shape r = shape a ∧ preserves h h' ∧
    ∀ idx, in_bounds idx (shape a) →
      get undef h' r idx = f (get undef h1 a idx).
Proof.
  intros Hnew. unfold unary_in_place. destruct x as [v|a0].
  - assert (Hcn : clone_or_new undef (ALit v) = NdArray_new (ALit v))
      by (by destruct v).
    rewrite Hcn. clear Hcn.
    destruct (NdArray_new_literal v a h h1 Hnew) as (buf & s & -> & -> & Hlen).
    assert (Hl : (h ++ [buf]) !! length h = Some buf).
    { by rewrite lookup_app_r, Nat.sub_diag by lia. }
    unfold bind at 1. rewrite Hnew. unfold bind.
    rewrite (cwise_contiguous undef f _ _ _ buf Hl Hlen), insert_alloc.
    eexists _, _. split; [reflexivity|]. split; [done|].
    split; [apply preserves_alloc|].
    intros idx Hidx. simpl in Hidx. apply indices_in_bounds in Hidx.
    apply list_elem_of_lookup in Hidx as [p Hp].
    rewrite (get_contiguous undef _ (length h) s (f <$> buf) p idx);
      [|by rewrite lookup_app_r, Nat.sub_diag by lia|done].
    rewrite (get_contiguous undef _ (length h) s buf p idx Hl Hp).
    apply lookup_lt_Some in Hp. rewrite length_indices in Hp.
    destruct (lookup_lt_is_Some_2 buf p ltac:(lia)) as [y Hy].
    by rewrite list_lookup_fmap, Hy.
  - simpl in Hnew. injection Hnew as <- <-. unfold clone_or_new.
    destruct (clone_cwise undef f a0 h) as (h' & Hrun & _ & Hp & Hget).
    rewrite Hrun. eexists _, _. split; [reflexivity|]. repeat split; done.
Qed.

End UnaryMore.

Section RealMore.

#[local] Abbreviation heap := (heap_of R) (only parsing).

Variable undef : R.

Implicit Types (h : heap) (a : NdArray).

#[local] Open Scope R_scope.

(** The body of [doTanh] is the hyperbolic tangent. *)
Lemma tanhCwise_tanh (u : R) : tanhCwise u = Rtrigo_def.tanh u.
Proof.
  unfold tanhCwise, Rtrigo_def.tanh, sinh, cosh.
  replace (2 * u) with (u + u) by ring.
  rewrite exp_plus, exp_Ropp.
  pose proof (exp_pos u) as He. generalize dependent (Rtrigo_def.exp u).
  intros e He. field. repeat split; nra.
Qed.

(** X18: over the real numbers (the rounding, the overflow and the NaN of
    doubles are not modelled), on an argument that is an [NdArray] or given
    by value, each of [abs], [sin], [cos] and [arctan] returns a new array
    of the argument's shape whose element at each index is the absolute
    value, the sine, the cosine, the arc tangent of the argument's element
    at that index; so do [tan] where the cosine of no element is 0,
    [arcsin] and [arccos] where every element lies between -1 and 1, and
    [tanh], whose body [(exp(2x) - 1) / (exp(2x) + 1)] is the hyperbolic
    tangent, where every element is at most 350 in absolute value.  The
    buffers that were there are unchanged. *)
Theorem unary_elements :
  maps_elements undef (abs undef) Rabs (λ _, True) ∧
  maps_elements undef (sin undef) Rtrigo_def.sin (λ _, True) ∧
  maps_elements undef (cos undef) Rtrigo_def.cos (λ _, True) ∧
  maps_elements undef (arctan undef) Ratan.atan (λ _, True) ∧
  maps_elements undef (tan undef) Rtrigo1.tan (λ u, Rtrigo_def.cos u ≠ 0) ∧
  maps_elements undef (arcsin undef) Ratan.asin (λ u, -1 <= u <= 1) ∧
  maps_elements undef (arccos undef) Ratan.acos (λ u, -1 <= u <= 1) ∧
  maps_elements undef (tanh undef) Rtrigo_def.tanh (λ u, Rabs u <= 350).
Proof.
  assert (Hi : ∀ f dom, maps_elements undef (unary_in_place undef f) f dom).
  { intros f dom x h a h1 Hnew _.
    exact (unary_in_place_elements undef f x h a h1 Hnew). }
  repeat split; try apply Hi.
  intros x h a h1 Hnew Hdom.
  destruct (Hi tanhCwise (λ _, True) x h a h1 Hnew ltac:(done))
    as (r & h' & Hrun & Hs & Hp & Hget).
  exists r, h'. split; [done|]. split; [done|]. split; [done|].
  intros idx Hidx. by rewrite (Hget idx Hidx), tanhCwise_tanh.
Qed.


(** X20: the bounds left out in [clip(x)] and [clip(x, min)] are 0 and 1;
    when [min] is above [max], every element of the result is [max]. *)
Theorem clip_defaults_and_crossed_bounds (x : array_like) (min max : R) h a h1 :
  NdArray_new x h = (Ok a, h1) →
  max < min →
  clip undef x ClipNone h = clip undef x (ClipMinMax 0 1) h ∧
  clip undef x (ClipMin min) h = clip undef x (ClipMinMax min 1) h ∧
  ∃ r h', clip undef x (ClipMinMax min max) h = (Ok r, h') ∧
    ∀ idx, in_bounds idx (shape a) → get undef h' r idx = max.
Proof.
  intros Hnew Hlt. split; [done|]. split; [done|]. unfold clip.
  destruct (unary_in_place_elements undef (λ u, clipCwise u min max) x h a h1 Hnew)
    as (r & h' & Hrun & Hs & Hp & Hget).
  exists r, h'. split; [done|].
  intros idx Hidx. rewrite (Hget idx Hidx). unfold clipCwise.
  unfold Rmin, Rmax. repeat (destruct Rle_dec); lra.
Qed.


(** X22: every element of [sigmoid(x, t)] lies between 0 and 1. *)
Theorem sigmoid_range (x : array_like) (t : option R) h a h1 :
  NdArray_new x h = (Ok a, h1) →
  ∃ r h', sigmoid undef x t h = (Ok r, h') ∧
    ∀ idx, in_bounds idx (shape a) → 0 <= get undef h' r idx <= 1.
Proof.
  intros Hnew. rewrite sigmoid_unfold.
  destruct (unary_method_elements undef (λ u, sigmoidCwise u (js_or_R t 1))
              x h a h1 Hnew) as (r & h' & Hrun & Hs & _ & Hget).
  exists r, h'. split; [done|].
  intros idx Hidx. rewrite (Hget idx Hidx). unfold sigmoidCwise.
  destruct Rlt_dec; [lra|]. destruct Rgt_dec; [lra|].
  set (e := Rtrigo_def.exp _).
  assert (He : 0 < e) by apply exp_pos.
  split.
  - apply Rlt_le. apply Rdiv_lt_0_compat; lra.
  - apply (Rmult_le_reg_r (1 + e)); [lra|].
    unfold Rdiv. rewrite Rmult_assoc, Rinv_l by lra. lra.
Qed.

(** X23: [negative] undoes itself: the elements of
    [negative(negative(x))] are those of [x]. *)
Theorem negative_twice (x : array_like) h a h1 :
  NdArray_new x h = (Ok a, h1) →
  ∃ r h', (let* n := negative undef x in negative undef (ANd n)) h = (Ok r, h') ∧
    shape r = shape a ∧ preserves h1 h' ∧
    ∀ idx, in_bounds idx (shape a) →
      get undef h' r idx = get undef h1 a idx.
Proof.
  intros Hnew. unfold negative.
  destruct (unary_method_elements undef Ropp x h a h1 Hnew)
    as (r1 & h2 & Hrun1 & Hs1 & Hp1 & Hget1).
  destruct (unary_method_elements undef Ropp (ANd r1) h2 r1 h2 eq_refl)
    as (r & h' & Hrun & Hs & Hp & Hget).
  exists r, h'. split.
  { unfold bind. by rewrite Hrun1. }
  split; [congruence|]. split.
  { intros l Hl. rewrite Hp; [by apply Hp1|].
    assert (length h1 ≤ length h2)%nat; [|lia].
    destruct (decide (length h1 ≤ length h2)%nat) as [?|Hn]; [done|].
    destruct h1 as [|b h1]; [simpl in *; lia|].
    pose proof (Hp1 (length h1) ltac:(simpl; lia)) as Hlast.
    assert (is_Some ((b :: h1) !! length h1)) as [y Hy].
    { apply lookup_lt_is_Some. simpl. lia. }
    rewrite Hy in Hlast. apply lookup_lt_Some in Hlast. simpl in *. lia. }
  intros idx Hidx. rewrite Hget by (by rewrite Hs1).
  rewrite Hget1 by done. apply Ropp_involutive.
Qed.

Lemma foldl_Rplus_div (c : R) (l : list R) : ∀ acc : R,
  foldl Rplus (acc / c) ((λ v, v / c) <$> l) = foldl Rplus acc l / c.
Proof.
  induction l as [|y l IH]; intros acc; [done|]. simpl.
  rewrite <- IH. f_equal. unfold Rdiv. ring.
Qed.

Lemma foldl_Rplus_pos (l : list R) : ∀ acc : R,
  0 <= acc → Forall (λ v, 0 < v) l → l ≠ [] → 0 < foldl Rplus acc l.
Proof.
  induction l as [|y l IH]; intros acc Hacc Hall Hne; [done|].
  apply Forall_cons_1 in Hall as [Hy Hall]. simpl.
  destruct l as [|z l]; [simpl; lra|].
  apply IH; [lra|done|done].
Qed.

(** [softmax] run to its result. *)
Lemma softmax_run (x : array_like) h a h1 :
  NdArray_new x h = (Ok a, h1) →
  let xs := get undef h1 a <$> indices (shape a) in
  let se := foldl Rplus 0 (Rtrigo_def.exp <$> xs) in
  softmax undef x h
  = (Ok (contiguous_at (length h1) (shape a)),
     h1 ++ [(λ v, v / se) <$> (Rtrigo_def.exp <$> xs)]).
Proof.
  intros Hnew xs se. unfold softmax, exp. unfold bind at 1.
  rewrite (unary_method_buffer undef _ x h a h1 Hnew). fold xs.
  assert (Hl : (h1 ++ [Rtrigo_def.exp <$> xs]) !! length h1
               = Some (Rtrigo_def.exp <$> xs)).
  { by rewrite lookup_app_r, Nat.sub_diag by lia. }
  assert (Hlen : length (Rtrigo_def.exp <$> xs) = shapeSize (shape a)).
  { unfold xs. by rewrite !length_fmap, length_indices. }
  unfold bind at 1. unfold NdArray_sum.
  change (shape (contiguous_at (length h1) (shape a))) with (shape a).
  rewrite (elements_contiguous undef _ _ _ _ Hl Hlen). fold se.
  unfold bind.
  rewrite (cwise_contiguous undef _ _ _ _ _ Hl Hlen).
  by rewrite insert_alloc.
Qed.

(** X24: over the real numbers (the rounding and the overflow of doubles
    are not modelled: every [exp(x_j)] and their sum are taken as the real
    numbers they stand for), on an argument that is an [NdArray] or given by
    value, [softmax(x)] returns a new array of the shape of [x] whose
    element at each index is [exp(x_i)] divided by the sum of [exp(x_j)]
    over all elements, the sum being taken before any element is divided;
    the buffers that were there are unchanged. *)
Theorem softmax_elements (x : array_like) h a h1 :
  NdArray_new x h = (Ok a, h1) →
  ∃ r h', softmax undef x h = (Ok r, h') ∧
    shape r = shape a ∧ preserves h1 h' ∧
    ∀ idx, in_bounds idx (shape a) →
      get undef h' r idx
      = Rtrigo_def.exp (get undef h1 a idx)
        / foldl Rplus 0 (Rtrigo_def.exp <$> all_elements undef h1 a).
Proof.
  intros Hnew. unfold all_elements.
  set (xs := get undef h1 a <$> indices (shape a)).
  set (se := foldl Rplus 0 (Rtrigo_def.exp <$> xs)).
  exists (contiguous_at (length h1) (shape a)),
    (h1 ++ [(λ v, v / se) <$> (Rtrigo_def.exp <$> xs)]).
  split; [by apply softmax_run|].
  split; [done|]. split; [apply preserves_alloc|].
  intros idx Hidx. apply indices_in_bounds in Hidx.
  apply list_elem_of_lookup in Hidx as [p Hp].
  rewrite (get_contiguous undef _ (length h1) (shape a)
             ((λ v, v / se) <$> (Rtrigo_def.exp <$> xs)) p idx);
    [|by rewrite lookup_app_r, Nat.sub_diag by lia|done].
  unfold xs. by rewrite !list_lookup_fmap, Hp.
Qed.

(** X25: over the real numbers (rounding of doubles apart), the elements
    of [softmax(x)] are positive and, for an array with at least one
    element, add up to 1. *)
Theorem softmax_sums_to_one (x : array_like) h a h1 :
  NdArray_new x h = (Ok a, h1) →
  shapeSize (shape a) ≠ 0%nat →
  ∃ r h', softmax undef x h = (Ok r, h') ∧
    Forall (λ v, 0 < v) (all_elements undef h' r) ∧
    foldl Rplus 0 (all_elements undef h' r) = 1.
Proof.
  intros Hnew Hne.
  set (xs := get undef h1 a <$> indices (shape a)).
  set (se := foldl Rplus 0 (Rtrigo_def.exp <$> xs)).
  exists (contiguous_at (length h1) (shape a)),
    (h1 ++ [(λ v, v / se) <$> (Rtrigo_def.exp <$> xs)]).
  split; [by apply softmax_run|].
  unfold all_elements.
  change (shape (contiguous_at (length h1) (shape a))) with (shape a).
  rewrite (elements_contiguous undef _ (length h1) (shape a)
             ((λ v, v / se) <$> (Rtrigo_def.exp <$> xs)));
    [|by rewrite lookup_app_r, Nat.sub_diag by lia
     |unfold xs; by rewrite !length_fmap, length_indices].
  assert (Hpos : Forall (λ v, 0 < v) (Rtrigo_def.exp <$> xs)).
  { apply list.Forall_fmap, list.Forall_forall. intros v _. apply exp_pos. }
  assert (Hse : 0 < se).
  { apply foldl_Rplus_pos; [lra|done|].
    intros Hnil. apply (f_equal length) in Hnil.
    unfold xs in Hnil. rewrite !length_fmap, length_indices in Hnil. done. }
  split.
  - apply list.Forall_fmap. eapply list.Forall_impl; [exact Hpos|].
    intros v Hv. simpl. by apply Rdiv_lt_0_compat.
  - replace 0 with (0 / se) at 1 by (unfold Rdiv; ring).
    rewrite foldl_Rplus_div. fold se. unfold Rdiv. apply Rinv_r. lra.
Qed.

End RealMore.

Lemma unary_elements_witness :
  ∃ r h', tanh 0%R (ALit (JArr [JNum 1%R; JNum (-2)%R])) [] = (Ok r, h') ∧
    shape r = [2%nat] ∧ preserves [] h' ∧
    ∀ idx, in_bounds idx [2%nat] →
      get 0%R h' r idx
      = Rtrigo_def.tanh (get 0%R [[1%R; (-2)%R]] (contiguous_at 0 [2%nat]) idx).
Proof.
  destruct (unary_elements 0%R) as (_ & _ & _ & _ & _ & _ & _ & Htanh).
  apply (Htanh (ALit (JArr [JNum 1%R; JNum (-2)%R]))
           [] (contiguous_at 0 [2%nat]) [[1%R; (-2)%R]]).
  - reflexivity.
  - intros idx Hidx. unfold in_bounds in Hidx. cbn [shape contiguous_at] in Hidx.
    apply Forall2_cons_inv_r in Hidx as (i & idx' & Hi & Hnil & ->).
    apply Forall2_nil_inv_r in Hnil as ->.
    destruct i as [|[|i]]; [| |lia]; vm_compute;
      unfold Rabs; destruct Rcase_abs; lra.
Defined.


Lemma clip_defaults_and_crossed_bounds_witness :
  clip 0%R (ALit (JArr [JNum 1%R; JNum (-2)%R])) ClipNone []
  = clip 0%R (ALit (JArr [JNum 1%R; JNum (-2)%R])) (ClipMinMax 0%R 1%R) [] ∧
  clip 0%R (ALit (JArr [JNum 1%R; JNum (-2)%R])) (ClipMin 3%R) []
  = clip 0%R (ALit (JArr [JNum 1%R; JNum (-2)%R])) (ClipMinMax 3%R 1%R) [] ∧
  ∃ r h', clip 0%R (ALit (JArr [JNum 1%R; JNum (-2)%R])) (ClipMinMax 3%R 2%R) []
          = (Ok r, h') ∧
    ∀ idx, in_bounds idx [2%nat] → get 0%R h' r idx = 2%R.
Proof.
  apply (clip_defaults_and_crossed_bounds 0%R
           (ALit (JArr [JNum 1%R; JNum (-2)%R])) 3%R 2%R
           [] (contiguous_at 0 [2%nat]) [[1%R; (-2)%R]]).
  - reflexivity.
  - lra.
Defined.


Lemma sigmoid_range_witness :
  ∃ r h', sigmoid 0%R (ALit (JArr [JNum 1%R; JNum (-2)%R])) None [] = (Ok r, h') ∧
    ∀ idx, in_bounds idx [2%nat] → (0 <= get 0%R h' r idx <= 1)%R.
Proof.
  apply (sigmoid_range 0%R (ALit (JArr [JNum 1%R; JNum (-2)%R])) None
           [] (contiguous_at 0 [2%nat]) [[1%R; (-2)%R]]).
  reflexivity.
Defined.

Lemma negative_twice_witness :
  ∃ r h', (let* n := negative 0%R (ALit (JArr [JNum 1%R; JNum (-2)%R])) in
           negative 0%R (ANd n)) [] = (Ok r, h') ∧
    shape r = [2%nat] ∧ preserves [[1%R; (-2)%R]] h' ∧
    ∀ idx, in_bounds idx [2%nat] →
      get 0%R h' r idx = get 0%R [[1%R; (-2)%R]] (contiguous_at 0 [2%nat]) idx.
Proof.
  apply (negative_twice 0%R (ALit (JArr [JNum 1%R; JNum (-2)%R]))
           [] (contiguous_at 0 [2%nat]) [[1%R; (-2)%R]]).
  reflexivity.
Defined.

Lemma softmax_elements_witness :
  ∃ r h', softmax 0%R (ALit (JArr [JNum 1%R; JNum (-2)%R])) [] = (Ok r, h') ∧
    shape r = [2%nat] ∧ preserves [[1%R; (-2)%R]] h' ∧
    ∀ idx, in_bounds idx [2%nat] →
      get 0%R h' r idx
      = (Rtrigo_def.exp (get 0%R [[1%R; (-2)%R]] (contiguous_at 0 [2%nat]) idx)
         / foldl Rplus 0%R
             (Rtrigo_def.exp
                <$> all_elements 0%R [[1%R; (-2)%R]] (contiguous_at 0 [2%nat])))%R.
Proof.
  apply (softmax_elements 0%R (ALit (JArr [JNum 1%R; JNum (-2)%R]))
           [] (contiguous_at 0 [2%nat]) [[1%R; (-2)%R]]).
  reflexivity.
Defined.

Lemma softmax_sums_to_one_witness :
  ∃ r h', softmax 0%R (ALit (JArr [JNum 1%R; JNum (-2)%R])) [] = (Ok r, h') ∧
    Forall (λ v, (0 < v)%R) (all_elements 0%R h' r) ∧
    foldl Rplus 0%R (all_elements 0%R h' r) = 1%R.
Proof.
  apply (softmax_sums_to_one 0%R (ALit (JArr [JNum 1%R; JNum (-2)%R]))
           [] (contiguous_at 0 [2%nat]) [[1%R; (-2)%R]]).
  - reflexivity.
  - simpl. lia.
Defined.

(** ** [stack] *)

Section StackMore.

Context {elt : Type} (undef zero : elt).

#[local] Abbreviation heap := (heap_of elt) (only parsing).

Implicit Types (h : heap) (s : list nat).

Lemma pick_axes_none (shp : list nat) : ∀ (strd : list Z) (off : Z),
  length strd = length shp → pick_axes shp strd [] off = (shp, strd, off).
Proof.
  induction shp as [|n shp IH]; intros [|st strd] off Hlen; try done.
  simpl. rewrite IH; [done|]. simpl in Hlen. lia.
Qed.

Lemma length_row_major s : length (row_major s) = length s.
Proof. induction s as [|n s IH]; [done|]. simpl. by rewrite IH. Qed.

(** [stacked.pick(i)]: the [i]-th block of a contiguous array. *)
Lemma pick_leading (l k i : nat) s :
  pick (contiguous_at l (k :: s)) [Some (Z.of_nat i)]
  = mkNdArray l s (row_major s) (0 + Z.of_nat (shapeSize s) * Z.of_nat i).
Proof.
  unfold pick. simpl.
  destruct (Z.leb_spec 0 (Z.of_nat i)) as [_|?]; [|lia].
  by rewrite pick_axes_none by apply length_row_major.
Qed.

Lemma set_pick_leading h (l k i : nat) s idx (x : elt) :
  set h (pick (contiguous_at l (k :: s)) [Some (Z.of_nat i)]) idx x
  = set h (contiguous_at l (k :: s)) (i :: idx) x.
Proof.
  rewrite pick_leading. unfold set, position. simpl. f_equal. lia.
Qed.

Lemma get_other_buffer h h' (l : nat) (v : NdArray) idx :
  (∀ l', l' ≠ l → h' !! l' = h !! l') → data v ≠ l →
  get undef h' v idx = get undef h v idx.
Proof. intros Hoth Hne. unfold get, read. by rewrite Hoth. Qed.

(** Assigning [src] to the [i]-th block of a contiguous array, index by
    index. *)
Lemma assign_pick_fold (l k i : nat) s (src : NdArray) (L : list (list nat)) :
  ∀ h (buf : list elt),
  (i < k)%nat → data src ≠ l → Forall (λ idx, in_bounds idx s) L →
  h !! l = Some buf → length buf = shapeSize (k :: s) →
  let dst := pick (contiguous_at l (k :: s)) [Some (Z.of_nat i)] in
  let h' := foldl (λ hc idx, set hc dst idx (get undef hc src idx)) h L in
  length h' = length h ∧
  (∀ l', l' ≠ l → h' !! l' = h !! l') ∧
  (∃ buf', h' !! l = Some buf' ∧ length buf' = length buf) ∧
  ∀ (j : nat) idx, (j < k)%nat → in_bounds idx s →
    get undef h' (contiguous_at l (k :: s)) (j :: idx)
    = if decide (j = i ∧ idx ∈ L) then get undef h src idx
      else get undef h (contiguous_at l (k :: s)) (j :: idx).
Proof.
  induction L as [|x L IH]; intros h buf Hi Hsrc HL Hl Hlen; cbv zeta.
  - simpl. split; [done|]. split; [done|]. split; [by exists buf|].
    intros j idx Hj Hidx. rewrite decide_False; [done|].
    intros [_ Hin]. by apply not_elem_of_nil in Hin.
  - apply Forall_cons_1 in HL as [Hx HL]. cbn [foldl].
    rewrite set_pick_leading.
    set (h1 := set h (contiguous_at l (k :: s)) (i :: x) (get undef h src x)).
    destruct (lookup_set_contiguous h l (k :: s) buf (i :: x)
                (get undef h src x) Hl) as (buf1 & Hl1 & Hlen1).
    fold h1 in Hl1.
    assert (Hoth1 : ∀ l', l' ≠ l → h1 !! l' = h !! l').
    { intros l' Hne. unfold h1, set. by apply lookup_write_ne. }
    destruct (IH h1 buf1 Hi Hsrc HL Hl1 ltac:(lia))
      as (Hlh & Hoth & (buf' & Hl' & Hlen') & Hget).
    split; [rewrite Hlh; apply length_write|].
    split; [intros l' Hne; rewrite Hoth by done; by apply Hoth1|].
    split; [exists buf'; split; [done|lia]|].
    intros j idx Hj Hidx. rewrite (Hget j idx Hj Hidx).
    rewrite (get_other_buffer h h1 l src idx Hoth1 Hsrc).
    unfold h1.
    rewrite (get_set_contiguous undef h l (k :: s) buf (i :: x) (j :: idx)
               _ Hl Hlen);
      [|by constructor|by constructor].
    destruct (decide (j = i ∧ idx ∈ L)) as [[-> Hin]|Hn].
    + rewrite decide_True; [done|]. split; [done|]. by right.
    + destruct (decide (i :: x = j :: idx)) as [Heq|Hne].
      * injection Heq as -> ->. rewrite decide_True; [done|].
        split; [done|]. by left.
      * rewrite decide_False; [done|]. intros [-> Hin].
        apply elem_of_cons in Hin as [->|Hin]; [done|]. by apply Hn.
Qed.

(** The loop of [stack] over arrays that live in other buffers. *)
Lemma stack_fill_spec (l k : nat) s (h0 : heap) : ∀ (vs : list NdArray) (i : nat) h (buf : list elt),
  (i + length vs ≤ k)%nat →
  Forall (λ v, shape v = s ∧ data v ≠ l) vs →
  h !! l = Some buf → length buf = shapeSize (k :: s) →
  ∃ h', stack_fill undef (contiguous_at l (k :: s)) i (ANd <$> vs) h = (Ok tt, h') ∧
    length h' = length h ∧
    (∀ l', l' ≠ l → h' !! l' = h !! l') ∧
    (∀ (j : nat) v idx, vs !! j = Some v → in_bounds idx s →
       get undef h' (contiguous_at l (k :: s)) ((i + j)%nat :: idx)
       = get undef h v idx) ∧
    (∀ (j : nat) idx, (j < i)%nat → in_bounds idx s →
       get undef h' (contiguous_at l (k :: s)) (j :: idx)
       = get undef h (contiguous_at l (k :: s)) (j :: idx)).
Proof.
  induction vs as [|v vs IH]; intros i h buf Hk Hall Hl Hlen.
  - exists h. repeat split; done.
  - apply Forall_cons_1 in Hall as [[Hs Hd] Hall]. simpl in Hk.
    cbn [fmap list_fmap stack_fill]. unfold bind at 1.
    unfold NdArray_assign. unfold bind at 1. cbn [NdArray_new ret].
    unfold assign_view.
    assert (Hshape : shape (pick (contiguous_at l (k :: s)) [Some (Z.of_nat i)]) = s).
    { by rewrite pick_leading. }
    rewrite Hshape.
    destruct (assign_pick_fold l k i s v (indices s) h buf ltac:(lia) Hd)
      as (Hlh & Hoth & (buf1 & Hl1 & Hlen1) & Hget); [|done|done|].
    { apply list.Forall_forall. intros idx Hidx. by apply indices_in_bounds. }
    set (h1 := foldl _ h (indices s)) in *.
    destruct (IH (S i) h1 buf1 ltac:(lia) Hall Hl1 ltac:(lia))
      as (h' & Hrun & Hlh' & Hoth' & Hnew & Hold).
    exists h'. split; [exact Hrun|]. split; [lia|].
    split; [intros l' Hne; rewrite Hoth' by done; by apply Hoth|].
    split.
    + intros j w idx Hj Hidx. destruct j as [|j].
      * injection Hj as <-. rewrite Nat.add_0_r.
        rewrite (Hold i idx ltac:(lia) Hidx), (Hget i idx ltac:(lia) Hidx).
        rewrite decide_True; [done|]. split; [done|].
        by apply indices_in_bounds.
      * simpl in Hj. replace (i + S j)%nat with (S i + j)%nat by lia.
        rewrite (Hnew j w idx Hj Hidx).
        apply (get_other_buffer h h1 l); [done|].
        apply (Forall_lookup_1 _ _ _ _ Hall Hj).
    + intros j idx Hj Hidx.
      rewrite (Hold j idx ltac:(lia) Hidx), (Hget j idx ltac:(lia) Hidx).
      rewrite decide_False; [done|]. lia.
Qed.

Lemma stack_convert_arrays (vs : list NdArray) h :
  mapM (λ u, if isNumber u then ret u
             else let* v := NdArray_new u in ret (ANd v))
    (ANd <$> vs) h = (Ok (ANd <$> vs), h).
Proof.
  induction vs as [|v vs IH]; [done|].
  cbn [fmap list_fmap mapM isNumber]. unfold bind at 1. unfold bind at 1.
  change (NdArray_new (ANd v) h) with (@Ok NdArray v, h).
  cbn [ret]. unfold bind at 1.
  change (list_fmap NdArray array_like ANd vs) with (ANd <$> vs).
  by rewrite IH.
Qed.

(** X26: [stack] of [k] arrays of one shape [s] returns a new array of
    shape [k :: s] whose block [i] holds the elements of the [i]-th array;
    the buffers of the arrays are unchanged. *)
Theorem stack_elements (vs : list NdArray) s h :
  vs ≠ [] → s ≠ [] →
  Forall (λ v, shape v = s ∧ (data v < length h)%nat) vs →
  ∃ r h', stack undef zero (Some (ANd <$> vs)) None h = (Ok r, h') ∧
    shape r = length vs :: s ∧ preserves h h' ∧
    ∀ (i : nat) v idx, vs !! i = Some v → in_bounds idx s →
      get undef h' r (i :: idx) = get undef h v idx.
Proof.
  intros Hne Hs Hall.
  set (k := length vs).
  set (buf := replicate (shapeSize (k :: s)) zero).
  assert (Hl : (h ++ [buf]) !! length h = Some buf).
  { by rewrite lookup_app_r, Nat.sub_diag by lia. }
  destruct (stack_fill_spec (length h) k s h vs 0 (h ++ [buf]) buf)
    as (h' & Hfill & Hlh & Hoth & Hnew & _); [lia| |done|apply length_replicate|].
  { eapply list.Forall_impl; [exact Hall|]. intros v [? ?]. split; [done|lia]. }
  exists (contiguous_at (length h) (k :: s)), h'.
  split; [|split; [done|split]].
  - assert (Hstack : stack undef zero (Some (ANd <$> vs)) None h
      = (let* st := stack_build undef zero (ANd <$> vs) in ret st) h).
    { by destruct vs. }
    rewrite Hstack. unfold bind at 1. unfold stack_build. unfold bind at 1.
    rewrite stack_convert_arrays.
    assert (Hshapes : Forall (λ y : @array_like elt, shape_or_empty y = s)
                        (ANd <$> vs)).
    { apply list.Forall_fmap. eapply list.Forall_impl; [exact Hall|].
      by intros v [? _]. }
    assert (Hexp : default [] (shape_or_empty <$> (@ANd elt <$> vs) !! 0%nat) = s).
    { destruct vs as [|v0 vs0]; [done|]. simpl.
      by apply Forall_cons_1 in Hall as [[? _] _]. }
    rewrite Hexp.
    assert (Hsame : existsb (λ y, shapes_differ s (shape_or_empty y))
                      (tl (@ANd elt <$> vs)) = false).
    { apply not_true_iff_false. intros H.
      apply existsb_exists in H as (y & Hy & Hd).
      assert (Hin : y ∈ @ANd elt <$> vs).
      { destruct vs as [|v0 vs0]; [done|]. apply list_elem_of_In. by right. }
      rewrite (proj1 (list.Forall_forall _ _) Hshapes y Hin),
        shapes_differ_same in Hd. done. }
    rewrite Hsame.
    destruct s as [|n s']; [done|]. cbn [length Nat.eqb].
    unfold bind at 1. unfold zeros, alloc.
    rewrite length_fmap. fold k.
    change (mkNdArray (length h) (k :: n :: s') (row_major (k :: n :: s')) 0)
      with (contiguous_at (length h) (k :: n :: s')).
    fold buf. unfold bind at 1. rewrite Hfill. reflexivity.
  - intros l Hlt. rewrite Hoth by lia. by apply lookup_app_l.
  - intros i v idx Hi Hidx.
    rewrite <- (Nat.add_0_l i) at 1.
    rewrite (Hnew i v idx Hi Hidx).
    apply get_preserves; [apply preserves_alloc|].
    by apply (Forall_lookup_1 _ _ _ _ Hall Hi).
Qed.

End StackMore.

Lemma stack_elements_witness :
  ∃ r h', stack 0 0 (Some (ANd <$> [contiguous_at 0 [2%nat];
                                     contiguous_at 1 [2%nat]])) None
            [[1; 2]; [3; 4]] = (Ok r, h') ∧
    shape r = length [contiguous_at 0 [2%nat]; contiguous_at 1 [2%nat]]
              :: [2%nat] ∧
    preserves [[1; 2]; [3; 4]] h' ∧
    ∀ (i : nat) v idx,
      [contiguous_at 0 [2%nat]; contiguous_at 1 [2%nat]] !! i = Some v →
      in_bounds idx [2%nat] →
      get 0 h' r (i :: idx) = get 0 [[1; 2]; [3; 4]] v idx.
Proof.
  apply (stack_elements 0 0 [contiguous_at 0 [2%nat]; contiguous_at 1 [2%nat]]
           [2%nat] [[1; 2]; [3; 4]]).
  - discriminate.
  - discriminate.
  - repeat constructor.
Defined.

(** ** [concatenate] *)

Section ConcatMore.

Context {elt : Type} (undef : elt).

#[local] Abbreviation heap := (heap_of elt) (only parsing).

Implicit Types (h : heap) (xs : list elt).






End ConcatMore.


(** ** [arange] with a step *)

(** X28: [arange] never counts down: when [stop] is not above [start] the
    result is empty whatever the step is, negative steps included. *)
Theorem arange_no_countdown (start stop step : Z) (dtype : dtype_arg) :
  stop ≤ start →
  arange (ArangeStartStopStep start stop step) = Ok ([], None) ∧
  arange (ArangeStartStopStepDtype start stop step dtype) = Ok ([], Some dtype).
Proof.
  intros Hle. unfold arange, arange_run. simpl arange_dispatch. cbv iota beta.
  cbn [arange_loop]. destruct (Z.ltb_spec start stop); [lia|done].
Qed.

Lemma arange_no_countdown_witness :
  arange (ArangeStartStopStep 5 0 (-1)) = Ok ([], None) ∧
  arange (ArangeStartStopStepDtype 5 0 (-1) (DtypeString "int32"))
  = Ok ([], Some (DtypeString "int32")).
Proof. apply (arange_no_countdown 5 0 (-1) (DtypeString "int32")). lia. Defined.
